(** * Resume parser: section segmentation, formatting and accuracy scoring

    A shallow embedding of the pure functions of [resume_parser.py]:
    [detect_sections], [format_sections], [normalize_text],
    [levenshtein_distance] and [calculate_accuracy], together with the
    fragments of Python's [str] and [re] modules they rely on.

    Modelling conventions.
    - A Python [str] is a list of characters ([list ascii]).  The character
      classes ([\s], [\d], [\w]), the case mappings and the case-insensitive
      matching are those Python gives to the code points below 128; the
      other characters have no class and no case.  A statement that is true
      of ASCII text only says so with [is_ascii].
    - Python integers are [nat] (all the integers of this program are
      lengths, indices and distances).
    - Lookups that raise in Python ([d[k]] on a missing key, [l[i]] out of
      range) return [None]; the functions that use them live in the
      [option] monad, and are shown to always return a value.
    - A Python float is an IEEE 754 binary64 number ([spec_float], with
      the operations of [SpecFloat] at precision 53); [a / b] on integers
      and [round(x, 2)] return the float nearest to the exact quotient and
      to the exact decimal. *)

From Stdlib Require Import String Ascii List Bool Arith Lia ZArith QArith.
From Stdlib Require Import Floats.SpecFloat.
Import ListNotations.

Local Open Scope nat_scope.
Local Open Scope list_scope.

(** ** Python strings *)

Definition str : Type := list ascii.

(** A string literal. *)
Definition lit (s : string) : str := list_ascii_of_string s.

Fixpoint str_eqb (a b : str) : bool :=
  match a, b with
  | [], [] => true
  | x :: a', y :: b' => Ascii.eqb x y && str_eqb a' b'
  | _, _ => false
  end.

Definition code (c : ascii) : nat := nat_of_ascii c.

Definition in_range (lo hi : nat) (c : ascii) : bool :=
  (lo <=? code c) && (code c <=? hi).

(** [str.isspace] and the class [\s]: TAB, LF, VT, FF, CR, the four
    separators FS, GS, RS, US, and the space. *)
Definition isspace (c : ascii) : bool := in_range 9 13 c || in_range 28 32 c.

(** The class [\d]. *)
Definition isdigit (c : ascii) : bool := in_range 48 57 c.

Definition isupper (c : ascii) : bool := in_range 65 90 c.
Definition islower (c : ascii) : bool := in_range 97 122 c.

(** The class [\w]: letters, digits and the underscore. *)
Definition isword (c : ascii) : bool :=
  isupper c || islower c || isdigit c || (code c =? 95).

Definition char_lower (c : ascii) : ascii :=
  if isupper c then ascii_of_nat (code c + 32) else c.

Definition char_upper (c : ascii) : ascii :=
  if islower c then ascii_of_nat (code c - 32) else c.

(** [s.lower()] and [s.upper()]. *)
Definition lower (s : str) : str := map char_lower s.
Definition upper (s : str) : str := map char_upper s.

Fixpoint dropwhile {A : Type} (p : A -> bool) (l : list A) : list A :=
  match l with
  | [] => []
  | x :: l' => if p x then dropwhile p l' else l
  end.

(** [s.lstrip()], [s.rstrip()] and [s.strip()]. *)
Definition lstrip (s : str) : str := dropwhile isspace s.
Definition rstrip (s : str) : str := rev (dropwhile isspace (rev s)).
Definition strip (s : str) : str := rstrip (lstrip s).

(** [s.split(sep)] for a one-character separator; the result is never
    empty: [''.split('\n')] is [['']]. *)
Fixpoint split (sep : ascii) (s : str) : list str :=
  match s with
  | [] => [[]]
  | c :: s' =>
      if Ascii.eqb c sep then [] :: split sep s'
      else match split sep s' with
           | l :: ls => (c :: l) :: ls
           | [] => [[c]]
           end
  end.

(** [sep.join(parts)]. *)
Fixpoint join (sep : str) (parts : list str) : str :=
  match parts with
  | [] => []
  | [p] => p
  | p :: ps => p ++ sep ++ join sep ps
  end.

(** [needle in s]. *)
Fixpoint starts_with (p s : str) : bool :=
  match p, s with
  | [], _ => true
  | x :: p', y :: s' => Ascii.eqb x y && starts_with p' s'
  | _ :: _, [] => false
  end.

Fixpoint contains (needle s : str) : bool :=
  starts_with needle s ||
  match s with
  | [] => false
  | _ :: s' => contains needle s'
  end.

Definition newline : ascii := "010"%char.
Definition NL : str := [newline].

(** ** The option monad, for lookups that can raise *)

Definition obind {A B : Type} (o : option A) (k : A -> option B) : option B :=
  match o with
  | Some a => k a
  | None => None
  end.

Notation "x <- e ;; k" := (obind e (fun x => k))
  (at level 61, e at next level, right associativity).

Fixpoint foldM {S A : Type} (f : S -> A -> option S) (l : list A) (s : S)
  : option S :=
  match l with
  | [] => Some s
  | a :: l' => s' <- f s a ;; foldM f l' s'
  end.

(** ** Regular expressions (the fragment of [re] the program uses) *)

Inductive regex : Type :=
| Void : regex
| Eps : regex
| Cls : (ascii -> bool) -> regex
| Cat : regex -> regex -> regex
| Alt : regex -> regex -> regex
| Star : regex -> regex.

Fixpoint nullable (r : regex) : bool :=
  match r with
  | Void => false
  | Eps => true
  | Cls _ => false
  | Cat r1 r2 => nullable r1 && nullable r2
  | Alt r1 r2 => nullable r1 || nullable r2
  | Star _ => true
  end.

Fixpoint deriv (c : ascii) (r : regex) : regex :=
  match r with
  | Void => Void
  | Eps => Void
  | Cls p => if p c then Eps else Void
  | Cat r1 r2 =>
      if nullable r1 then Alt (Cat (deriv c r1) r2) (deriv c r2)
      else Cat (deriv c r1) r2
  | Alt r1 r2 => Alt (deriv c r1) (deriv c r2)
  | Star r1 => Cat (deriv c r1) (Star r1)
  end.

(** Does the whole of [s] match [r]? *)
Fixpoint matchb (r : regex) (s : str) : bool :=
  match s with
  | [] => nullable r
  | c :: s' => matchb (deriv c r) s'
  end.

(** [x?], [x{n,}], a literal character, and a literal string under
    [re.IGNORECASE] (what [re.escape] protects). *)
Definition Opt (r : regex) : regex := Alt Eps r.

Fixpoint AtLeast (n : nat) (r : regex) : regex :=
  match n with
  | O => Star r
  | S n' => Cat r (AtLeast n' r)
  end.

Definition Chr (c : ascii) : regex := Cls (Ascii.eqb c).

Definition Chr_ci (c : ascii) : regex :=
  Cls (fun x => Ascii.eqb (char_lower x) (char_lower c)).

Fixpoint Lit_ci (s : str) : regex :=
  match s with
  | [] => Eps
  | c :: s' => Cat (Chr_ci c) (Lit_ci s')
  end.

Fixpoint prefixes {A : Type} (l : list A) : list (list A) :=
  match l with
  | [] => [[]]
  | x :: l' => [] :: map (cons x) (prefixes l')
  end.

Fixpoint suffixes {A : Type} (l : list A) : list (list A) :=
  match l with
  | [] => [[]]
  | _ :: l' => l :: suffixes l'
  end.

(** [re.search(r, s)] as a truth value: some substring of [s] matches. *)
Definition re_search (r : regex) (s : str) : bool :=
  existsb (fun suf => existsb (matchb r) (prefixes suf)) (suffixes s).

Definition ends_with_newline (s : str) : bool :=
  match rev s with
  | c :: _ => Ascii.eqb c newline
  | [] => false
  end.

(** [re.search('^' + r + '$', s)] as a truth value, without [re.MULTILINE]:
    [^] pins the match to the start of [s]; [$] to its end, or to just
    before a newline that ends [s]. *)
Definition re_search_anchored (r : regex) (s : str) : bool :=
  matchb r s || (ends_with_newline s && matchb r (removelast s)).

(** [re.sub(r'\s+', ' ', s)]: every maximal run of whitespace becomes one
    space.  [in_run] tells whether the previous character was whitespace. *)
Fixpoint sub_spaces_from (in_run : bool) (s : str) : str :=
  match s with
  | [] => []
  | c :: s' =>
      if isspace c then
        if in_run then sub_spaces_from true s'
        else " "%char :: sub_spaces_from true s'
      else c :: sub_spaces_from false s'
  end.

Definition sub_spaces (s : str) : str := sub_spaces_from false s.

(** [re.sub(r'[^\w\s]', '', s)]: every character that is neither a word
    character nor whitespace is deleted. *)
Definition sub_punct (s : str) : str :=
  filter (fun c => isword c || isspace c) s.

(** ** OrderedDict *)

(** An [OrderedDict] from labels to lists of lines: the keys in insertion
    order, without duplicates. *)
Definition OrderedDict : Type := list (str * list str).

Fixpoint od_get (k : str) (d : OrderedDict) : option (list str) :=
  match d with
  | [] => None
  | (k', v) :: d' => if str_eqb k k' then Some v else od_get k d'
  end.

(** [d[k] = v]: an existing key keeps its place, a new key goes last. *)
Fixpoint od_set (k : str) (v : list str) (d : OrderedDict) : OrderedDict :=
  match d with
  | [] => [(k, v)]
  | (k', v') :: d' =>
      if str_eqb k k' then (k', v) :: d' else (k', v') :: od_set k v d'
  end.

Definition od_keys (d : OrderedDict) : list str := map fst d.

(** ** detect_sections *)

Definition section_headers : list str :=
  map lit
    [ "education"; "academic background"; "qualifications";
      "experience"; "work experience"; "employment";
      "projects"; "personal projects";
      "technical skills"; "skills"; "key skills";
      "contact"; "contact information";
      "references"; "hackathons";
      "extracurricular activities"; "activities" ]%string.

Definition HEADER : str := lit "HEADER".

(** The body of [r'^\s*' + re.escape(header) + r'\s*:?\s*$'], compiled
    with [re.IGNORECASE]. *)
Definition header_pattern (header : str) : regex :=
  Cat (Star (Cls isspace))
    (Cat (Lit_ci header)
       (Cat (Star (Cls isspace))
          (Cat (Opt (Chr ":"%char)) (Star (Cls isspace))))).

Definition is_header (line header : str) : bool :=
  re_search_anchored (header_pattern header) line.

(** The inner [for header in section_headers] loop with its [break]: the
    first phrase of the vocabulary whose pattern the line matches. *)
Definition find_header (line : str) : option str :=
  find (is_header line) section_headers.

Definition is_empty (s : str) : bool :=
  match s with
  | [] => true
  | _ :: _ => false
  end.

(** The state of the outer loop: the map and [current_section]. *)
Definition seg_state : Type := (OrderedDict * str)%type.

(** One iteration of [for line in text.split('\n')]. *)
Definition detect_step (st : seg_state) (raw : str) : option seg_state :=
  let '(sections, current_section) := st in
  let line := strip raw in
  if is_empty line then Some st
  else
    match find_header line with
    | Some header =>
        let current_section := upper header in
        Some (od_set current_section [] sections, current_section)
    | None =>
        content <- od_get current_section sections ;;
        Some (od_set current_section (content ++ [line]) sections,
              current_section)
    end.

Definition seg_init : seg_state := ([(HEADER, [])], HEADER).

(** The loop over the lines (the spec's [segment]). *)
Definition detect_lines (lines : list str) : option OrderedDict :=
  st <- foldM detect_step lines seg_init ;; Some (fst st).

Definition detect_sections (text : str) : option OrderedDict :=
  detect_lines (split newline text).

(** ** format_sections *)

(** The body of [r'(\+?\d[\d\s\-\(\)]{7,}\d)']. *)
Definition phone_mid (c : ascii) : bool :=
  isdigit c || isspace c || Ascii.eqb c "-"%char
  || Ascii.eqb c "("%char || Ascii.eqb c ")"%char.

Definition phone_pattern : regex :=
  Cat (Opt (Chr "+"%char))
    (Cat (Cls isdigit) (Cat (AtLeast 7 (Cls phone_mid)) (Cls isdigit))).

(** The [if]/[elif] chain applied to each line of a contact section. *)
Definition classify_contact (line : str) : str :=
  if re_search phone_pattern line then lit "Phone: " ++ line
  else if contains (lit "@") line then lit "Email: " ++ line
  else if contains (lit "linkedin.com") (lower line) then
    lit "LinkedIn: " ++ line
  else if contains (lit "github.com") (lower line) then
    lit "GitHub: " ++ line
  else line.

Section Formatter.

(** The bullet marker of the source's f-string, a literal outside the
    character range of this model; the f-string puts one space after it. *)
Variable bullet : str.

Definition bulleted (line : str) : str := bullet ++ lit " " ++ line.

(** One iteration of [for section, content in sections.items()]: the
    strings it appends to [formatted_text]. *)
Definition format_block (entry : str * list str) : list str :=
  let '(section, content) := entry in
  match content with
  | [] => []
  | first :: rest =>
      if negb (str_eqb section HEADER) then
        (NL ++ NL ++ upper section ++ NL ++ NL)
        :: (if contains (lit "contact") (lower section) then
              [join NL (map classify_contact content)]
            else [join NL (map bulleted content)])
      else
        (upper first ++ NL ++ NL)
        :: (if 1 <? length content then [join NL rest ++ NL] else [])
  end.

Definition format_sections (sections : OrderedDict) : str :=
  strip (concat (flat_map format_block sections)).

End Formatter.

(** ** normalize_text *)

Definition normalize_text (text : str) : str :=
  sub_punct (sub_spaces (strip (lower text))).

(** ** levenshtein_distance *)

(** [c1 != c2], as the integer Python adds. *)
Definition neq_cost (c1 c2 : ascii) : nat :=
  if Ascii.eqb c1 c2 then 0 else 1.

Definition min3 (a b c : nat) : nat := Nat.min a (Nat.min b c).

Definition enumerate {A : Type} (l : list A) : list (nat * A) :=
  combine (seq 0 (length l)) l.

(** [l[-1]]. *)
Definition last_item (l : list nat) : option nat :=
  nth_error l (length l - 1).

(** One iteration of [for j, c2 in enumerate(s2)]. *)
Definition inner_step (c1 : ascii) (previous_row current_row : list nat)
    (jc : nat * ascii) : option (list nat) :=
  let '(j, c2) := jc in
  p1 <- nth_error previous_row (j + 1) ;;
  cj <- nth_error current_row j ;;
  p0 <- nth_error previous_row j ;;
  let insertions := p1 + 1 in
  let deletions := cj + 1 in
  let substitutions := p0 + neq_cost c1 c2 in
  Some (current_row ++ [min3 insertions deletions substitutions]).

(** One iteration of [for i, c1 in enumerate(s1)]: the new [previous_row]. *)
Definition outer_step (s2 : str) (previous_row : list nat)
    (ic : nat * ascii) : option (list nat) :=
  let '(i, c1) := ic in
  foldM (inner_step c1 previous_row) (enumerate s2) [i + 1].

(** The function below its first [if], where [len(s1) >= len(s2)]. *)
Definition lev_rows (s1 s2 : str) : option nat :=
  if length s2 =? 0 then Some (length s1)
  else
    row <- foldM (outer_step s2) (enumerate s1) (seq 0 (length s2 + 1)) ;;
    last_item row.

(** The recursive call swaps the arguments, after which the first test
    fails: it runs [lev_rows] once. *)
Definition levenshtein_distance (s1 s2 : str) : option nat :=
  if length s1 <? length s2 then lev_rows s2 s1 else lev_rows s1 s2.

(** ** calculate_accuracy *)

(** *** Python floats

    A Python float is an IEEE 754 binary64 number: a [spec_float] with the
    operations of [SpecFloat] at precision 53 and maximal exponent 1024.
    Each operation returns the float nearest to its exact result, ties to
    even. *)
Definition prec : Z := 53%Z.
Definition emax : Z := 1024%Z.

(** An integer as an exact operand. *)
Definition Z2SF (z : Z) : spec_float :=
  match z with
  | Z0 => S754_zero false
  | Zpos p => S754_finite false p 0
  | Zneg p => S754_finite true p 0
  end.

(** [a / b] on two integers: the float nearest to the exact quotient, as
    the true division of Python integers returns it.  The division of
    [SpecFloat] shifts the dividend until the integer quotient has more
    than 53 bits, and rounds it with the remainder. *)
Definition int_truediv (a b : Z) : spec_float :=
  SFdiv prec emax (Z2SF a) (Z2SF b).

(** [float(z)], the conversion of an integer operand of a float
    operation. *)
Definition float_of_int (z : Z) : spec_float :=
  binary_normalize prec emax z 0 false.

Definition float_zero : spec_float := S754_zero false.
Definition float_one : spec_float := float_of_int 1.
Definition float_hundred : spec_float := float_of_int 100.

(** The exact value of a finite float. *)
Definition SF2Q (x : spec_float) : Q :=
  match x with
  | S754_finite s m e =>
      let v := match e with
               | Zneg n => (Zpos m # 2 ^ n)%Q
               | _ => inject_Z (Zpos m * 2 ^ e)
               end in
      if s then Qopp v else v
  | _ => 0%Q
  end.

Definition sign_of (x : spec_float) : bool :=
  match x with
  | S754_zero s | S754_infinity s | S754_finite s _ _ => s
  | S754_nan => false
  end.

(** Rounding a rational to the nearest integer, ties to even. *)
Definition round_half_even (x : Q) : Z :=
  let n := Qnum x in
  let d := Zpos (Qden x) in
  let f := (n / d)%Z in
  let r := (n mod d)%Z in
  match (2 * r ?= d)%Z with
  | Lt => f
  | Gt => (f + 1)%Z
  | Eq => if Z.even f then f else (f + 1)%Z
  end.

(** [round(x, 2)]: Python rounds the exact value of [x] to the nearest
    decimal with two digits after the point, ties to even, and returns
    the float nearest to that decimal; a zero result keeps the sign of
    [x]; zeros, infinities and NaN are returned as they are. *)
Definition round2 (x : spec_float) : spec_float :=
  match x with
  | S754_finite _ _ _ =>
      match round_half_even (SF2Q x * 100) with
      | Z0 => S754_zero (sign_of x)
      | k => int_truediv k 100
      end
  | _ => x
  end.

(** The components of the tuples the function returns. *)
Inductive pyval : Type :=
| PFloat : spec_float -> pyval
| PStr : str -> pyval
| PInt : nat -> pyval.

Definition calculate_accuracy (extracted_text ground_truth_text : str)
  : option (list pyval) :=
  let extracted_norm := normalize_text extracted_text in
  let ground_truth_norm := normalize_text ground_truth_text in
  if is_empty extracted_norm || is_empty ground_truth_norm then
    Some [PFloat float_zero; PStr extracted_norm; PStr ground_truth_norm]
  else
    distance <- levenshtein_distance extracted_norm ground_truth_norm ;;
    let max_length :=
      Nat.max (length extracted_norm) (length ground_truth_norm) in
    let accuracy :=
      if 0 <? max_length then
        SFmul prec emax
          (SFsub prec emax float_one
             (int_truediv (Z.of_nat distance) (Z.of_nat max_length)))
          float_hundred
      else float_zero in
    Some [PFloat (round2 accuracy); PStr extracted_norm;
          PStr ground_truth_norm; PInt distance; PInt max_length].

(** The unpacking [a, b, c, d, e = calculate_accuracy(...)] of [main]: it
    raises unless the tuple has exactly five components. *)
Definition unpack5 (t : list pyval)
  : option (pyval * pyval * pyval * pyval * pyval) :=
  match t with
  | [a; b; c; d; e] => Some (a, b, c, d, e)
  | _ => None
  end.

(** ** Reference definitions for the statements *)

(** The Levenshtein distance by its recurrence: unit cost for an insertion,
    a deletion and a substitution. *)
Fixpoint lev (a b : str) {struct a} : nat :=
  match a with
  | [] => length b
  | x :: a' =>
      (fix lev_a (b : str) : nat :=
         match b with
         | [] => length a
         | y :: b' =>
             min3 (lev a' b + 1) (lev_a b' + 1) (lev a' b' + neq_cost x y)
         end) b
  end.

(** Edit scripts: [edits a b n] when [a] is turned into [b] by a
    left-to-right script of [n] single-character insertions, deletions and
    substitutions. *)
Inductive edits : str -> str -> nat -> Prop :=
| ed_done : edits [] [] 0
| ed_keep : forall x a b n, edits a b n -> edits (x :: a) (x :: b) n
| ed_subst : forall x y a b n, edits a b n -> edits (x :: a) (y :: b) (S n)
| ed_delete : forall x a b n, edits a b n -> edits (x :: a) b (S n)
| ed_insert : forall y a b n, edits a b n -> edits a (y :: b) (S n).

(** The rows of the dynamic programme: the distances from a fixed string
    [p] (held reversed) to every prefix of [s2]. *)
Definition lev_row (p s2 : str) : list nat :=
  map (fun q => lev p (rev q)) (prefixes s2).

(** The normalizer, step by step in the order the specification gives:
    lower-case; collapse the runs of whitespace; trim both ends; delete
    what is neither a word character nor whitespace. *)
Definition spec_normalize (text : str) : str :=
  sub_punct (strip (sub_spaces (lower text))).

(** [rstrip] by recursion from the front: a character is dropped when it is
    whitespace and nothing survives after it. *)
Fixpoint rstrip_rec (s : str) : str :=
  match s with
  | [] => []
  | c :: s' =>
      let r := rstrip_rec s' in
      if isspace c && is_empty r then [] else c :: r
  end.

(** The non-blank lines of a text, stripped, in order. *)
Definition nonblank_lines (lines : list str) : list str :=
  filter (fun l => negb (is_empty l)) (map strip lines).

(** A line is a header line when some phrase of the vocabulary matches. *)
Definition is_header_line (raw : str) : bool :=
  match find_header (strip raw) with
  | Some _ => true
  | None => false
  end.

(** The phone shape as the specification words it: a run of digits,
    spaces, parentheses and hyphens that holds eight digits or more.
    [spec_phone_from n s] scans [s] with [n] digits already seen in the
    current run. *)
Definition phone_separator (c : ascii) : bool :=
  Ascii.eqb c " "%char || Ascii.eqb c "("%char || Ascii.eqb c ")"%char
  || Ascii.eqb c "-"%char.

Fixpoint spec_phone_from (n : nat) (s : str) : bool :=
  match s with
  | [] => 8 <=? n
  | c :: s' =>
      if isdigit c then spec_phone_from (S n) s'
      else if phone_separator c then spec_phone_from n s'
      else (8 <=? n) || spec_phone_from 0 s'
  end.

Definition spec_phone_shaped (line : str) : bool := spec_phone_from 0 line.

(** The classification with the specification's phone shape. *)
Definition spec_classify_contact (line : str) : str :=
  if spec_phone_shaped line then lit "Phone: " ++ line
  else if contains (lit "@") line then lit "Email: " ++ line
  else if contains (lit "linkedin.com") (lower line) then
    lit "LinkedIn: " ++ line
  else if contains (lit "github.com") (lower line) then
    lit "GitHub: " ++ line
  else line.

(** The phone shape of the pattern: a digit, seven or more characters that
    are digits, whitespace, hyphens or parentheses, and a digit. *)
Definition PhoneShaped (line : str) : Prop :=
  exists pre d1 mid d2 post,
    line = pre ++ d1 :: mid ++ d2 :: post
    /\ isdigit d1 = true /\ isdigit d2 = true
    /\ forallb phone_mid mid = true /\ 7 <= length mid.

(** The language of a regular expression. *)
Inductive matches : regex -> str -> Prop :=
| m_eps : matches Eps []
| m_cls : forall (p : ascii -> bool) c, p c = true -> matches (Cls p) [c]
| m_cat : forall r1 r2 s1 s2,
    matches r1 s1 -> matches r2 s2 -> matches (Cat r1 r2) (s1 ++ s2)
| m_alt_l : forall r1 r2 s, matches r1 s -> matches (Alt r1 r2) s
| m_alt_r : forall r1 r2 s, matches r2 s -> matches (Alt r1 r2) s
| m_star_nil : forall r, matches (Star r) []
| m_star_app : forall r s1 s2,
    matches r s1 -> matches (Star r) s2 -> matches (Star r) (s1 ++ s2).

(** The worked example of the specification. *)
Definition example_lines : list str :=
  map lit
    [ "John Doe"; "Contact:"; "john@example.com"; "555-123-4567";
      "Skills"; "Python"; "SQL" ]%string.

Definition example_map : OrderedDict :=
  [ (HEADER, [lit "John Doe"]);
    (lit "CONTACT", [lit "john@example.com"; lit "555-123-4567"]);
    (lit "SKILLS", [lit "Python"; lit "SQL"]) ].

(** The same lines with blank ones in between. *)
Definition example_lines_blanks : list str :=
  map lit
    [ ""; "John Doe"; "   "; "Contact:"; "john@example.com"; "";
      "555-123-4567"; "Skills"; " "; "Python"; "SQL"; "" ]%string.

Definition no_newline (l : str) : bool :=
  forallb (fun c => negb (Ascii.eqb c newline)) l.

(** The classification of a contact line, as a relation: the first test
    that succeeds decides the prefix. *)
Inductive contact_class (line : str) : str -> Prop :=
| cc_phone :
    PhoneShaped line -> contact_class line (lit "Phone: " ++ line)
| cc_email :
    ~ PhoneShaped line ->
    contains (lit "@") line = true ->
    contact_class line (lit "Email: " ++ line)
| cc_linkedin :
    ~ PhoneShaped line ->
    contains (lit "@") line = false ->
    contains (lit "linkedin.com") (lower line) = true ->
    contact_class line (lit "LinkedIn: " ++ line)
| cc_github :
    ~ PhoneShaped line ->
    contains (lit "@") line = false ->
    contains (lit "linkedin.com") (lower line) = false ->
    contains (lit "github.com") (lower line) = true ->
    contact_class line (lit "GitHub: " ++ line)
| cc_plain :
    ~ PhoneShaped line ->
    contains (lit "@") line = false ->
    contains (lit "linkedin.com") (lower line) = false ->
    contains (lit "github.com") (lower line) = false ->
    contact_class line line.

(** What the loop maintains: [HEADER] is the first key, and the current
    section is a key. *)
Definition seg_inv (st : seg_state) : Prop :=
  (exists v rest, fst st = (HEADER, v) :: rest)
  /\ (exists content, od_get (snd st) (fst st) = Some content).

(** Two runs that agree on the current section and on the content of one
    label keep agreeing on both. *)
Definition agree_at (label : str) (st st' : seg_state) : Prop :=
  snd st = snd st' /\ od_get label (fst st) = od_get label (fst st').

(** ** Further reference definitions *)

(** The characters a normalized text is made of: lower-case letters,
    digits, the underscore and the space. *)
Definition normal_char (c : ascii) : bool :=
  islower c || isdigit c || Ascii.eqb c "_"%char || Ascii.eqb c " "%char.

(** Free of punctuation: word characters and whitespace only. *)
Definition punctuation_free (s : str) : bool :=
  forallb (fun c => isword c || isspace c) s.

(** A result of [calculate_accuracy] with its two texts exchanged. *)
Definition swap_texts (t : list pyval) : list pyval :=
  match t with
  | score :: a :: b :: rest => score :: b :: a :: rest
  | _ => t
  end.

(** The labels a section can have: [HEADER] and the phrases of the
    vocabulary in upper case. *)
Definition section_labels : list str := HEADER :: map upper section_headers.

(** What every content line of the map is, given the lines read so far:
    not empty, stripped, not a header line, and the strip of a line read. *)
Definition content_line (lines : list str) (line : str) : Prop :=
  line <> [] /\ strip line = line /\ find_header line = None
  /\ exists raw, In raw lines /\ line = strip raw.

Definition contents_ok (lines : list str) (d : OrderedDict) : Prop :=
  forall k content line,
    In (k, content) d -> In line content -> content_line lines line.

(** What the loop maintains about the keys. *)
Definition keys_ok (st : seg_state) : Prop :=
  NoDup (od_keys (fst st))
  /\ Forall (fun x => In x section_labels) (od_keys (fst st))
  /\ In (snd st) section_labels.

(** The text a header line is compared by: the line without the
    whitespace at its ends, without one colon at its end and the
    whitespace before it, in lower case. *)
Definition drop_colon (s : str) : str :=
  match rev s with
  | c :: r => if Ascii.eqb c ":"%char then rev r else s
  | [] => s
  end.

Definition header_key (line : str) : str :=
  lower (rstrip (drop_colon (rstrip (lstrip line)))).

(** A phrase in lower case that neither starts nor ends with whitespace
    and does not end with a colon; the phrases of the vocabulary are. *)
Definition plain_phrase (h : str) : bool :=
  str_eqb (lower h) h
  && match h with
     | c :: _ => negb (isspace c)
     | [] => false
     end
  && match rev h with
     | c :: _ => negb (isspace c) && negb (Ascii.eqb c ":"%char)
     | [] => false
     end.

(** The shape of a line that matches the pattern of [header]. *)
Definition HeaderShaped (header line : str) : Prop :=
  exists w1 x w2 c w3,
    line = w1 ++ x ++ w2 ++ c ++ w3
    /\ forallb isspace w1 = true
    /\ lower x = lower header
    /\ forallb isspace w2 = true
    /\ (c = [] \/ c = lit ":")
    /\ forallb isspace w3 = true.

(** A section with at least one content line. *)
Definition has_content (entry : str * list str) : bool :=
  match snd entry with
  | [] => false
  | _ :: _ => true
  end.

(** The first and the last character of a string are not whitespace (the
    empty string passes). *)
Definition head_ok (s : str) : Prop :=
  match s with
  | [] => True
  | c :: _ => isspace c = false
  end.

Definition trimmed (s : str) : Prop := head_ok s /\ head_ok (rev s).

(** ** extract_text_with_structure *)

(** [s.split()]: the maximal runs of characters that are not whitespace.
    [cur] is the word being read, last character first. *)
Fixpoint words_from (cur : str) (s : str) : list str :=
  match s with
  | [] => if is_empty cur then [] else [rev cur]
  | c :: s' =>
      if isspace c then
        if is_empty cur then words_from [] s'
        else rev cur :: words_from [] s'
      else words_from (c :: cur) s'
  end.

Definition words (s : str) : list str := words_from [] s.

(** What the function tells the user on its way ([st.warning],
    [st.error]). *)
Inductive notice : Type :=
| Warning : str -> notice
| Error : str -> notice.

Section Extraction.

(** The collaborators, for a fixed PDF: a call returns its value ([inl]) or
    raises, with the text of the exception ([inr]).  [ocr img] is
    [pytesseract.image_to_string(preprocess_image(img), config='--psm 6')]. *)
Variable image : Type.
Variable bullet : str.
Variable extract_text : str + str.
Variable convert_from_path : nat -> list image + str.
Variable ocr : image -> str + str.

(** [format_sections(detect_sections(text))]; a lookup that fails in
    [detect_sections] would raise here. *)
Definition structure (text : str) : str + str :=
  match detect_sections text with
  | Some sections => inl (format_sections bullet sections)
  | None => inr (lit "KeyError")
  end.

(** The loop [for img in images]: the texts collected and the warnings. *)
Fixpoint ocr_pages (images : list image) (full_text : list str)
    (notices : list notice) : list str * list notice :=
  match images with
  | [] => (full_text, notices)
  | img :: images' =>
      match ocr img with
      | inl text => ocr_pages images' (full_text ++ [text]) notices
      | inr e =>
          ocr_pages images' full_text
            (notices ++ [Warning (lit "OCR processing warning: " ++ e)])
      end
  end.

(** The second [try] block. *)
Definition ocr_attempt : str * list notice :=
  let '(images, notices) :=
    match convert_from_path 300 with
    | inl images => (inl images, [])
    | inr e =>
        (convert_from_path 200,
         [Warning (lit "PDF conversion warning: " ++ e)])
    end in
  match images with
  | inr e =>
      (lit "Extraction failed", notices ++ [Error (lit "OCR failed: " ++ e)])
  | inl images =>
      let '(full_text, notices) := ocr_pages images [] notices in
      match full_text with
      | [] => (lit "OCR completed but no text extracted", notices)
      | _ :: _ =>
          match structure (join NL full_text) with
          | inl formatted => (formatted, notices)
          | inr e =>
              (lit "Extraction failed",
               notices ++ [Error (lit "OCR failed: " ++ e)])
          end
      end
  end.

(** The function: the value it returns and the notices it shows. *)
Definition extract_text_with_structure : str * list notice :=
  match extract_text with
  | inl text =>
      if 50 <? length (words (strip text)) then
        match structure text with
        | inl formatted => (formatted, [])
        | inr e =>
            let '(r, notices) := ocr_attempt in
            (r, Warning (lit "PDFMiner extraction attempt failed: " ++ e)
                :: notices)
        end
      else ocr_attempt
  | inr e =>
      let '(r, notices) := ocr_attempt in
      (r, Warning (lit "PDFMiner extraction attempt failed: " ++ e)
          :: notices)
  end.

End Extraction.

(** The texts of the pages whose recognition succeeds, in order. *)
Definition recognized {image : Type} (ocr : image -> str + str)
    (images : list image) : list str :=
  flat_map (fun img => match ocr img with
                       | inl text => [text]
                       | inr _ => []
                       end) images.

(** One warning for each page whose recognition fails, in order. *)
Definition page_warnings {image : Type} (ocr : image -> str + str)
    (images : list image) : list notice :=
  flat_map (fun img => match ocr img with
                       | inl _ => []
                       | inr e =>
                           [Warning (lit "OCR processing warning: " ++ e)]
                       end) images.

(** The value of the OCR attempt from the texts recognized. *)
Definition ocr_value (bullet : str) (texts : list str) : str :=
  match texts with
  | [] => lit "OCR completed but no text extracted"
  | _ :: _ =>
      match detect_sections (join NL texts) with
      | Some sections => format_sections bullet sections
      | None => lit "Extraction failed"
      end
  end.

(** The digital text is not used: its extraction raised, or it has fifty
    words at most. *)
Definition digital_unused (extract_text : str + str) : Prop :=
  match extract_text with
  | inl text => length (words (strip text)) <= 50
  | inr _ => True
  end.

Definition is_error (n : notice) : bool :=
  match n with
  | Error _ => true
  | Warning _ => false
  end.

(** A line that opens the section [label]. *)
Definition opens (label raw : str) : bool :=
  match find_header (strip raw) with
  | Some header => str_eqb (upper header) label
  | None => false
  end.

(** Nothing, or lines of which the first is a header line. *)
Definition starts_with_header (lines : list str) : bool :=
  match lines with
  | [] => true
  | raw :: _ => is_header_line raw
  end.

(** [(1 - d / m) * 100] on the integers [d] and [m], as the floats
    compute it. *)
Definition percentage (d m : nat) : spec_float :=
  SFmul prec emax
    (SFsub prec emax float_one (int_truediv (Z.of_nat d) (Z.of_nat m)))
    float_hundred.

(** The float nearest to [k / 100]. *)
Definition hundredths (k : Z) : spec_float :=
  match k with
  | Z0 => float_zero
  | _ => int_truediv k 100
  end.

(** The comparison [0.0 <= x <= 100.0] of floats. *)
Definition in_percent (x : spec_float) : bool :=
  SFleb float_zero x && SFleb x float_hundred.

(** The floats that are [+0.0], or positive and at most [K * 2^eK]. *)
Definition below (K eK : Z) (x : spec_float) : Prop :=
  match x with
  | S754_zero false => True
  | S754_finite false m e => (e <= eK /\ Zpos m <= K * 2 ^ (eK - e))%Z
  | _ => False
  end.

(** The positive floats between [L * 2^eK] and [U * 2^eK]. *)
Definition within (L U eK : Z) (x : spec_float) : Prop :=
  match x with
  | S754_finite false m e =>
      (e <= eK /\ L * 2 ^ (eK - e) <= Zpos m <= U * 2 ^ (eK - e))%Z
  | _ => False
  end.

(** The strings of ASCII characters: on them the character classes and the
    case mappings above are the ones of Python. *)
Definition is_ascii (s : str) : bool := forallb (fun c => code c <? 128) s.

(** Two texts of 32768 lower-case letters that differ in the first. *)
Definition long_run : str := repeat "a"%char (N.to_nat 32767).
Definition long_extracted : str := "b"%char :: long_run.
Definition long_reference : str := "a"%char :: long_run.

(** * Theorems *)

(** ** The edit-distance engine *)

Lemma lev_nil_r : forall a, lev a [] = length a.
Proof. destruct a; reflexivity. Qed.

Lemma lev_cons_cons : forall x y a b,
  lev (x :: a) (y :: b) =
  min3 (lev a (y :: b) + 1) (lev (x :: a) b + 1) (lev a b + neq_cost x y).
Proof. reflexivity. Qed.

Lemma neq_cost_sym : forall x y, neq_cost x y = neq_cost y x.
Proof. intros x y. unfold neq_cost. rewrite Ascii.eqb_sym. reflexivity. Qed.

Lemma neq_cost_refl : forall x, neq_cost x x = 0.
Proof. intros x. unfold neq_cost. rewrite Ascii.eqb_refl. reflexivity. Qed.

Lemma neq_cost_le : forall x y, neq_cost x y <= 1.
Proof. intros x y. unfold neq_cost. destruct (Ascii.eqb x y); lia. Qed.

Lemma lev_sym : forall a b, lev a b = lev b a.
Proof.
  induction a as [|x a IHa]; intros b.
  - simpl. symmetry. apply lev_nil_r.
  - induction b as [|y b IHb].
    + reflexivity.
    + rewrite !lev_cons_cons. rewrite IHb, (IHa (y :: b)), (IHa b).
      rewrite (neq_cost_sym x y). unfold min3. lia.
Qed.

Lemma lev_le_max : forall a b, lev a b <= Nat.max (length a) (length b).
Proof.
  induction a as [|x a IHa]; intros b.
  - simpl. lia.
  - destruct b as [|y b].
    + simpl. lia.
    + rewrite lev_cons_cons. specialize (IHa b).
      pose proof (neq_cost_le x y). unfold min3. simpl length. lia.
Qed.

Lemma lev_refl : forall a, lev a a = 0.
Proof.
  induction a as [|x a IHa].
  - reflexivity.
  - rewrite lev_cons_cons, IHa, neq_cost_refl. unfold min3. lia.
Qed.

(** The recurrence yields the cost of some edit script ... *)
Lemma lev_edits : forall a b, edits a b (lev a b).
Proof.
  induction a as [|x a IHa]; intros b.
  - simpl. induction b; simpl; constructor; assumption.
  - induction b as [|y b IHb].
    + rewrite lev_nil_r. simpl. apply ed_delete.
      specialize (IHa []). rewrite lev_nil_r in IHa. exact IHa.
    + rewrite lev_cons_cons. unfold min3.
      destruct (Nat.min_dec (lev a (y :: b) + 1)
                  (Nat.min (lev (x :: a) b + 1) (lev a b + neq_cost x y)))
        as [E|E]; rewrite E.
      * rewrite Nat.add_1_r. apply ed_delete, IHa.
      * destruct (Nat.min_dec (lev (x :: a) b + 1) (lev a b + neq_cost x y))
          as [E'|E']; rewrite E'.
        -- rewrite Nat.add_1_r. apply ed_insert, IHb.
        -- unfold neq_cost. destruct (Ascii.eqb_spec x y) as [->|_].
           ++ rewrite Nat.add_0_r. apply ed_keep, IHa.
           ++ rewrite Nat.add_1_r. apply ed_subst, IHa.
Qed.

(** ... and no edit script is cheaper. *)
Lemma lev_minimal : forall a b n, edits a b n -> lev a b <= n.
Proof.
  induction 1 as [|x a b n _ IH|x y a b n _ IH|x a b n _ IH|y a b n _ IH].
  - reflexivity.
  - rewrite lev_cons_cons, neq_cost_refl. unfold min3. lia.
  - rewrite lev_cons_cons. pose proof (neq_cost_le x y). unfold min3. lia.
  - destruct b as [|y b].
    + rewrite lev_nil_r in *. simpl. lia.
    + rewrite lev_cons_cons. unfold min3. lia.
  - destruct a as [|x a].
    + simpl in *. lia.
    + rewrite lev_cons_cons. unfold min3. lia.
Qed.

Lemma edits_app : forall a b n a' b' n',
  edits a b n -> edits a' b' n' -> edits (a ++ a') (b ++ b') (n + n').
Proof.
  intros a b n a' b' n' H H'.
  induction H; simpl; try (constructor; assumption); assumption.
Qed.

Lemma edits_rev : forall a b n, edits a b n -> edits (rev a) (rev b) n.
Proof.
  induction 1 as [|x a b n _ IH|x y a b n _ IH|x a b n _ IH|y a b n _ IH];
    simpl.
  - constructor.
  - rewrite <- (Nat.add_0_r n). apply edits_app; [exact IH|].
    repeat constructor.
  - rewrite <- Nat.add_1_r. apply edits_app; [exact IH|].
    repeat constructor.
  - rewrite <- Nat.add_1_r, <- (app_nil_r (rev b)).
    apply edits_app; [exact IH|]. repeat constructor.
  - rewrite <- Nat.add_1_r, <- (app_nil_r (rev a)).
    apply edits_app; [exact IH|]. repeat constructor.
Qed.

Lemma lev_rev : forall a b, lev (rev a) (rev b) = lev a b.
Proof.
  assert (H : forall a b, lev (rev a) (rev b) <= lev a b).
  { intros a b. apply lev_minimal, edits_rev, lev_edits. }
  intros a b. apply Nat.le_antisymm; [apply H|].
  rewrite <- (rev_involutive a), <- (rev_involutive b) at 1. apply H.
Qed.

(** *** The rows of the dynamic programme *)

Lemma prefixes_snoc : forall (A : Type) (q : list A) c,
  prefixes (q ++ [c]) = prefixes q ++ [q ++ [c]].
Proof.
  induction q as [|x q IH]; intros c; simpl.
  - reflexivity.
  - rewrite IH, map_app. reflexivity.
Qed.

Lemma length_prefixes : forall (A : Type) (l : list A),
  length (prefixes l) = S (length l).
Proof.
  induction l as [|x l IH]; simpl; [reflexivity|].
  rewrite length_map, IH. reflexivity.
Qed.

Lemma nth_error_prefixes : forall (A : Type) (q t : list A),
  nth_error (prefixes (q ++ t)) (length q) = Some q.
Proof.
  induction q as [|x q IH]; intros t; simpl.
  - destruct t; reflexivity.
  - rewrite nth_error_map, IH. reflexivity.
Qed.

Lemma nth_error_lev_row : forall p q t,
  nth_error (lev_row p (q ++ t)) (length q) = Some (lev p (rev q)).
Proof.
  intros p q t. unfold lev_row.
  rewrite nth_error_map, nth_error_prefixes. reflexivity.
Qed.

Lemma lev_row_snoc : forall p q c,
  lev_row p (q ++ [c]) = lev_row p q ++ [lev p (c :: rev q)].
Proof.
  intros p q c. unfold lev_row.
  rewrite prefixes_snoc, map_app. simpl. rewrite rev_unit. reflexivity.
Qed.

Lemma lev_row_nil_l : forall s, lev_row [] s = seq 0 (length s + 1).
Proof.
  intros s. unfold lev_row. rewrite Nat.add_1_r.
  induction s as [|x s IH].
  - reflexivity.
  - cbn [prefixes map length]. rewrite map_map.
    change (seq 0 (S (S (length s)))) with (0 :: seq 1 (S (length s))).
    cbn [rev lev length]. f_equal.
    rewrite <- seq_shift, <- IH, map_map.
    apply map_ext. intros q. cbn [lev rev]. rewrite length_app. simpl. lia.
Qed.

Lemma last_item_lev_row : forall p s,
  last_item (lev_row p s) = Some (lev p (rev s)).
Proof.
  intros p s. unfold last_item.
  assert (E : length (lev_row p s) - 1 = length s).
  { unfold lev_row. rewrite length_map, length_prefixes. lia. }
  rewrite E. rewrite <- (app_nil_r s) at 1. apply nth_error_lev_row.
Qed.

(** The inner loop, started after the prefix [q] of [s2], completes the
    row of [c1 :: p]. *)
Lemma inner_loop : forall c1 p s2 t q,
  s2 = q ++ t ->
  foldM (inner_step c1 (lev_row p s2))
    (combine (seq (length q) (length t)) t) (lev_row (c1 :: p) q)
  = Some (lev_row (c1 :: p) s2).
Proof.
  intros c1 p s2 t. induction t as [|c2 t IH]; intros q E.
  - rewrite app_nil_r in E. subst s2. reflexivity.
  - cbn [length seq combine foldM]. unfold inner_step at 1.
    assert (E1 : nth_error (lev_row p s2) (length q + 1)
                 = Some (lev p (c2 :: rev q))).
    { replace s2 with ((q ++ [c2]) ++ t)
        by (rewrite <- app_assoc; symmetry; exact E).
      replace (length q + 1) with (length (q ++ [c2]))
        by (rewrite length_app; reflexivity).
      rewrite nth_error_lev_row, rev_unit. reflexivity. }
    assert (E2 : nth_error (lev_row (c1 :: p) q) (length q)
                 = Some (lev (c1 :: p) (rev q))).
    { rewrite <- (app_nil_r q) at 1. apply nth_error_lev_row. }
    assert (E3 : nth_error (lev_row p s2) (length q) = Some (lev p (rev q))).
    { rewrite E. apply nth_error_lev_row. }
    rewrite E1, E2, E3. cbn [obind].
    rewrite <- lev_cons_cons, <- lev_row_snoc.
    replace (S (length q)) with (length (q ++ [c2]))
      by (rewrite length_app; simpl; lia).
    apply IH. rewrite <- app_assoc. exact E.
Qed.

Lemma outer_loop : forall s2 t p,
  foldM (outer_step s2) (combine (seq (length p) (length t)) t)
    (lev_row (rev p) s2)
  = Some (lev_row (rev (p ++ t)) s2).
Proof.
  intros s2 t. induction t as [|c1 t IH]; intros p.
  - rewrite app_nil_r. reflexivity.
  - cbn [length seq combine foldM]. unfold outer_step at 1.
    replace [length p + 1] with (lev_row (c1 :: rev p) []).
    2: { unfold lev_row. cbn [prefixes map rev]. rewrite lev_nil_r.
         simpl. rewrite length_rev. f_equal. lia. }
    unfold enumerate.
    pose proof (inner_loop c1 (rev p) s2 s2 [] eq_refl) as H.
    change (length (@nil ascii)) with 0 in H. rewrite H. cbn [obind].
    replace (S (length p)) with (length (p ++ [c1]))
      by (rewrite length_app; simpl; lia).
    replace (c1 :: rev p) with (rev (p ++ [c1])) by apply rev_unit.
    rewrite IH, <- app_assoc. reflexivity.
Qed.

Lemma lev_rows_correct : forall s1 s2, lev_rows s1 s2 = Some (lev s1 s2).
Proof.
  intros s1 s2. unfold lev_rows.
  destruct (Nat.eqb_spec (length s2) 0) as [E|E].
  - destruct s2; [|discriminate]. rewrite lev_nil_r. reflexivity.
  - rewrite <- lev_row_nil_l. unfold enumerate.
    pose proof (outer_loop s2 s1 []) as H.
    cbn [length rev app] in H. rewrite H. cbn [obind].
    rewrite last_item_lev_row, lev_rev. reflexivity.
Qed.

(** The function returns, and what it returns is the distance of the
    recurrence. *)
Lemma levenshtein_distance_correct : forall s1 s2,
  levenshtein_distance s1 s2 = Some (lev s1 s2).
Proof.
  intros s1 s2. unfold levenshtein_distance.
  destruct (length s1 <? length s2); rewrite lev_rows_correct.
  - rewrite lev_sym. reflexivity.
  - reflexivity.
Qed.

(** ** The normalizer *)

Lemma dropwhile_app_last : forall (A : Type) (p : A -> bool) l c,
  dropwhile p (l ++ [c]) =
  if forallb p l then (if p c then [] else [c]) else dropwhile p l ++ [c].
Proof.
  intros A p l c. induction l as [|x l IH]; simpl.
  - reflexivity.
  - destruct (p x); simpl; [exact IH | reflexivity].
Qed.

Lemma forallb_rev : forall (A : Type) (p : A -> bool) l,
  forallb p (rev l) = forallb p l.
Proof.
  intros A p l. induction l as [|x l IH]; simpl; [reflexivity|].
  rewrite forallb_app, IH. simpl. rewrite andb_true_r. apply andb_comm.
Qed.

Lemma is_empty_rstrip_rec : forall s,
  is_empty (rstrip_rec s) = forallb isspace s.
Proof.
  induction s as [|c s IH]; simpl; [reflexivity|].
  rewrite IH. destruct (isspace c), (forallb isspace s); reflexivity.
Qed.

Lemma rstrip_rstrip_rec : forall s, rstrip s = rstrip_rec s.
Proof.
  unfold rstrip. induction s as [|c s IH]; simpl; [reflexivity|].
  rewrite dropwhile_app_last, forallb_rev, is_empty_rstrip_rec.
  destruct (forallb isspace s) eqn:E.
  - rewrite andb_true_r. destruct (isspace c); [reflexivity|].
    pose proof (is_empty_rstrip_rec s) as R. rewrite E in R.
    destruct (rstrip_rec s); [reflexivity | discriminate].
  - rewrite andb_false_r, rev_unit, IH. reflexivity.
Qed.

Lemma is_empty_sub_spaces_true : forall s,
  is_empty (sub_spaces_from true s) = forallb isspace s.
Proof.
  induction s as [|c s IH]; simpl; [reflexivity|].
  destruct (isspace c); simpl; [exact IH | reflexivity].
Qed.

Lemma forallb_isspace_rstrip_rec : forall s,
  forallb isspace (rstrip_rec s) = forallb isspace s.
Proof.
  induction s as [|c s IH]; simpl; [reflexivity|].
  rewrite is_empty_rstrip_rec.
  destruct (isspace c) eqn:Ec, (forallb isspace s) eqn:Es; simpl;
    rewrite ?Ec; simpl; try reflexivity.
  rewrite IH. reflexivity.
Qed.

Lemma lstrip_sub_spaces : forall b s,
  lstrip (sub_spaces_from b s) = sub_spaces_from false (lstrip s).
Proof.
  unfold lstrip. intros b s. revert b.
  induction s as [|c s IH]; intros b; simpl; [reflexivity|].
  destruct (isspace c) eqn:Ec.
  - destruct b; simpl; apply IH.
  - simpl. rewrite Ec. reflexivity.
Qed.

Lemma rstrip_rec_sub_spaces : forall b s,
  rstrip_rec (sub_spaces_from b s) = sub_spaces_from b (rstrip_rec s).
Proof.
  intros b s. revert b.
  induction s as [|c s IH]; intros b; simpl; [reflexivity|].
  rewrite is_empty_rstrip_rec.
  destruct (isspace c) eqn:Ec; simpl.
  - destruct (forallb isspace s) eqn:Es; simpl.
    + destruct b; simpl.
      * rewrite IH.
        assert (E : is_empty (sub_spaces_from true (rstrip_rec s)) = true).
        { rewrite is_empty_sub_spaces_true, forallb_isspace_rstrip_rec.
          exact Es. }
        destruct (sub_spaces_from true (rstrip_rec s)); [reflexivity|].
        discriminate.
      * rewrite IH, is_empty_sub_spaces_true, forallb_isspace_rstrip_rec, Es.
        reflexivity.
    + rewrite Ec. destruct b; simpl.
      * apply IH.
      * rewrite IH, is_empty_sub_spaces_true, forallb_isspace_rstrip_rec, Es.
        reflexivity.
  - rewrite Ec. simpl. rewrite IH. reflexivity.
Qed.

(** Trimming and collapsing the whitespace commute. *)
Lemma strip_sub_spaces : forall s,
  strip (sub_spaces s) = sub_spaces (strip s).
Proof.
  intros s. unfold strip, sub_spaces.
  rewrite lstrip_sub_spaces, !rstrip_rstrip_rec.
  apply rstrip_rec_sub_spaces.
Qed.

(** C7. [normalize_text] is the composition of the three steps the
    specification lists, in its order: lower-casing, then collapsing every
    run of whitespace to one space and trimming both ends, then deleting
    every character that is neither a word character nor whitespace; and
    it sends ["  Hello,  World!!  "] to ["hello world"]. *)
Theorem normalize_text_steps :
  (forall text, normalize_text text = spec_normalize text)
  /\ normalize_text (lit "  Hello,  World!!  ") = lit "hello world".
Proof.
  split.
  - intros text. unfold normalize_text, spec_normalize.
    rewrite strip_sub_spaces. reflexivity.
  - reflexivity.
Qed.

(** ** The section segmenter *)

Lemma str_eqb_spec : forall a b, reflect (a = b) (str_eqb a b).
Proof.
  induction a as [|x a IH]; intros [|y b]; simpl;
    try (constructor; congruence).
  destruct (Ascii.eqb_spec x y) as [->|N]; simpl.
  - destruct (IH b) as [->|N]; constructor; congruence.
  - constructor. congruence.
Qed.

Lemma str_eqb_refl : forall a, str_eqb a a = true.
Proof. intros a. destruct (str_eqb_spec a a); congruence. Qed.

Lemma od_get_set_same : forall k v d, od_get k (od_set k v d) = Some v.
Proof.
  intros k v d. induction d as [|[k' v'] d IH]; simpl.
  - rewrite str_eqb_refl. reflexivity.
  - destruct (str_eqb k k') eqn:E; simpl; rewrite E; [reflexivity | exact IH].
Qed.

Lemma od_get_set_other : forall k k' v d,
  k <> k' -> od_get k (od_set k' v d) = od_get k d.
Proof.
  intros k k' v d N. induction d as [|[k2 v2] d IH]; simpl.
  - destruct (str_eqb_spec k k'); [contradiction | reflexivity].
  - destruct (str_eqb_spec k' k2) as [->|N2]; simpl.
    + destruct (str_eqb_spec k k2); [contradiction | reflexivity].
    + rewrite IH. reflexivity.
Qed.

Lemma od_set_head : forall k v k0 v0 d,
  exists v1 d1, od_set k v ((k0, v0) :: d) = (k0, v1) :: d1.
Proof.
  intros k v k0 v0 d. simpl. destruct (str_eqb k k0); eauto.
Qed.

Lemma foldM_app : forall (S A : Type) (f : S -> A -> option S) l1 l2 s,
  foldM f (l1 ++ l2) s = (s' <- foldM f l1 s ;; foldM f l2 s').
Proof.
  intros S A f l1 l2. induction l1 as [|a l1 IH]; intros s; simpl.
  - reflexivity.
  - destruct (f s a); simpl; [apply IH | reflexivity].
Qed.

Lemma seg_inv_init : seg_inv seg_init.
Proof. split; simpl; eauto. Qed.

(** A line is blank, opens a section, or is content. *)
Lemma detect_step_cases : forall sections cur raw,
  (strip raw = [] /\ detect_step (sections, cur) raw = Some (sections, cur))
  \/ (exists header, strip raw <> [] /\ find_header (strip raw) = Some header
      /\ detect_step (sections, cur) raw
         = Some (od_set (upper header) [] sections, upper header))
  \/ (strip raw <> [] /\ find_header (strip raw) = None
      /\ detect_step (sections, cur) raw
         = (content <- od_get cur sections ;;
            Some (od_set cur (content ++ [strip raw]) sections, cur))).
Proof.
  intros sections cur raw. unfold detect_step.
  destruct (strip raw) as [|c l] eqn:E; simpl.
  - left. split; reflexivity.
  - right. destruct (find_header (c :: l)) as [header|] eqn:F.
    + left. exists header. repeat split; congruence.
    + right. repeat split; congruence.
Qed.

Lemma detect_step_inv : forall st raw,
  seg_inv st -> exists st', detect_step st raw = Some st' /\ seg_inv st'.
Proof.
  intros [sections cur] raw [(v & rest & Hd) (content & Hc)].
  cbn [fst snd] in *.
  destruct (detect_step_cases sections cur raw)
    as [[_ E] | [(header & _ & _ & E) | (_ & _ & E)]]; rewrite E.
  - eexists. split; [reflexivity|]. split; simpl; eauto.
  - eexists. split; [reflexivity|]. split; simpl.
    + rewrite Hd. apply od_set_head.
    + rewrite od_get_set_same. eauto.
  - rewrite Hc. simpl. eexists. split; [reflexivity|]. split; simpl.
    + rewrite Hd. apply od_set_head.
    + rewrite od_get_set_same. eauto.
Qed.

Lemma detect_loop_inv : forall lines st,
  seg_inv st ->
  exists st', foldM detect_step lines st = Some st' /\ seg_inv st'.
Proof.
  induction lines as [|raw lines IH]; intros st I; simpl.
  - eauto.
  - destruct (detect_step_inv st raw I) as (st1 & E & I1).
    rewrite E. simpl. apply IH, I1.
Qed.

(** Without header lines every non-blank line goes to the current
    section. *)
Lemma detect_loop_no_header : forall lines sections cur acc,
  forallb (fun raw => negb (is_header_line raw)) lines = true ->
  od_get cur sections = Some acc ->
  exists sections',
    foldM detect_step lines (sections, cur) = Some (sections', cur)
    /\ od_get cur sections' = Some (acc ++ nonblank_lines lines)
    /\ (forall v, sections = [(cur, v)] ->
        sections' = [(cur, acc ++ nonblank_lines lines)]).
Proof.
  induction lines as [|raw lines IH]; intros sections cur acc H G.
  - simpl. exists sections. rewrite app_nil_r. repeat split; auto.
    intros v ->. simpl in G. rewrite str_eqb_refl in G. congruence.
  - simpl in H. apply andb_true_iff in H as [H1 H2].
    unfold is_header_line in H1. cbn [foldM].
    unfold nonblank_lines. cbn [map filter]. fold (nonblank_lines lines).
    destruct (detect_step_cases sections cur raw)
      as [[B E] | [(header & _ & F & _) | (B & _ & E)]]; rewrite ?E.
    + rewrite B. simpl. apply IH; assumption.
    + rewrite F in H1. discriminate.
    + rewrite G. cbn [obind].
      destruct (strip raw) as [|c l] eqn:S; [congruence|]. cbn [is_empty negb].
      destruct (IH (od_set cur (acc ++ [c :: l]) sections) cur
                  (acc ++ [c :: l]) H2 (od_get_set_same _ _ _))
        as (s' & E1 & E2 & E3).
      exists s'. rewrite <- app_assoc in E2, E3. repeat split; auto.
      intros v ->. apply (E3 (acc ++ [c :: l])).
      simpl. rewrite str_eqb_refl. reflexivity.
Qed.

Lemma detect_step_agree : forall label st st' raw r r',
  agree_at label st st' ->
  detect_step st raw = Some r -> detect_step st' raw = Some r' ->
  agree_at label r r'.
Proof.
  intros label [s cur] [s' cur'] raw r r' [C G] E E'. simpl in C, G.
  subst cur'.
  destruct (detect_step_cases s cur raw)
    as [[B F] | [(header & B & H & F) | (B & H & F)]];
  destruct (detect_step_cases s' cur raw)
    as [[B' F'] | [(header' & B' & H' & F') | (B' & H' & F')]];
  try congruence.
  - rewrite F in E. rewrite F' in E'. inversion E. inversion E'.
    split; [reflexivity | exact G].
  - rewrite F in E. rewrite F' in E'. inversion E. inversion E'.
    assert (header' = header) by congruence. subst header'.
    split; simpl; [reflexivity|].
    destruct (str_eqb_spec label (upper header)) as [->|N].
    + rewrite !od_get_set_same. reflexivity.
    + rewrite !od_get_set_other by assumption. exact G.
  - rewrite F in E. rewrite F' in E'.
    destruct (od_get cur s) as [c|] eqn:Gc; [|discriminate].
    destruct (od_get cur s') as [c'|] eqn:Gc'; [|discriminate].
    simpl in E, E'. inversion E. inversion E'.
    split; simpl; [reflexivity|].
    destruct (str_eqb_spec label cur) as [->|N].
    + rewrite !od_get_set_same. congruence.
    + rewrite !od_get_set_other by assumption. exact G.
Qed.

Lemma detect_loop_agree : forall label lines st st' r r',
  agree_at label st st' ->
  foldM detect_step lines st = Some r ->
  foldM detect_step lines st' = Some r' ->
  agree_at label r r'.
Proof.
  induction lines as [|raw lines IH]; intros st st' r r' A E E'; simpl in *.
  - congruence.
  - destruct (detect_step st raw) as [st1|] eqn:S; [|discriminate].
    destruct (detect_step st' raw) as [st1'|] eqn:S'; [|discriminate].
    simpl in E, E'.
    apply (IH st1 st1' r r'); auto.
    apply (detect_step_agree label st st' raw); assumption.
Qed.

Lemma find_header_blank : find_header [] = None.
Proof. reflexivity. Qed.

(** Every non-empty sequence of lines is the [split] of a text: the text
    that joins them with newlines. *)
Lemma split_no_newline : forall l,
  no_newline l = true -> split newline l = [l].
Proof.
  induction l as [|c l IH]; simpl; intros H; [reflexivity|].
  apply andb_true_iff in H as [Hc Hl].
  destruct (Ascii.eqb c newline); [discriminate|].
  rewrite (IH Hl). reflexivity.
Qed.

Lemma split_app_newline : forall l rest,
  no_newline l = true ->
  split newline (l ++ newline :: rest) = l :: split newline rest.
Proof.
  induction l as [|c l IH]; simpl; intros rest H.
  - reflexivity.
  - apply andb_true_iff in H as [Hc Hl].
    destruct (Ascii.eqb c newline); [discriminate|].
    rewrite (IH rest Hl). reflexivity.
Qed.

Lemma split_join : forall l lines,
  forallb no_newline (l :: lines) = true ->
  split newline (join NL (l :: lines)) = l :: lines.
Proof.
  intros l lines. revert l.
  induction lines as [|l' lines IH]; intros l H; simpl in H.
  - simpl. apply split_no_newline.
    apply andb_true_iff in H as [H _]. exact H.
  - apply andb_true_iff in H as [Hl H].
    change (join NL (l :: l' :: lines))
      with (l ++ newline :: join NL (l' :: lines)).
    rewrite (split_app_newline _ _ Hl), (IH l' H). reflexivity.
Qed.

Lemma detect_sections_join : forall l lines,
  forallb no_newline (l :: lines) = true ->
  detect_sections (join NL (l :: lines)) = detect_lines (l :: lines).
Proof.
  intros l lines H. unfold detect_sections. rewrite (split_join l lines H).
  reflexivity.
Qed.

(** C1. On the example lines ["John Doe"], ["Contact:"],
    ["john@example.com"], ["555-123-4567"], ["Skills"], ["Python"], ["SQL"]
    the segmenter returns the ordered map HEADER -> ["John Doe"],
    CONTACT -> the two contact lines, SKILLS -> ["Python"; "SQL"]: the line
    ["Contact:"] matches the phrase "contact" with its colon, ["Skills"]
    matches "skills" bare, blank lines add nothing, and the keys come in
    the order of their first line. *)
Theorem segment_example :
  detect_lines example_lines = Some example_map
  /\ detect_sections (join NL example_lines) = Some example_map
  /\ find_header (strip (lit "Contact:")) = Some (lit "contact")
  /\ find_header (strip (lit "Skills")) = Some (lit "skills")
  /\ detect_lines example_lines_blanks = Some example_map
  /\ od_keys example_map = [HEADER; lit "CONTACT"; lit "SKILLS"].
Proof. repeat split; vm_compute; reflexivity. Qed.

(** C5. A line that matches a header phrase opens an empty content list
    under the phrase's label whatever the map held there; hence the content
    the final map holds under that label does not depend on the lines
    before the match (it is what the lines from the match on give by
    themselves), and when no header line follows the match it is exactly
    the non-blank lines after it: replacement, not merging. *)
Theorem reopened_section_replaced : forall pre h post header,
  find_header (strip h) = Some header ->
  (forall sections cur,
     exists sections',
       detect_step (sections, cur) h = Some (sections', upper header)
       /\ od_get (upper header) sections' = Some [])
  /\ (exists d d',
        detect_lines (pre ++ h :: post) = Some d
        /\ detect_lines (h :: post) = Some d'
        /\ od_get (upper header) d = od_get (upper header) d')
  /\ (forallb (fun raw => negb (is_header_line raw)) post = true ->
      exists d,
        detect_lines (pre ++ h :: post) = Some d
        /\ od_get (upper header) d = Some (nonblank_lines post)).
Proof.
  intros pre h post header F.
  assert (Step : forall sections cur,
            detect_step (sections, cur) h
            = Some (od_set (upper header) [] sections, upper header)).
  { intros sections cur.
    destruct (detect_step_cases sections cur h)
      as [[B _] | [(header' & _ & F' & E) | (_ & F' & _)]].
    - rewrite B, find_header_blank in F. discriminate.
    - congruence.
    - congruence. }
  destruct (detect_loop_inv pre seg_init seg_inv_init) as ([s1 c1] & E1 & I1).
  assert (Run : forall sections cur,
            seg_inv (sections, cur) ->
            exists r, foldM detect_step (h :: post) (sections, cur) = Some r
                      /\ seg_inv r).
  { intros sections cur I. apply detect_loop_inv, I. }
  destruct (Run s1 c1 I1) as (r & Er & Ir).
  destruct (Run (fst seg_init) (snd seg_init) seg_inv_init) as (r' & Er' & Ir').
  split; [|split].
  - intros sections cur. eexists. split; [apply Step|].
    apply od_get_set_same.
  - exists (fst r), (fst r'). unfold detect_lines.
    rewrite foldM_app, E1. cbn [obind]. rewrite Er.
    change seg_init with (fst seg_init, snd seg_init). rewrite Er'.
    cbn [obind]. repeat split.
    cbn [foldM] in Er, Er'. rewrite Step in Er, Er'. cbn [obind] in Er, Er'.
    eapply detect_loop_agree; [|exact Er|exact Er'].
    split; cbn [fst snd]; [reflexivity|].
    rewrite !od_get_set_same. reflexivity.
  - intros NH. unfold detect_lines.
    rewrite foldM_app, E1. cbn [obind foldM]. rewrite Step. cbn [obind].
    destruct (detect_loop_no_header post (od_set (upper header) [] s1)
                (upper header) [] NH (od_get_set_same _ _ _))
      as (s' & E & G & _).
    rewrite E. cbn [obind fst]. exists s'. split; [reflexivity | exact G].
Qed.

Lemma reopened_section_replaced_witness :
  find_header (strip (lit "Skills")) = Some (lit "skills")
  /\ exists d,
       detect_lines (map lit ["Skills"; "Python"; "Skills"; "SQL"]%string)
       = Some d
       /\ od_get (lit "SKILLS") d = Some [lit "SQL"].
Proof.
  split; [reflexivity|].
  destruct (reopened_section_replaced
              (map lit ["Skills"; "Python"]%string) (lit "Skills")
              [lit "SQL"] (lit "skills") eq_refl) as (_ & _ & H).
  apply H. reflexivity.
Defined.

(** A header that comes back empties its section. *)
Example reopened_section_run :
  detect_lines (map lit ["Skills"; "Python"; "Skills"; "SQL"]%string)
  = Some [(HEADER, []); (lit "SKILLS", [lit "SQL"])].
Proof. reflexivity. Qed.

(** C10. The segmenter returns a map on every input; [HEADER] is a key of
    it, and the first; when no line matches a phrase of the vocabulary,
    [HEADER] is the only key and its content is the non-blank lines
    (stripped), in order. *)
Theorem header_key_first : forall lines,
  exists d,
    detect_lines lines = Some d
    /\ hd_error (od_keys d) = Some HEADER
    /\ (exists content, od_get HEADER d = Some content)
    /\ (forallb (fun raw => negb (is_header_line raw)) lines = true ->
        d = [(HEADER, nonblank_lines lines)]).
Proof.
  intros lines.
  destruct (detect_loop_inv lines seg_init seg_inv_init)
    as ([s c] & E & (v & rest & Hd) & _).
  cbn [fst] in Hd. subst s.
  exists ((HEADER, v) :: rest). unfold detect_lines. rewrite E.
  repeat split.
  - exists v. reflexivity.
  - intros NH.
    destruct (detect_loop_no_header lines [(HEADER, [])] HEADER [] NH eq_refl)
      as (s' & E' & _ & One).
    assert (X : Some ((HEADER, v) :: rest, c) = Some (s', HEADER))
      by exact (eq_trans (eq_sym E) E').
    inversion X as [[Es Ec]]. rewrite Es. exact (One [] eq_refl).
Qed.

Lemma header_key_first_witness :
  detect_lines (map lit ["Jane Roe"; ""; "  jane@example.org "]%string)
  = Some [(HEADER, [lit "Jane Roe"; lit "jane@example.org"])].
Proof.
  destruct (header_key_first
              (map lit ["Jane Roe"; ""; "  jane@example.org "]%string))
    as (d & E & _ & _ & One).
  rewrite E. f_equal. apply One. reflexivity.
Defined.

(** ** The accuracy scorer *)

(** C9. The distance is symmetric in its arguments, and it is always
    returned. *)
Theorem levenshtein_distance_symmetric : forall a b,
  levenshtein_distance a b = levenshtein_distance b a
  /\ exists d, levenshtein_distance a b = Some d.
Proof.
  intros a b. rewrite !levenshtein_distance_correct, (lev_sym a b).
  split; [reflexivity | eauto].
Qed.

Lemma isspace_char_lower : forall c, isspace (char_lower c) = isspace c.
Proof. intros [[] [] [] [] [] [] [] []]; reflexivity. Qed.

Lemma dropwhile_all : forall (A : Type) (p : A -> bool) l,
  forallb p l = true -> dropwhile p l = [].
Proof.
  induction l as [|x l IH]; simpl; intros H; [reflexivity|].
  apply andb_true_iff in H as [Hx Hl]. rewrite Hx. apply IH, Hl.
Qed.

Lemma normalize_text_blank : forall text,
  forallb isspace text = true -> normalize_text text = [].
Proof.
  intros text H. unfold normalize_text, strip, lstrip, lower.
  rewrite dropwhile_all; [reflexivity|].
  induction text as [|c text IH]; simpl in *; [reflexivity|].
  apply andb_true_iff in H as [Hc Ht].
  rewrite isspace_char_lower, Hc. apply IH, Ht.
Qed.

Lemma is_empty_nil : forall s, is_empty s = true <-> s = [].
Proof. intros [|c s]; simpl; split; congruence. Qed.

(** C3. When an input normalizes to the empty string -- an empty or
    whitespace-only input does -- [calculate_accuracy] returns the score
    0.0 with the two normalized strings; so it does on ("", "anything") and
    on ("anything", ""). *)
Theorem calculate_accuracy_empty :
  (forall e g,
     normalize_text e = [] \/ normalize_text g = [] ->
     calculate_accuracy e g
     = Some [PFloat float_zero; PStr (normalize_text e); PStr (normalize_text g)])
  /\ (forall text, forallb isspace text = true -> normalize_text text = [])
  /\ calculate_accuracy [] (lit "anything")
     = Some [PFloat float_zero; PStr []; PStr (lit "anything")]
  /\ calculate_accuracy (lit "anything") []
     = Some [PFloat float_zero; PStr (lit "anything"); PStr []].
Proof.
  split; [|split; [exact normalize_text_blank
                  | split; vm_compute; reflexivity]].
  intros e g H. unfold calculate_accuracy.
  destruct H as [H|H]; rewrite H; simpl; [reflexivity|].
  rewrite orb_true_r. reflexivity.
Qed.

Lemma calculate_accuracy_empty_witness :
  calculate_accuracy (lit "   ") (lit "Some text.")
  = Some [PFloat float_zero; PStr []; PStr (lit "some text")].
Proof.
  destruct calculate_accuracy_empty as (H & B & _).
  apply (H (lit "   ") (lit "Some text.")).
  left. apply B. reflexivity.
Defined.

(** C4. The result has three components (score, the two normalized
    strings) when an input normalizes to the empty string, and five
    (score, the two normalized strings, distance, maximal length)
    otherwise; unpacking five components raises on the former. *)
Theorem calculate_accuracy_shape : forall e g,
  exists t,
    calculate_accuracy e g = Some t
    /\ if is_empty (normalize_text e) || is_empty (normalize_text g)
       then t = [PFloat float_zero; PStr (normalize_text e);
                 PStr (normalize_text g)]
            /\ length t = 3 /\ unpack5 t = None
       else exists score distance max_length,
            t = [PFloat score; PStr (normalize_text e);
                 PStr (normalize_text g); PInt distance; PInt max_length]
            /\ length t = 5
            /\ unpack5 t
               = Some (PFloat score, PStr (normalize_text e),
                       PStr (normalize_text g), PInt distance,
                       PInt max_length).
Proof.
  intros e g. unfold calculate_accuracy.
  destruct (is_empty (normalize_text e) || is_empty (normalize_text g)).
  - eexists. split; [reflexivity|]. repeat split.
  - rewrite levenshtein_distance_correct. cbn [obind].
    eexists. split; [reflexivity|]. do 3 eexists. repeat split.
Qed.

(** *** Binary64 arithmetic: the score lies between 0.0 and 100.0

    A rounding step never crosses a float: a value that is at most
    [K * 2^eK], for [K] below [2^53], rounds to a float that is at most
    [K * 2^eK].  The lemmas follow the steps of [SpecFloat]: the shifts,
    the rounding of the shifted mantissa, then the operations. *)

Local Open Scope Z_scope.

Lemma iter_pos_nat : forall (A : Type) (f : A -> A) p x,
  iter_pos f p x = Nat.iter (Pos.to_nat p) f x.
Proof.
  intros A f p. induction p as [p IH|p IH|]; intros x; cbn [iter_pos].
  - rewrite !IH, Pos2Nat.inj_xI, <- Nat.iter_succ_r, <- Nat.iter_add.
    f_equal. lia.
  - rewrite !IH, Pos2Nat.inj_xO, <- Nat.iter_add. f_equal. lia.
  - reflexivity.
Qed.

Lemma shr_1_m : forall mrs, 0 <= shr_m mrs -> shr_m (shr_1 mrs) = shr_m mrs / 2.
Proof.
  intros [m r s] H. cbn [shr_m] in H.
  destruct m as [|[p|p|]|p]; cbn [shr_1 shr_m]; try lia; try reflexivity.
  - change (Zpos p~1) with (2 * Zpos p + 1).
    apply (Z.div_unique _ _ _ 1); lia.
  - change (Zpos p~0) with (2 * Zpos p).
    apply (Z.div_unique _ _ _ 0); lia.
Qed.

Lemma shr_1_flags : forall mrs,
  0 <= shr_m mrs -> shr_r mrs = false -> shr_s mrs = false ->
  shr_m mrs mod 2 = 0 ->
  shr_r (shr_1 mrs) = false /\ shr_s (shr_1 mrs) = false.
Proof.
  intros [m r s] H Hr Hs E. cbn [shr_m shr_r shr_s] in *. subst r s.
  destruct m as [|[p|p|]|p]; cbn [shr_1 shr_r shr_s orb]; try lia; auto.
  - exfalso. change (Zpos p~1) with (2 * Zpos p + 1) in E.
    rewrite Z.add_comm, Z.mul_comm, Z.mod_add in E by lia. discriminate.
  - discriminate.
Qed.

(** [k] shifts: the mantissa is divided by [2^k]; the flags stay clear
    while only zero bits are shifted out of an exact value. *)
Lemma shr_iter : forall k mrs,
  0 <= shr_m mrs ->
  shr_m (Nat.iter k shr_1 mrs) = shr_m mrs / 2 ^ Z.of_nat k
  /\ (shr_r mrs = false -> shr_s mrs = false ->
      shr_m mrs mod 2 ^ Z.of_nat k = 0 ->
      shr_r (Nat.iter k shr_1 mrs) = false
      /\ shr_s (Nat.iter k shr_1 mrs) = false).
Proof.
  induction k as [|k IH]; intros mrs H.
  - simpl. rewrite Z.div_1_r. auto.
  - destruct (IH mrs H) as [Em Ef].
    assert (P : 0 < 2 ^ Z.of_nat k) by (apply Z.pow_pos_nonneg; lia).
    assert (N : 0 <= shr_m (Nat.iter k shr_1 mrs)).
    { rewrite Em. apply Z.div_pos; lia. }
    rewrite Nat.iter_succ, Nat2Z.inj_succ, Z.pow_succ_r by lia. split.
    + rewrite shr_1_m, Em by exact N.
      rewrite Z.div_div by lia. f_equal. lia.
    + intros Hr Hs D.
      assert (D' : shr_m mrs mod 2 ^ Z.of_nat k = 0).
      { apply Z.mod_divide in D; [|lia]. apply Z.mod_divide; [lia|].
        destruct D as [c D]. exists (c * 2). lia. }
      destruct (Ef Hr Hs D') as [Fr Fs].
      apply shr_1_flags; auto.
      rewrite Em. apply Z.mod_divide in D; [|lia]. destruct D as [c D].
      rewrite D. replace (c * (2 * 2 ^ Z.of_nat k))
        with (c * 2 * 2 ^ Z.of_nat k) by ring.
      rewrite Z.div_mul by lia. apply Z.mod_mul. lia.
Qed.

Lemma digits2_pos_size : forall p, digits2_pos p = Pos.size p.
Proof. induction p; simpl; congruence. Qed.

Lemma digits2_pos_bounds : forall p,
  2 ^ (Zpos (digits2_pos p) - 1) <= Zpos p < 2 ^ Zpos (digits2_pos p).
Proof.
  intros p. rewrite digits2_pos_size.
  pose proof (Pos.size_gt p) as G. pose proof (Pos.size_le p) as L.
  apply Pos2Z.pos_lt_pos in G. apply Pos2Z.pos_le_pos in L.
  rewrite Pos2Z.inj_pow in G, L. change (Zpos p~0) with (2 * Zpos p) in L.
  split; [|exact G].
  assert (E : 2 ^ Zpos (Pos.size p) = 2 * 2 ^ (Zpos (Pos.size p) - 1)).
  { rewrite <- Z.pow_succ_r by lia. f_equal. lia. }
  lia.
Qed.

(** A mantissa below [2^t] has [t] digits at most. *)
Lemma Zdigits2_le : forall m t,
  0 <= m -> 0 <= t -> m < 2 ^ t -> Zdigits2 m <= t.
Proof.
  intros [|p|p] t H T L; simpl; try lia.
  destruct (digits2_pos_bounds p) as [B _].
  assert (X : 2 ^ (Zpos (digits2_pos p) - 1) < 2 ^ t) by lia.
  apply Z.pow_lt_mono_r_iff in X; lia.
Qed.

Lemma loc_of_shr_record_of_loc : forall m l,
  loc_of_shr_record (shr_record_of_loc m l) = l.
Proof. intros m [|[| |]]; reflexivity. Qed.

Lemma loc_exact_flags : forall mrs,
  shr_r mrs = false -> shr_s mrs = false -> loc_of_shr_record mrs = loc_Exact.
Proof. intros [m r s] Hr Hs. simpl in *. subst. reflexivity. Qed.

Lemma round_nearest_even_range : forall m l,
  m <= round_nearest_even m l <= m + 1
  /\ (l = loc_Exact -> round_nearest_even m l = m).
Proof.
  intros m l. split.
  - destruct l as [|[| |]]; simpl; try lia. destruct (Z.even m); lia.
  - intros ->. reflexivity.
Qed.

(** A value [K * 2^eK] with a short [K] that bounds the input of a
    rounding step bounds its result. *)
Section Below.

Variables K eK : Z.
Hypothesis K_range : 0 < K < 2 ^ prec.
Hypothesis eK_range : emin prec emax <= eK <= emax - prec.

Lemma fexp_below : forall m e,
  0 <= m -> e <= eK -> m <= K * 2 ^ (eK - e) ->
  fexp prec emax (Zdigits2 m + e) <= eK.
Proof.
  intros m e M E B. unfold fexp. apply Z.max_lub; [|lia].
  assert (P : 0 < 2 ^ (eK - e)) by (apply Z.pow_pos_nonneg; lia).
  assert (L : m < 2 ^ (prec + (eK - e))).
  { rewrite Z.pow_add_r by (unfold prec; lia). nia. }
  pose proof (Zdigits2_le m (prec + (eK - e)) M ltac:(unfold prec; lia) L).
  lia.
Qed.

Lemma shr_fexp_below : forall m e l,
  0 <= m -> e <= eK -> m <= K * 2 ^ (eK - e) ->
  (l <> loc_Exact -> m + 1 <= K * 2 ^ (eK - e)) ->
  forall mrs' e', shr_fexp prec emax m e l = (mrs', e') ->
  e' <= eK /\ 0 <= shr_m mrs'
  /\ round_nearest_even (shr_m mrs') (loc_of_shr_record mrs')
     <= K * 2 ^ (eK - e').
Proof.
  intros m e l M E B BI mrs' e' S. unfold shr_fexp, shr in S.
  pose proof (fexp_below m e M E B) as F.
  destruct (fexp prec emax (Zdigits2 m + e) - e) as [|p|p] eqn:N.
  - inversion S; subst. clear S.
    assert (X : shr_m (shr_record_of_loc m l) = m)
      by (destruct l as [|[| |]]; reflexivity).
    rewrite X, loc_of_shr_record_of_loc.
    destruct (round_nearest_even_range m l) as [[_ U] Ex].
    split; [exact E|]. split; [exact M|].
    destruct l as [|c]; [rewrite Ex by reflexivity; exact B|].
    assert (m + 1 <= K * 2 ^ (eK - e')) by (apply BI; discriminate). lia.
  - inversion S; subst. clear S.
    set (mrs := shr_record_of_loc m l).
    assert (X : shr_m mrs = m) by (destruct l as [|[| |]]; reflexivity).
    rewrite iter_pos_nat.
    destruct (shr_iter (Pos.to_nat p) mrs ltac:(rewrite X; exact M))
      as [Em Ef].
    rewrite positive_nat_Z, X in Em, Ef.
    set (M' := shr_m (Nat.iter (Pos.to_nat p) shr_1 mrs)) in *.
    set (l' := loc_of_shr_record (Nat.iter (Pos.to_nat p) shr_1 mrs)) in *.
    assert (E' : e + Zpos p <= eK) by lia.
    assert (P2 : 0 < 2 ^ Zpos p) by (apply Z.pow_pos_nonneg; lia).
    assert (PK : 0 < 2 ^ (eK - (e + Zpos p)))
      by (apply Z.pow_pos_nonneg; lia).
    assert (KB : K * 2 ^ (eK - e)
                 = K * 2 ^ (eK - (e + Zpos p)) * 2 ^ Zpos p).
    { rewrite <- Z.mul_assoc, <- Z.pow_add_r by lia. do 2 f_equal. lia. }
    set (K' := K * 2 ^ (eK - (e + Zpos p))) in *.
    assert (M0 : 0 <= M') by (rewrite Em; apply Z.div_pos; lia).
    assert (ML : M' * 2 ^ Zpos p <= m).
    { rewrite Em, Z.mul_comm. apply Z.mul_div_le. lia. }
    split; [exact E'|]. split; [exact M0|].
    destruct (round_nearest_even_range M' l') as [[_ U] Ex].
    assert (C : M' < K' \/ (M' = K' /\ l' = loc_Exact)).
    { destruct (Z_lt_le_dec M' K') as [Lt|Ge]; [left; exact Lt | right].
      assert (KM : K' * 2 ^ Zpos p <= m) by nia.
      destruct l as [|c] eqn:El.
      - assert (Me : m = K' * 2 ^ Zpos p) by lia.
        assert (D : m mod 2 ^ Zpos p = 0)
          by (rewrite Me; apply Z.mod_mul; lia).
        destruct (Ef eq_refl eq_refl D) as [Fr Fs].
        split; [|apply loc_exact_flags; assumption].
        assert (M' = K'); [|assumption].
        rewrite Em, Me. apply Z.div_mul. lia.
      - exfalso. assert (m + 1 <= K * 2 ^ (eK - e))
          by (apply BI; discriminate). lia. }
    destruct C as [Lt|[Eq Le]]; [lia|].
    rewrite (Ex Le). lia.
  - inversion S; subst. clear S.
    assert (X : shr_m (shr_record_of_loc m l) = m)
      by (destruct l as [|[| |]]; reflexivity).
    rewrite X, loc_of_shr_record_of_loc.
    destruct (round_nearest_even_range m l) as [[_ U] Ex].
    split; [exact E|]. split; [exact M|].
    destruct l as [|c]; [rewrite Ex by reflexivity; exact B|].
    assert (m + 1 <= K * 2 ^ (eK - e')) by (apply BI; discriminate). lia.
Qed.

Lemma binary_round_aux_below : forall mx ex lx,
  0 <= mx -> ex <= eK -> mx <= K * 2 ^ (eK - ex) ->
  (lx <> loc_Exact -> mx + 1 <= K * 2 ^ (eK - ex)) ->
  below K eK (binary_round_aux prec emax false mx ex lx).
Proof.
  intros mx ex lx M E B BI. unfold binary_round_aux.
  destruct (shr_fexp prec emax mx ex lx) as [mrs' e'] eqn:S1.
  destruct (shr_fexp_below mx ex lx M E B BI mrs' e' S1) as (E1 & M1 & R1).
  set (R := round_nearest_even (shr_m mrs') (loc_of_shr_record mrs')) in *.
  assert (R0 : 0 <= R).
  { destruct (round_nearest_even_range (shr_m mrs')
                (loc_of_shr_record mrs')) as [[L _] _]. unfold R. lia. }
  destruct (shr_fexp prec emax R e' loc_Exact) as [mrs'' e''] eqn:S2.
  destruct (shr_fexp_below R e' loc_Exact R0 E1 R1
              ltac:(intros X; congruence) mrs'' e'' S2) as (E2 & M2 & R2).
  destruct (round_nearest_even_range (shr_m mrs'')
              (loc_of_shr_record mrs'')) as [[L2 _] _].
  destruct (shr_m mrs'') as [|m|m] eqn:Em; cbv beta iota.
  - exact I.
  - assert (Le : (e'' <=? emax - prec) = true) by (apply Z.leb_le; lia).
    rewrite Le. split; [exact E2 | lia].
  - lia.
Qed.

End Below.

Lemma new_location_zero : forall n, new_location n 0 = loc_Exact.
Proof.
  intros n. unfold new_location, new_location_even, new_location_odd.
  destruct (Z.even n); reflexivity.
Qed.

Lemma one_range : 0 < 1 < 2 ^ prec.
Proof. split; reflexivity. Qed.

Lemma zero_exp_range : emin prec emax <= 0 <= emax - prec.
Proof. split; discriminate. Qed.

(** The quotient of two integers [0 <= d <= m] is at most 1. *)
Lemma int_truediv_below : forall d m,
  0 <= d <= m -> 0 < m -> below 1 0 (int_truediv d m).
Proof.
  intros d m [D0 DM] M. unfold int_truediv.
  destruct m as [|pm|pm]; try lia.
  destruct d as [|pd|pd]; try lia; [exact I|].
  cbn [Z2SF SFdiv xorb]. unfold SFdiv_core_binary.
  set (e' := Z.min (fexp prec emax (Zdigits2 (Zpos pd) + 0
                                    - (Zdigits2 (Zpos pm) + 0))) (0 - 0)).
  assert (E : e' <= 0) by (unfold e'; lia).
  assert (S : 0 - 0 - e' = - e') by lia. rewrite S.
  set (m' := match - e' with
             | 0 => Zpos pd
             | Zpos _ => Z.shiftl (Zpos pd) (- e')
             | Zneg _ => 0
             end).
  assert (Em : m' = Zpos pd * 2 ^ (- e')).
  { unfold m'. destruct (- e') as [|p|p] eqn:N; try lia.
    apply Z.shiftl_mul_pow2. lia. }
  pose proof (Z_div_mod m' (Zpos pm) ltac:(lia)) as DM'.
  destruct (Z.div_eucl m' (Zpos pm)) as [q r]. destruct DM' as [Eq Rr].
  assert (P : 0 < 2 ^ (- e')) by (apply Z.pow_pos_nonneg; lia).
  assert (Q0 : 0 <= q) by nia.
  apply (binary_round_aux_below 1 0 one_range zero_exp_range).
  - exact Q0.
  - exact E.
  - rewrite Z.mul_1_l, Z.sub_0_l. nia.
  - intros N. rewrite Z.mul_1_l, Z.sub_0_l.
    assert (R : r <> 0) by (intros ->; apply N, new_location_zero).
    nia.
Qed.

Lemma pos_iter_xO : forall m d, Zpos (Pos.iter xO m d) = Zpos m * 2 ^ Zpos d.
Proof.
  intros m d. induction d as [|d IH] using Pos.peano_ind.
  - change (Zpos (Pos.iter xO m 1)) with (2 * Zpos m). lia.
  - rewrite Pos.iter_succ, Pos2Z.inj_succ, Z.pow_succ_r by lia.
    change (Zpos (Pos.iter xO m d)~0) with (2 * Zpos (Pos.iter xO m d)).
    rewrite IH. ring.
Qed.

Lemma shl_align_spec : forall mx ex ex' mz ez,
  shl_align mx ex ex' = (mz, ez) ->
  ez <= ex /\ Zpos mz = Zpos mx * 2 ^ (ex - ez)
  /\ (ex' <= ex -> ez = ex').
Proof.
  intros mx ex ex' mz ez H. unfold shl_align in H.
  destruct (ex' - ex) as [|p|p] eqn:N; inversion H; subst; clear H.
  - rewrite Z.sub_diag. simpl. split; [lia|]. split; lia.
  - rewrite Z.sub_diag. simpl. split; [lia|]. split; lia.
  - split; [lia|]. split; [|reflexivity].
    rewrite pos_iter_xO. do 2 f_equal. lia.
Qed.

Section BelowRound.

Variables K eK : Z.
Hypothesis K_range : 0 < K < 2 ^ prec.
Hypothesis eK_range : emin prec emax <= eK <= emax - prec.

Lemma binary_round_below : forall m e,
  e <= eK -> Zpos m <= K * 2 ^ (eK - e) ->
  below K eK (binary_round prec emax false m e).
Proof.
  intros m e E B. unfold binary_round.
  destruct (shl_align m e (fexp prec emax (Zpos (digits2_pos m) + e)))
    as [mz ez] eqn:S.
  destruct (shl_align_spec _ _ _ _ _ S) as (Ez & Mz & _).
  apply (binary_round_aux_below K eK K_range eK_range).
  - lia.
  - lia.
  - rewrite Mz.
    replace (eK - ez) with ((eK - e) + (e - ez)) by lia.
    rewrite Z.pow_add_r by lia.
    assert (0 < 2 ^ (e - ez)) by (apply Z.pow_pos_nonneg; lia). nia.
  - intros N. congruence.
Qed.

End BelowRound.

Lemma float_one_eq : float_one = S754_finite false 4503599627370496 (-52).
Proof. reflexivity. Qed.

Lemma float_hundred_eq :
  float_hundred = S754_finite false 7036874417766400 (-46).
Proof. reflexivity. Qed.

(** [1 - q] stays between 0 and 1 when [q] does. *)
Lemma sub_one_below : forall q,
  below 1 0 q -> below 1 0 (SFsub prec emax float_one q).
Proof.
  intros q H. rewrite float_one_eq.
  destruct q as [[|]|[|]| |[|] mq eq]; try contradiction.
  - split; [lia | reflexivity].
  - destruct H as [E B]. rewrite Z.mul_1_l, Z.sub_0_l in B.
    cbn [SFsub cond_Zopp].
    set (ez := Z.min (-52) eq).
    destruct (shl_align 4503599627370496 (-52) ez) as [ma ea] eqn:Sa.
    destruct (shl_align mq eq ez) as [mb eb] eqn:Sb.
    destruct (shl_align_spec _ _ _ _ _ Sa) as (_ & Ma & Ea).
    destruct (shl_align_spec _ _ _ _ _ Sb) as (_ & Mb & Eb).
    rewrite (Ea ltac:(unfold ez; lia)) in Ma.
    rewrite (Eb ltac:(unfold ez; lia)) in Mb.
    cbn [fst].
    assert (Z52 : ez <= -52) by (unfold ez; lia).
    assert (Zq : ez <= eq) by (unfold ez; lia).
    assert (A : Zpos ma = 2 ^ (- ez)).
    { rewrite Ma. change 4503599627370496 with (2 ^ 52).
      rewrite <- Z.pow_add_r by lia. f_equal. lia. }
    assert (Bq : Zpos mb <= 2 ^ (- ez)).
    { rewrite Mb. replace (- ez) with (- eq + (eq - ez)) by lia.
      rewrite Z.pow_add_r by lia.
      assert (0 < 2 ^ (eq - ez)) by (apply Z.pow_pos_nonneg; lia). nia. }
    unfold binary_normalize.
    destruct (Zpos ma - Zpos mb) as [|pD|pD] eqn:D; try lia.
    + exact I.
    + apply (binary_round_below 1 0 one_range zero_exp_range).
      * lia.
      * rewrite Z.mul_1_l, Z.sub_0_l. lia.
Qed.

Lemma hundred_range : 0 < 25 < 2 ^ prec.
Proof. split; reflexivity. Qed.

Lemma two_exp_range : emin prec emax <= 2 <= emax - prec.
Proof. split; discriminate. Qed.

(** A hundred times a value between 0 and 1 is between 0 and 100. *)
Lemma mul_hundred_below : forall s,
  below 1 0 s -> below 25 2 (SFmul prec emax s float_hundred).
Proof.
  intros s H. rewrite float_hundred_eq.
  destruct s as [[|]|[|]| |[|] ms es]; try contradiction.
  - exact I.
  - destruct H as [E B]. rewrite Z.mul_1_l, Z.sub_0_l in B.
    cbn [SFmul xorb].
    apply (binary_round_aux_below 25 2 hundred_range two_exp_range).
    + lia.
    + lia.
    + rewrite Pos2Z.inj_mul.
      replace (2 - (es + -46)) with (48 + - es) by lia.
      rewrite Z.pow_add_r by lia.
      change (2 ^ 48) with 281474976710656. lia.
    + intros N. congruence.
Qed.

Lemma round_half_even_bounds : forall (x : Q) (a b : Z),
  (inject_Z a <= x)%Q -> (x <= inject_Z b)%Q ->
  (a <= round_half_even x <= b)%Z.
Proof.
  intros [n d] a b Ha Hb. unfold Qle in Ha, Hb. simpl in Ha, Hb.
  unfold round_half_even. cbn [Qnum Qden].
  pose proof (Z.div_mod n (Zpos d) ltac:(lia)) as DM.
  pose proof (Z.mod_pos_bound n (Zpos d) ltac:(lia)) as MB.
  set (f := (n / Zpos d)%Z) in *. set (r := (n mod Zpos d)%Z) in *.
  assert (Hf1 : (a <= f)%Z) by nia.
  assert (Hf2 : (f <= b)%Z) by nia.
  assert (Hf3 : (0 < r -> f < b)%Z) by nia.
  destruct (Z.compare_spec (2 * r) (Zpos d)); [destruct (Z.even f)| |]; lia.
Qed.

Lemma SF2Q_below : forall m e,
  e <= 2 -> Zpos m <= 25 * 2 ^ (2 - e) ->
  (inject_Z 0 <= SF2Q (S754_finite false m e) * 100)%Q
  /\ (SF2Q (S754_finite false m e) * 100 <= inject_Z 10000)%Q.
Proof.
  intros m e E B. unfold SF2Q.
  destruct e as [|p|n].
  - unfold Qle. simpl in *. lia.
  - assert (P : 2 ^ (2 - Zpos p) * 2 ^ Zpos p = 4).
    { rewrite <- Z.pow_add_r by lia. replace (2 - Zpos p + Zpos p) with 2 by lia.
      reflexivity. }
    assert (0 < 2 ^ Zpos p) by (apply Z.pow_pos_nonneg; lia).
    unfold Qle, Qmult, inject_Z. cbn [Qnum Qden]. split; nia.
  - replace (2 - Zneg n) with (2 + Zpos n) in B by lia.
    rewrite Z.pow_add_r in B by lia.
    unfold Qle, Qmult, inject_Z. cbn [Qnum Qden].
    rewrite Pos2Z.inj_mul, Pos2Z.inj_pow. split; lia.
Qed.

Lemma K100_range : 0 < 25 * 2 ^ 48 < 2 ^ prec.
Proof. split; reflexivity. Qed.

Lemma e100_range : emin prec emax <= -46 <= emax - prec.
Proof. split; discriminate. Qed.

(** The float nearest to [k / 100] is at most 100.0 for [k] up to
    10000. *)
Lemma int_truediv_hundredths : forall k,
  0 < k <= 10000 -> below (25 * 2 ^ 48) (-46) (int_truediv k 100).
Proof.
  intros k [K0 K1]. unfold int_truediv.
  destruct k as [|pk|pk]; try lia.
  cbn [Z2SF SFdiv xorb]. unfold SFdiv_core_binary.
  set (e' := Z.min (fexp prec emax (Zdigits2 (Zpos pk) + 0
                                    - (Zdigits2 100 + 0))) (0 - 0)).
  assert (E : e' <= -46).
  { pose proof (Zdigits2_le (Zpos pk) 14 ltac:(lia) ltac:(lia)
                  ltac:(change (2 ^ 14) with 16384; lia)) as G.
    unfold e'. change (Zdigits2 100) with 7.
    unfold fexp, emin, prec, emax. lia. }
  assert (S : 0 - 0 - e' = - e') by lia. rewrite S.
  set (m' := match - e' with
             | 0 => Zpos pk
             | Zpos _ => Z.shiftl (Zpos pk) (- e')
             | Zneg _ => 0
             end).
  assert (Em : m' = Zpos pk * 2 ^ (- e')).
  { unfold m'. destruct (- e') as [|p|p] eqn:N; try lia.
    apply Z.shiftl_mul_pow2. lia. }
  pose proof (Z_div_mod m' 100 ltac:(lia)) as DM'.
  destruct (Z.div_eucl m' 100) as [q r]. destruct DM' as [Eq Rr].
  assert (P : 0 < 2 ^ (-46 - e')) by (apply Z.pow_pos_nonneg; lia).
  assert (X : 2 ^ (- e') = 2 ^ 46 * 2 ^ (-46 - e')).
  { rewrite <- Z.pow_add_r by lia. f_equal. lia. }
  rewrite Em, X in Eq.
  change (2 ^ 46) with 70368744177664 in Eq.
  change (2 ^ 48) with 281474976710656.
  apply (binary_round_aux_below _ (-46) K100_range e100_range).
  - nia.
  - exact E.
  - change (2 ^ 48) with 281474976710656. nia.
  - intros N. change (2 ^ 48) with 281474976710656.
    assert (R : r <> 0) by (intros ->; apply N, new_location_zero).
    nia.
Qed.

(** Such a float compares as [0.0 <= x <= 100.0]. *)
Lemma below_hundred_in_percent : forall x,
  below (25 * 2 ^ 48) (-46) x -> in_percent x = true.
Proof.
  intros x H. destruct x as [[|]|[|]| |[|] m e]; try contradiction.
  - reflexivity.
  - destruct H as [E B]. unfold in_percent. rewrite float_hundred_eq.
    cbn [float_zero SFleb SFcompare andb].
    destruct (Z.compare_spec e (-46)) as [->|Lt|Gt]; [|reflexivity|lia].
    change (25 * 2 ^ 48 * 2 ^ (-46 - -46)) with 7036874417766400 in B.
    rewrite Pos.compare_cont_spec. cbn [Pos.switch_Eq].
    destruct (Pos.compare_spec m 7036874417766400); try reflexivity. lia.
Qed.

(** Its exact value lies between 0 and 100. *)
Lemma below_hundred_value : forall x,
  below (25 * 2 ^ 48) (-46) x ->
  (0 <= SF2Q x)%Q /\ (SF2Q x <= 100)%Q.
Proof.
  intros x H. destruct x as [[|]|[|]| |[|] m e]; try contradiction.
  - split; discriminate.
  - destruct H as [E B]. unfold SF2Q.
    destruct e as [|p|n]; try lia.
    assert (P : 0 < 2 ^ (-46 - Zneg n)) by (apply Z.pow_pos_nonneg; lia).
    assert (X : 2 ^ Zpos n = 2 ^ 46 * 2 ^ (-46 - Zneg n)).
    { rewrite <- Z.pow_add_r by lia. f_equal. lia. }
    unfold Qle. cbn [Qnum Qden].
    rewrite Pos2Z.inj_pow, X.
    change (2 ^ 46) with 70368744177664.
    change (2 ^ 48) with 281474976710656 in B. split; nia.
Qed.

(** Rounding to two decimals keeps a value between 0 and 100 there. *)
Lemma round2_below : forall x,
  below 25 2 x -> below (25 * 2 ^ 48) (-46) (round2 x).
Proof.
  intros x H. destruct x as [[|]|[|]| |[|] m e]; try contradiction.
  - exact I.
  - destruct H as [E B]. destruct (SF2Q_below m e E B) as [L U].
    pose proof (round_half_even_bounds _ 0 10000 L U) as R.
    unfold round2.
    destruct (round_half_even (SF2Q (S754_finite false m e) * 100))
      as [|k|k] eqn:Ek.
    + exact I.
    + apply int_truediv_hundredths. lia.
    + lia.
Qed.

Lemma round2_in_percent : forall x,
  below 25 2 x -> in_percent (round2 x) = true.
Proof.
  intros x H. apply below_hundred_in_percent, round2_below, H.
Qed.

(** The nearest integer is within one half. *)
Lemma round_half_even_half : forall x : Q,
  (inject_Z (round_half_even x) - (1 # 2) <= x)%Q
  /\ (x <= inject_Z (round_half_even x) + (1 # 2))%Q.
Proof.
  intros [n d]. unfold round_half_even. cbn [Qnum Qden].
  pose proof (Z.div_mod n (Zpos d) ltac:(lia)) as DM.
  pose proof (Z.mod_pos_bound n (Zpos d) ltac:(lia)) as MB.
  set (f := n / Zpos d) in *. set (r := n mod Zpos d) in *.
  assert (G : forall k,
             (k = f /\ 2 * r <= Zpos d) \/ (k = f + 1 /\ Zpos d <= 2 * r) ->
             (inject_Z k - (1 # 2) <= n # d)%Q
             /\ (n # d <= inject_Z k + (1 # 2))%Q).
  { intros k H. unfold Qle, Qminus, Qplus, Qopp, inject_Z.
    cbn [Qnum Qden]. rewrite !Pos2Z.inj_mul.
    destruct H as [[-> H]|[-> H]]; split; nia. }
  apply G.
  destruct (Z.compare_spec (2 * r) (Zpos d)); [destruct (Z.even f)| |]; lia.
Qed.

(** Rounding a value between 0 and 100 to two decimals gives the float
    nearest to [k / 100] for the integer [k] nearest to a hundred times
    the value. *)
Lemma round2_hundredths : forall x,
  below 25 2 x ->
  exists k, 0 <= k <= 10000 /\ round2 x = hundredths k
            /\ k = round_half_even (SF2Q x * 100).
Proof.
  intros x H. destruct x as [[|]|[|]| |[|] m e]; try contradiction.
  - exists 0. split; [lia|]. split; reflexivity.
  - destruct H as [E B]. destruct (SF2Q_below m e E B) as [L U].
    pose proof (round_half_even_bounds _ 0 10000 L U) as R.
    exists (round_half_even (SF2Q (S754_finite false m e) * 100)).
    split; [exact R|]. split; [|reflexivity].
    unfold round2, hundredths.
    destruct (round_half_even (SF2Q (S754_finite false m e) * 100));
      reflexivity.
Qed.

Lemma percentage_below : forall d m : nat,
  (d <= m)%nat -> (0 < m)%nat -> below 25 2 (percentage d m).
Proof.
  intros d m D M. unfold percentage.
  apply mul_hundred_below, sub_one_below, int_truediv_below; lia.
Qed.

(** The distance 0 scores exactly 100.0. *)
Lemma percentage_zero : forall m : nat,
  (0 < m)%nat -> round2 (percentage 0 m) = float_hundred.
Proof.
  intros [|m] M; [lia|]. unfold percentage, int_truediv.
  cbn [Z.of_nat Z2SF SFdiv xorb]. vm_compute. reflexivity.
Qed.

Local Close Scope Z_scope.

(** C6. When both normalized strings are non-empty, the score is
    [round((1 - d/m) * 100, 2)], computed in floats, for [d] the
    Levenshtein distance of the two normalized strings (the least cost of
    an edit script from one to the other) and [m] the larger of their
    lengths; [d] is at most [m], and the score lies between 0.0 and 100.0,
    as floats compare and in exact value: it is the float nearest to
    [k / 100] for an integer [k] from 0 to 10000 within one half of a
    hundred times [(1 - d/m) * 100]. *)
Theorem calculate_accuracy_score : forall e g,
  normalize_text e <> [] -> normalize_text g <> [] ->
  exists d m score,
    d = lev (normalize_text e) (normalize_text g)
    /\ edits (normalize_text e) (normalize_text g) d
    /\ (forall n, edits (normalize_text e) (normalize_text g) n -> d <= n)
    /\ m = Nat.max (length (normalize_text e)) (length (normalize_text g))
    /\ score = round2 (percentage d m)
    /\ calculate_accuracy e g
       = Some [PFloat score; PStr (normalize_text e);
               PStr (normalize_text g); PInt d; PInt m]
    /\ d <= m
    /\ SFleb float_zero score = true /\ SFleb score float_hundred = true
    /\ (0 <= SF2Q score)%Q /\ (SF2Q score <= 100)%Q
    /\ exists k,
         (0 <= k <= 10000)%Z /\ score = hundredths k
         /\ (inject_Z k - (1 # 2) <= SF2Q (percentage d m) * 100)%Q
         /\ (SF2Q (percentage d m) * 100 <= inject_Z k + (1 # 2))%Q.
Proof.
  intros e g He Hg.
  set (en := normalize_text e) in *. set (gn := normalize_text g) in *.
  assert (Hm : 0 < Nat.max (length en) (length gn)).
  { destruct en; [congruence|]. cbn [length]. lia. }
  pose proof (lev_le_max en gn) as Hd.
  pose proof (percentage_below _ _ Hd Hm) as Hb.
  exists (lev en gn), (Nat.max (length en) (length gn)).
  eexists. split; [reflexivity|].
  split; [apply lev_edits|]. split; [apply lev_minimal|].
  split; [reflexivity|]. split; [reflexivity|].
  split; [|split; [exact Hd|]].
  - unfold calculate_accuracy. fold en gn.
    destruct en; [congruence|]. destruct gn; [congruence|].
    cbn [is_empty orb]. rewrite levenshtein_distance_correct. cbn [obind].
    apply Nat.ltb_lt in Hm. rewrite Hm. reflexivity.
  - pose proof (round2_in_percent _ Hb) as P.
    apply andb_true_iff in P as [P0 P1].
    split; [exact P0|]. split; [exact P1|].
    destruct (below_hundred_value _ (round2_below _ Hb)) as [V0 V1].
    split; [exact V0|]. split; [exact V1|].
    destruct (round2_hundredths _ Hb) as (k & Kr & Ek & Er).
    exists k. split; [exact Kr|]. split; [exact Ek|].
    rewrite Er. apply round_half_even_half.
Qed.

Lemma calculate_accuracy_score_witness :
  exists score,
    calculate_accuracy (lit "Cat!") (lit "cut")
    = Some [PFloat score; PStr (lit "cat"); PStr (lit "cut");
            PInt 1; PInt 3]
    /\ score = int_truediv 6667 100
    /\ SFleb float_zero score = true /\ SFleb score float_hundred = true.
Proof.
  destruct (calculate_accuracy_score (lit "Cat!") (lit "cut"))
    as (d & m & score & Ed & _ & _ & Em & Es & E & _ & B0 & B1 & _).
  - vm_compute. discriminate.
  - vm_compute. discriminate.
  - exists score. split; [|split; [|split; [exact B0 | exact B1]]].
    + rewrite E, Ed, Em. vm_compute. reflexivity.
    + rewrite Es, Ed, Em. vm_compute. reflexivity.
Defined.

(** The scores of the specification's examples. *)
Example score_identical :
  calculate_accuracy (lit "hello world") (lit "hello world")
  = Some [PFloat float_hundred; PStr (lit "hello world");
          PStr (lit "hello world"); PInt 0; PInt 11].
Proof. vm_compute. reflexivity. Qed.

Example score_case_punctuation :
  calculate_accuracy (lit "Hello, World.") (lit "hello world")
  = Some [PFloat float_hundred; PStr (lit "hello world");
          PStr (lit "hello world"); PInt 0; PInt 11].
Proof. vm_compute. reflexivity. Qed.

(** Where the floats decide the last digit: [(1 - 153/160) * 100] is
    4.375 exactly, the float is 4.3749999999999956 and the score 4.37;
    [(1 - 151/160) * 100] is 5.625 exactly, the float is
    5.6250000000000018 and the score 5.63. *)
Example score_float_below_tie :
  calculate_accuracy (repeat "a"%char 160) (repeat "a"%char 7)
  = Some [PFloat (int_truediv 437 100); PStr (repeat "a"%char 160);
          PStr (repeat "a"%char 7); PInt 153; PInt 160]
  /\ percentage 153 160 = S754_finite false 4925812092436475 (-50)
  /\ int_truediv 437 100 = S754_finite false 4920182592902267 (-50).
Proof. repeat split; vm_compute; reflexivity. Qed.

Example score_float_above_tie :
  calculate_accuracy (repeat "a"%char 160) (repeat "a"%char 9)
  = Some [PFloat (int_truediv 563 100); PStr (repeat "a"%char 160);
          PStr (repeat "a"%char 9); PInt 151; PInt 160]
  /\ int_truediv 563 100 = S754_finite false 6338816475523973 (-50).
Proof. repeat split; vm_compute; reflexivity. Qed.

(** The scores of some distances and maximal lengths: the floats Python
    prints as 66.67, 33.33, 85.71, 87.5, 0.0, 100.0, 99.9, 0.1, 99.88,
    99.62 and 99.98.  The floats [(1 - 1/800) * 100] and
    [(1 - 3/800) * 100] are 99.875 and 99.625 exactly, and are rounded to
    the even hundredth; [(1 - 1/4000) * 100] is 99.97500000000001. *)
Example score_table :
  map (fun dm => round2 (percentage (fst dm) (snd dm)))
    [(1, 3); (2, 3); (1, 7); (1, 8); (5, 5); (0, 5); (1, 1000);
     (999, 1000); (1, 800); (3, 800); (1, 4000)]
  = [S754_finite false 4691484174324859 (-46);
     S754_finite false 4690780486883082 (-47);
     S754_finite false 6031305063467581 (-46);
     S754_finite false 6157265115545600 (-46);
     S754_zero false;
     S754_finite false 7036874417766400 (-46);
     S754_finite false 7029837543348634 (-46);
     S754_finite false 7205759403792794 (-56);
     S754_finite false 7028430168465080 (-46);
     S754_finite false 7010134294978888 (-46);
     S754_finite false 7035467042882847 (-46)].
Proof. vm_compute. reflexivity. Qed.

(** ** Regular expressions: the matcher decides the language *)

Lemma matches_nil_nullable : forall r s,
  matches r s -> s = [] -> nullable r = true.
Proof.
  induction 1 as [|p c Hp|r1 r2 s1 s2 _ IH1 _ IH2|r1 r2 s _ IH|r1 r2 s _ IH
                 |r|r s1 s2 _ _ _ _]; intros E; simpl; auto.
  - discriminate.
  - apply app_eq_nil in E as [-> ->]. rewrite IH1, IH2; reflexivity.
  - rewrite IH; auto.
  - rewrite IH; auto using orb_true_r.
Qed.

Lemma nullable_matches : forall r, nullable r = true <-> matches r [].
Proof.
  intros r. split.
  - induction r as [| |p|r1 IH1 r2 IH2|r1 IH1 r2 IH2|r IH]; simpl; intros H;
      try discriminate.
    + constructor.
    + apply andb_true_iff in H as [H1 H2].
      change (@nil ascii) with (@nil ascii ++ []). constructor; auto.
    + apply orb_true_iff in H as [H|H];
        [apply m_alt_l | apply m_alt_r]; auto.
    + constructor.
  - intros H. apply (matches_nil_nullable r []); auto.
Qed.

Lemma matches_deriv : forall r cs,
  matches r cs -> forall c s, cs = c :: s -> matches (deriv c r) s.
Proof.
  induction 1 as [|p c' Hp|r1 r2 s1 s2 M1 IH1 M2 IH2|r1 r2 s0 _ IH
                 |r1 r2 s0 _ IH|r|r s1 s2 M1 IH1 M2 IH2];
    intros c s E; simpl.
  - discriminate.
  - inversion E; subst. rewrite Hp. constructor.
  - destruct s1 as [|c1 s1]; simpl in E.
    + assert (N : nullable r1 = true) by (apply nullable_matches; exact M1).
      rewrite N. apply m_alt_r. apply IH2, E.
    + inversion E; subst.
      assert (M : matches (Cat (deriv c r1) r2) (s1 ++ s2))
        by (constructor; auto).
      destruct (nullable r1); [apply m_alt_l|]; exact M.
  - apply m_alt_l. auto.
  - apply m_alt_r. auto.
  - discriminate.
  - destruct s1 as [|c1 s1]; simpl in E.
    + apply (IH2 c s E).
    + inversion E; subst. constructor; auto.
Qed.

Lemma deriv_matches : forall r c s,
  matches (deriv c r) s -> matches r (c :: s).
Proof.
  induction r as [| |p|r1 IH1 r2 IH2|r1 IH1 r2 IH2|r IH]; intros c s H;
    simpl in H.
  - inversion H.
  - inversion H.
  - destruct (p c) eqn:Hp; inversion H; subst. constructor. exact Hp.
  - assert (L : forall s, matches (Cat (deriv c r1) r2) s ->
                          matches (Cat r1 r2) (c :: s)).
    { intros s0 M. inversion M; subst.
      change (c :: s1 ++ s2) with ((c :: s1) ++ s2). constructor; auto. }
    destruct (nullable r1) eqn:N.
    + inversion H; subst; [apply L; assumption|].
      change (c :: s) with ([] ++ c :: s). constructor; auto.
      apply nullable_matches, N.
    + apply L, H.
  - inversion H; subst; [apply m_alt_l | apply m_alt_r]; auto.
  - inversion H; subst.
    change (c :: s1 ++ s2) with ((c :: s1) ++ s2). constructor; auto.
Qed.

Theorem matchb_matches : forall s r, matchb r s = true <-> matches r s.
Proof.
  induction s as [|c s IH]; intros r; simpl.
  - apply nullable_matches.
  - rewrite IH. split.
    + apply deriv_matches.
    + intros M. apply (matches_deriv r (c :: s) M c s eq_refl).
Qed.

Lemma in_suffixes : forall (A : Type) (suf l : list A),
  In suf (suffixes l) <-> exists pre, l = pre ++ suf.
Proof.
  intros A suf l. induction l as [|x l IH]; simpl.
  - split.
    + intros [<-|[]]. exists []. reflexivity.
    + intros (pre & E). left. symmetry in E.
      apply app_eq_nil in E as [_ ->]. reflexivity.
  - rewrite IH. split.
    + intros [<-|(pre & ->)]; [exists [] | exists (x :: pre)]; reflexivity.
    + intros ([|y pre] & E); simpl in E.
      * left. exact E.
      * right. inversion E. eauto.
Qed.

Lemma in_prefixes : forall (A : Type) (p l : list A),
  In p (prefixes l) <-> exists post, l = p ++ post.
Proof.
  intros A p l. revert p. induction l as [|x l IH]; intros p; simpl.
  - split.
    + intros [<-|[]]. exists []. reflexivity.
    + intros (post & E). left. symmetry in E.
      apply app_eq_nil in E as [-> _]. reflexivity.
  - rewrite in_map_iff. split.
    + intros [<-|(q & <- & I)].
      * eexists. reflexivity.
      * apply IH in I as (post & ->). exists post. reflexivity.
    + intros (post & E). destruct p as [|y p]; [left; reflexivity|].
      right. inversion E; subst. exists p. split; [reflexivity|].
      apply IH. eauto.
Qed.

(** [re_search] finds a match exactly when a substring is in the
    language. *)
Lemma re_search_matches : forall r s,
  re_search r s = true <->
  exists pre mid post, s = pre ++ mid ++ post /\ matches r mid.
Proof.
  intros r s. unfold re_search. rewrite existsb_exists. split.
  - intros (suf & I & H). apply existsb_exists in H as (mid & Ip & M).
    apply in_suffixes in I as (pre & ->).
    apply in_prefixes in Ip as (post & ->).
    exists pre, mid, post. split; [reflexivity|].
    apply matchb_matches, M.
  - intros (pre & mid & post & -> & M). exists (mid ++ post). split.
    + apply in_suffixes. eauto.
    + apply existsb_exists. exists mid. split.
      * apply in_prefixes. eauto.
      * apply matchb_matches, M.
Qed.

Lemma matches_cls_inv : forall p s,
  matches (Cls p) s -> exists c, s = [c] /\ p c = true.
Proof. intros p s H. inversion H; subst. eauto. Qed.

Lemma matches_star_cls : forall p s,
  matches (Star (Cls p)) s <-> forallb p s = true.
Proof.
  intros p s. split.
  - intros H. remember (Star (Cls p)) as r eqn:E.
    induction H as [| | | | | |r s1 s2 M1 _ _ IH2]; try discriminate.
    + reflexivity.
    + inversion E; subst.
      apply matches_cls_inv in M1 as (c & -> & Hc).
      simpl. rewrite Hc. auto.
  - induction s as [|c s IH]; simpl; intros H.
    + constructor.
    + apply andb_true_iff in H as [Hc Hs].
      change (c :: s) with ([c] ++ s). constructor; auto.
      constructor. exact Hc.
Qed.

Lemma matches_atleast_cls : forall p n s,
  matches (AtLeast n (Cls p)) s <-> forallb p s = true /\ n <= length s.
Proof.
  intros p n. induction n as [|n IH]; intros s; simpl.
  - rewrite matches_star_cls. split; [intros H; split; [exact H | lia]|].
    intros [H _]. exact H.
  - split.
    + intros H. inversion H; subst.
      apply matches_cls_inv in H2 as (c & -> & Hc).
      apply IH in H4 as [Hs Hn]. simpl. rewrite Hc. split; [exact Hs | lia].
    + intros [H Hn]. destruct s as [|c s]; [simpl in Hn; lia|].
      simpl in H, Hn. apply andb_true_iff in H as [Hc Hs].
      change (c :: s) with ([c] ++ s). constructor.
      * constructor. exact Hc.
      * apply IH. split; [exact Hs | lia].
Qed.

(** The language of the phone pattern. *)
Lemma matches_phone_pattern : forall s,
  matches phone_pattern s <->
  exists plus d1 mid d2,
    s = plus ++ d1 :: mid ++ [d2]
    /\ (plus = [] \/ plus = lit "+")
    /\ isdigit d1 = true /\ isdigit d2 = true
    /\ forallb phone_mid mid = true /\ 7 <= length mid.
Proof.
  intros s. unfold phone_pattern. split.
  - intros H. inversion H as [| |r1 r2 plus s2 Mp M2| | | |]; subst.
    inversion M2 as [| |r1 r2 sd1 s3 Md1 M3| | | |]; subst.
    inversion M3 as [| |r1 r2 mid sd2 Mm Md2| | | |]; subst.
    apply matches_cls_inv in Md1 as (d1 & -> & H1).
    apply matches_cls_inv in Md2 as (d2 & -> & H2).
    apply (proj1 (matches_atleast_cls phone_mid 7 mid)) in Mm as [Hm Hl].
    exists plus, d1, mid, d2. repeat split; auto.
    inversion Mp as [| | |r1 r2 s0 Me|r1 r2 s0 Mc| |]; subst.
    + inversion Me. left. reflexivity.
    + apply matches_cls_inv in Mc as (c & -> & Hc).
      apply Ascii.eqb_eq in Hc. subst c. right. reflexivity.
  - intros (plus & d1 & mid & d2 & -> & Hp & H1 & H2 & Hm & Hl).
    constructor.
    + destruct Hp as [->| ->].
      * apply m_alt_l. constructor.
      * apply m_alt_r. constructor. reflexivity.
    + change (d1 :: mid ++ [d2]) with ([d1] ++ mid ++ [d2]).
      constructor; [constructor; exact H1|].
      constructor; [|constructor; exact H2].
      apply (proj2 (matches_atleast_cls phone_mid 7 mid)). auto.
Qed.

(** The phone test of [classify_contact] holds exactly on the lines that
    contain a digit, seven or more digits, whitespace characters, hyphens
    or parentheses, and a digit, in a row. *)
Lemma phone_search_shape : forall line,
  re_search phone_pattern line = true <-> PhoneShaped line.
Proof.
  intros line. rewrite re_search_matches. unfold PhoneShaped. split.
  - intros (pre & s & post & -> & M).
    apply matches_phone_pattern in M
      as (plus & d1 & mid & d2 & -> & _ & H1 & H2 & Hm & Hl).
    exists (pre ++ plus), d1, mid, d2, post. repeat split; auto.
    rewrite <- !app_assoc. simpl. rewrite <- app_assoc. reflexivity.
  - intros (pre & d1 & mid & d2 & post & -> & H1 & H2 & Hm & Hl).
    exists pre, (d1 :: mid ++ [d2]), post. split.
    + simpl. rewrite <- app_assoc. reflexivity.
    + apply matches_phone_pattern.
      exists [], d1, mid, d2. repeat split; auto.
Qed.

(** ** The section formatter *)

Lemma contact_label_not_header : forall section,
  contains (lit "contact") (lower section) = true ->
  str_eqb section HEADER = false.
Proof.
  intros section H. destruct (str_eqb_spec section HEADER) as [->|_].
  - vm_compute in H. discriminate.
  - reflexivity.
Qed.

Lemma classify_contact_class : forall line,
  contact_class line (classify_contact line).
Proof.
  intros line. unfold classify_contact.
  destruct (re_search phone_pattern line) eqn:P.
  - apply cc_phone, phone_search_shape, P.
  - assert (NP : ~ PhoneShaped line).
    { intros S. apply phone_search_shape in S. congruence. }
    destruct (contains (lit "@") line) eqn:A; [apply cc_email; auto|].
    destruct (contains (lit "linkedin.com") (lower line)) eqn:L;
      [apply cc_linkedin; auto|].
    destruct (contains (lit "github.com") (lower line)) eqn:G;
      [apply cc_github; auto | apply cc_plain; auto].
Qed.

(** C8. In a section whose label contains "contact" the block is the
    banner and the lines, classified and joined by newlines; a line is
    classified by the first test that holds: it contains a digit, then
    seven or more digits, whitespace characters, hyphens or parentheses,
    then a digit ("Phone: "); it contains "@" ("Email: "); it contains
    "linkedin.com" in any case ("LinkedIn: "); it contains "github.com" in
    any case ("GitHub: "); otherwise it is left as it is. *)
Theorem contact_line_priority : forall bullet section first rest,
  contains (lit "contact") (lower section) = true ->
  format_block bullet (section, first :: rest)
  = [ NL ++ NL ++ upper section ++ NL ++ NL;
      join NL (map classify_contact (first :: rest)) ]
  /\ (forall line, contact_class line (classify_contact line)).
Proof.
  intros bullet section first rest H.
  split; [|exact classify_contact_class].
  unfold format_block. rewrite (contact_label_not_header section H), H.
  reflexivity.
Qed.

Lemma contact_line_priority_witness :
  format_block (lit "*")
    (lit "CONTACT", [lit "john@example.com"; lit "555-123-4567"])
  = [ NL ++ NL ++ lit "CONTACT" ++ NL ++ NL;
      lit "Email: john@example.com" ++ NL ++ lit "Phone: 555-123-4567" ].
Proof.
  destruct (contact_line_priority (lit "*") (lit "CONTACT")
              (lit "john@example.com") [lit "555-123-4567"] eq_refl)
    as [E _].
  rewrite E. vm_compute. reflexivity.
Defined.

(** With the phone shape worded as a run that holds eight digits, a line
    of eight digits would be a phone number; the pattern asks for nine
    characters, and leaves the line as it is. *)
Lemma contact_eight_digits_unprefixed :
  spec_classify_contact (lit "12345678") = lit "Phone: 12345678"
  /\ classify_contact (lit "12345678") = lit "12345678".
Proof. split; vm_compute; reflexivity. Qed.

(** Conversely two digits seven spaces apart make a phone number. *)
Example contact_two_digits_phone :
  spec_classify_contact (lit "1       2") = lit "1       2"
  /\ classify_contact (lit "1       2") = lit "Phone: 1       2".
Proof. split; vm_compute; reflexivity. Qed.

(** C2. For a non-empty [HEADER] section the block is the first line in
    upper case followed by two newlines, then, when there are more lines,
    these joined by newlines with one newline after them; no banner is
    emitted.  On the content ["John Doe"] the block is "JOHN DOE\n\n". *)
Theorem header_block : forall bullet first rest,
  format_block bullet (HEADER, first :: rest)
  = (upper first ++ NL ++ NL)
    :: match rest with
       | [] => []
       | _ :: _ => [join NL rest ++ NL]
       end.
Proof.
  intros bullet first rest. unfold format_block.
  rewrite str_eqb_refl. cbn [negb]. destruct rest; reflexivity.
Qed.

(** The title line is not emitted unchanged. *)
Lemma header_block_upper_cased :
  concat (format_block (lit "*") (HEADER, [lit "John Doe"]))
  = lit "JOHN DOE" ++ NL ++ NL
  /\ concat (format_block (lit "*") (HEADER, [lit "John Doe"]))
     <> lit "John Doe" ++ NL ++ NL.
Proof. split; vm_compute; [reflexivity | discriminate]. Qed.

(** The example map, formatted. *)
Example format_example :
  format_sections (lit "*") example_map
  = lit "JOHN DOE" ++ NL ++ NL ++ NL ++ NL ++ lit "CONTACT" ++ NL ++ NL
    ++ lit "Email: john@example.com" ++ NL ++ lit "Phone: 555-123-4567"
    ++ NL ++ NL ++ lit "SKILLS" ++ NL ++ NL
    ++ lit "* Python" ++ NL ++ lit "* SQL".
Proof. vm_compute. reflexivity. Qed.

(** * Further properties *)

(** ** The edit-distance engine, continued *)

(** X1. [levenshtein_distance] always returns, and what it returns is the
    least number of single-character insertions, deletions and
    substitutions that turn the first string into the second. *)
Theorem levenshtein_distance_least_script : forall a b,
  exists d,
    levenshtein_distance a b = Some d
    /\ edits a b d
    /\ (forall n, edits a b n -> d <= n).
Proof.
  intros a b. exists (lev a b).
  split; [apply levenshtein_distance_correct|].
  split; [apply lev_edits | apply lev_minimal].
Qed.

Lemma lev_zero_eq : forall a b, lev a b = 0 -> a = b.
Proof.
  induction a as [|x a IH]; intros [|y b] H.
  - reflexivity.
  - discriminate.
  - discriminate.
  - rewrite lev_cons_cons in H. unfold min3 in H.
    assert (H0 : lev a b + neq_cost x y = 0) by lia.
    assert (E : lev a b = 0) by lia.
    assert (C : neq_cost x y = 0) by lia.
    unfold neq_cost in C. destruct (Ascii.eqb_spec x y); [|discriminate].
    rewrite (IH b E). congruence.
Qed.

(** X2. The distance is 0 exactly between equal strings. *)
Theorem levenshtein_distance_zero : forall a b,
  levenshtein_distance a b = Some 0 <-> a = b.
Proof.
  intros a b. rewrite levenshtein_distance_correct. split.
  - intros H. apply lev_zero_eq. congruence.
  - intros ->. rewrite lev_refl. reflexivity.
Qed.

(** Edit scripts compose. *)
Lemma edits_trans : forall a b n,
  edits a b n ->
  forall c m, edits b c m -> exists k, k <= n + m /\ edits a c k.
Proof.
  induction 1 as [|x a b n H IH|x y a b n H IH|x a b n H IH|y a b n H IH];
    intros c m H2.
  - exists m. split; [lia | exact H2].
  - remember (x :: b) as b0 eqn:E.
    induction H2 as [|x0 b1 c1 m1 H2 _|x0 y0 b1 c1 m1 H2 _|x0 b1 c1 m1 H2 _
                    |y0 b1 c1 m1 H2 IH2].
    + discriminate.
    + inversion E; subst. destruct (IH c1 m1 H2) as (k & L & K).
      exists k. split; [lia | constructor; exact K].
    + inversion E; subst. destruct (IH c1 m1 H2) as (k & L & K).
      exists (S k). split; [lia | constructor; exact K].
    + inversion E; subst. destruct (IH c1 m1 H2) as (k & L & K).
      exists (S k). split; [lia | apply ed_delete; exact K].
    + destruct (IH2 E) as (k & L & K).
      exists (S k). split; [lia | apply ed_insert; exact K].
  - remember (y :: b) as b0 eqn:E.
    induction H2 as [|x0 b1 c1 m1 H2 _|x0 y0 b1 c1 m1 H2 _|x0 b1 c1 m1 H2 _
                    |y0 b1 c1 m1 H2 IH2].
    + discriminate.
    + inversion E; subst. destruct (IH c1 m1 H2) as (k & L & K).
      exists (S k). split; [lia | apply ed_subst; exact K].
    + inversion E; subst. destruct (IH c1 m1 H2) as (k & L & K).
      exists (S k). split; [lia | apply ed_subst; exact K].
    + inversion E; subst. destruct (IH c1 m1 H2) as (k & L & K).
      exists (S k). split; [lia | apply ed_delete; exact K].
    + destruct (IH2 E) as (k & L & K).
      exists (S k). split; [lia | apply ed_insert; exact K].
  - destruct (IH c m H2) as (k & L & K).
    exists (S k). split; [lia | apply ed_delete; exact K].
  - remember (y :: b) as b0 eqn:E.
    induction H2 as [|x0 b1 c1 m1 H2 _|x0 y0 b1 c1 m1 H2 _|x0 b1 c1 m1 H2 _
                    |y0 b1 c1 m1 H2 IH2].
    + discriminate.
    + inversion E; subst. destruct (IH c1 m1 H2) as (k & L & K).
      exists (S k). split; [lia | apply ed_insert; exact K].
    + inversion E; subst. destruct (IH c1 m1 H2) as (k & L & K).
      exists (S k). split; [lia | apply ed_insert; exact K].
    + inversion E; subst. destruct (IH c1 m1 H2) as (k & L & K).
      exists k. split; [lia | exact K].
    + destruct (IH2 E) as (k & L & K).
      exists (S k). split; [lia | apply ed_insert; exact K].
Qed.

Lemma lev_triangle : forall a b c, lev a c <= lev a b + lev b c.
Proof.
  intros a b c.
  destruct (edits_trans a b (lev a b) (lev_edits a b) c (lev b c)
              (lev_edits b c)) as (k & L & K).
  apply lev_minimal in K. lia.
Qed.

(** X3. The distance satisfies the triangle inequality. *)
Theorem levenshtein_distance_triangle : forall a b c,
  exists dab dbc dac,
    levenshtein_distance a b = Some dab
    /\ levenshtein_distance b c = Some dbc
    /\ levenshtein_distance a c = Some dac
    /\ dac <= dab + dbc.
Proof.
  intros a b c. exists (lev a b), (lev b c), (lev a c).
  rewrite !levenshtein_distance_correct.
  repeat split. apply lev_triangle.
Qed.

Lemma edits_length : forall a b n,
  edits a b n -> length a <= length b + n /\ length b <= length a + n.
Proof. induction 1; simpl; lia. Qed.

(** X4. The distance to or from the empty string is the length of the
    other string, and in general the distance is at least the difference
    of the two lengths. *)
Theorem levenshtein_distance_lengths : forall a b,
  levenshtein_distance [] b = Some (length b)
  /\ levenshtein_distance a [] = Some (length a)
  /\ exists d,
       levenshtein_distance a b = Some d
       /\ length a - length b <= d
       /\ length b - length a <= d.
Proof.
  intros a b. rewrite !levenshtein_distance_correct, lev_nil_r.
  split; [reflexivity|]. split; [reflexivity|].
  exists (lev a b). split; [reflexivity|].
  pose proof (edits_length a b _ (lev_edits a b)). lia.
Qed.

(** ** The normalizer, continued *)

Lemma in_dropwhile : forall (A : Type) (p : A -> bool) l x,
  In x (dropwhile p l) -> In x l.
Proof.
  induction l as [|y l IH]; simpl; intros x H; [exact H|].
  destruct (p y); [right; apply IH, H | exact H].
Qed.

Lemma in_strip : forall s c, In c (strip s) -> In c s.
Proof.
  intros s c H. unfold strip, rstrip, lstrip in H.
  apply in_rev, in_dropwhile, in_rev, in_dropwhile in H. exact H.
Qed.

Lemma in_sub_spaces_from : forall b s c,
  In c (sub_spaces_from b s) ->
  c = " "%char \/ (isspace c = false /\ In c s).
Proof.
  intros b s. revert b.
  induction s as [|x s IH]; intros b c H; simpl in H; [contradiction|].
  destruct (isspace x) eqn:Ex.
  - destruct b.
    + destruct (IH _ _ H) as [->|[N I]]; [left | right; split]; auto.
      right. exact I.
    + destruct H as [<-|H]; [left; reflexivity|].
      destruct (IH _ _ H) as [->|[N I]]; [left | right; split]; auto.
      right. exact I.
  - destruct H as [<-|H]; [right; split; [exact Ex | left; reflexivity]|].
    destruct (IH _ _ H) as [->|[N I]]; [left | right; split]; auto.
    right. exact I.
Qed.

Lemma isupper_char_lower : forall c, isupper (char_lower c) = false.
Proof. intros [[] [] [] [] [] [] [] []]; reflexivity. Qed.

Lemma normal_char_word : forall c,
  isword c = true -> isupper c = false -> normal_char c = true.
Proof. intros [[] [] [] [] [] [] [] []]; vm_compute; congruence. Qed.

(** X5. The normal form of an ASCII text holds nothing but lower-case
    letters, digits, underscores and spaces: no capital, no punctuation,
    no tab and no newline. *)
Theorem normalize_text_alphabet : forall text,
  is_ascii text = true ->
  forallb normal_char (normalize_text text) = true.
Proof.
  intros text _. apply forallb_forall. intros c H.
  unfold normalize_text, sub_punct in H.
  apply filter_In in H as [H W].
  apply in_sub_spaces_from in H as [->|[N H]]; [reflexivity|].
  apply in_strip in H. unfold lower in H.
  apply in_map_iff in H as (x & <- & _).
  rewrite N, orb_false_r in W.
  apply normal_char_word; [exact W | apply isupper_char_lower].
Qed.

Lemma normalize_text_alphabet_witness :
  forallb normal_char (normalize_text (lit "  Hello,   World_2! ")) = true.
Proof.
  apply (normalize_text_alphabet (lit "  Hello,   World_2! ")). reflexivity.
Defined.

Lemma char_lower_upper : forall c, char_lower (char_upper c) = char_lower c.
Proof. intros [[] [] [] [] [] [] [] []]; reflexivity. Qed.

Lemma char_lower_lower : forall c, char_lower (char_lower c) = char_lower c.
Proof. intros [[] [] [] [] [] [] [] []]; reflexivity. Qed.

Lemma lower_upper : forall s, lower (upper s) = lower s.
Proof.
  intros s. unfold lower, upper. rewrite map_map.
  apply map_ext, char_lower_upper.
Qed.

Lemma lower_lower : forall s, lower (lower s) = lower s.
Proof.
  intros s. unfold lower. rewrite map_map. apply map_ext, char_lower_lower.
Qed.

(** X6. ASCII texts that differ only in the case of their letters have
    the same normal form and the same accuracy result; so has an ASCII
    text and its upper-case or lower-case form. *)
Theorem case_insensitive : forall e e' g g',
  is_ascii e = true -> is_ascii e' = true ->
  is_ascii g = true -> is_ascii g' = true ->
  lower e = lower e' -> lower g = lower g' ->
  normalize_text e = normalize_text e'
  /\ calculate_accuracy e g = calculate_accuracy e' g'
  /\ normalize_text (upper e) = normalize_text e
  /\ normalize_text (lower e) = normalize_text e.
Proof.
  intros e e' g g' _ _ _ _ He Hg.
  assert (N : forall a b, lower a = lower b ->
                          normalize_text a = normalize_text b).
  { intros a b H. unfold normalize_text. rewrite H. reflexivity. }
  split; [apply N, He|]. split.
  - unfold calculate_accuracy. rewrite (N e e' He), (N g g' Hg). reflexivity.
  - split; apply N; [apply lower_upper | apply lower_lower].
Qed.

Lemma case_insensitive_witness :
  calculate_accuracy (lit "Hello World") (lit "hello, world!")
  = calculate_accuracy (lit "hELLO wORLD") (lit "HELLO, WORLD!").
Proof.
  apply (case_insensitive (lit "Hello World") (lit "hELLO wORLD")
           (lit "hello, world!") (lit "HELLO, WORLD!"));
    reflexivity.
Defined.

(** *** Idempotence *)

Lemma isspace_space : isspace " "%char = true.
Proof. reflexivity. Qed.

Lemma sub_spaces_from_idem : forall b s,
  sub_spaces_from b (sub_spaces_from b s) = sub_spaces_from b s.
Proof.
  intros b s. revert b.
  induction s as [|c s IH]; intros b; simpl; [reflexivity|].
  destruct (isspace c) eqn:Ec.
  - destruct b; simpl; [apply IH|]. rewrite IH. reflexivity.
  - simpl. rewrite Ec, IH. reflexivity.
Qed.

Lemma lstrip_idem : forall s, lstrip (lstrip s) = lstrip s.
Proof.
  unfold lstrip. induction s as [|c s IH]; simpl; [reflexivity|].
  destruct (isspace c) eqn:Ec; [exact IH|]. simpl. rewrite Ec. reflexivity.
Qed.

Lemma rstrip_rec_idem : forall s, rstrip_rec (rstrip_rec s) = rstrip_rec s.
Proof.
  induction s as [|c s IH]; simpl; [reflexivity|].
  destruct (isspace c && is_empty (rstrip_rec s)) eqn:E; [reflexivity|].
  simpl. rewrite IH, E. reflexivity.
Qed.

Lemma lstrip_rstrip_rec : forall s,
  lstrip (rstrip_rec s) = rstrip_rec (lstrip s).
Proof.
  unfold lstrip. induction s as [|c s IH]; simpl; [reflexivity|].
  rewrite is_empty_rstrip_rec.
  destruct (isspace c) eqn:Ec; simpl.
  - destruct (forallb isspace s) eqn:Es.
    + rewrite (dropwhile_all _ _ _ Es). reflexivity.
    + simpl. rewrite Ec. exact IH.
  - rewrite ?Ec. simpl. rewrite ?Ec. simpl. reflexivity.
Qed.

Lemma strip_idem : forall s, strip (strip s) = strip s.
Proof.
  intros s. unfold strip. rewrite !rstrip_rstrip_rec.
  rewrite lstrip_rstrip_rec, lstrip_idem. apply rstrip_rec_idem.
Qed.

Lemma lower_dropwhile : forall s,
  lower (dropwhile isspace s) = dropwhile isspace (lower s).
Proof.
  induction s as [|c s IH]; simpl; [reflexivity|].
  rewrite isspace_char_lower. destruct (isspace c); [exact IH | reflexivity].
Qed.

Lemma lower_strip : forall s, lower (strip s) = strip (lower s).
Proof.
  intros s. unfold strip, rstrip, lstrip, lower.
  rewrite map_rev. fold (lower (dropwhile isspace (rev (dropwhile isspace s)))).
  rewrite lower_dropwhile. unfold lower at 1. rewrite map_rev.
  fold (lower (dropwhile isspace s)). rewrite lower_dropwhile. reflexivity.
Qed.

Lemma lower_sub_spaces_from : forall b s,
  lower (sub_spaces_from b s) = sub_spaces_from b (lower s).
Proof.
  intros b s. revert b.
  induction s as [|c s IH]; intros b; simpl; [reflexivity|].
  rewrite isspace_char_lower.
  destruct (isspace c); [destruct b|]; simpl; rewrite IH; reflexivity.
Qed.

Lemma isword_char_lower : forall c, isword (char_lower c) = isword c.
Proof. intros [[] [] [] [] [] [] [] []]; reflexivity. Qed.

Lemma sub_punct_free : forall s, punctuation_free s = true -> sub_punct s = s.
Proof.
  unfold punctuation_free, sub_punct.
  induction s as [|c s IH]; simpl; intros H; [reflexivity|].
  apply andb_true_iff in H as [Hc Hs]. rewrite Hc, (IH Hs). reflexivity.
Qed.

Lemma punctuation_free_steps : forall s,
  punctuation_free s = true ->
  punctuation_free (sub_spaces (strip (lower s))) = true.
Proof.
  intros s H. unfold punctuation_free in *. apply forallb_forall.
  intros c I. apply in_sub_spaces_from in I as [->|[_ I]]; [reflexivity|].
  apply in_strip in I. unfold lower in I.
  apply in_map_iff in I as (x & <- & I).
  rewrite isword_char_lower, isspace_char_lower.
  exact (proj1 (forallb_forall _ _) H x I).
Qed.

(** X7. On a text without punctuation the normalizer is idempotent; it is
    not in general, because the characters it deletes last can leave two
    spaces in a row, or a space at an end. *)
Theorem normalize_text_idempotent : forall text,
  punctuation_free text = true ->
  normalize_text (normalize_text text) = normalize_text text.
Proof.
  intros text H. unfold normalize_text.
  pose proof (punctuation_free_steps text H) as F.
  rewrite (sub_punct_free _ F).
  set (t := strip (lower text)) in *.
  assert (Lt : lower t = t).
  { unfold t. rewrite lower_strip, lower_lower. reflexivity. }
  assert (St : strip t = t) by apply strip_idem.
  unfold sub_spaces at 2.
  rewrite lower_sub_spaces_from, Lt. fold (sub_spaces t).
  rewrite strip_sub_spaces, St.
  unfold sub_spaces at 1 2. rewrite sub_spaces_from_idem.
  apply (sub_punct_free _ F).
Qed.

Lemma normalize_text_idempotent_witness :
  normalize_text (normalize_text (lit "  Data   Science_101 "))
  = normalize_text (lit "  Data   Science_101 ").
Proof.
  apply (normalize_text_idempotent (lit "  Data   Science_101 ")).
  reflexivity.
Defined.

Example normalize_text_not_idempotent :
  normalize_text (lit "a , b") = lit "a  b"
  /\ normalize_text (lit "a  b") = lit "a b".
Proof. split; reflexivity. Qed.

(** ** The accuracy scorer, continued *)

(** X8. Two texts with the same non-empty normal form score exactly 100,
    with distance 0: the score ignores the differences the normalizer
    removes (letter case, punctuation, the amount of whitespace). *)
Theorem calculate_accuracy_same_normal_form : forall e g,
  normalize_text e = normalize_text g ->
  normalize_text e <> [] ->
  calculate_accuracy e g
  = Some [PFloat float_hundred; PStr (normalize_text e);
          PStr (normalize_text e); PInt 0;
          PInt (length (normalize_text e))].
Proof.
  intros e g E N. unfold calculate_accuracy. rewrite <- E.
  destruct (normalize_text e) as [|c n] eqn:En; [congruence|].
  cbn [is_empty orb]. rewrite levenshtein_distance_correct, lev_refl.
  cbn [obind]. rewrite Nat.max_id. cbn [length Nat.ltb Nat.leb].
  pose proof (percentage_zero (S (length n)) ltac:(lia)) as P.
  unfold percentage in P. rewrite P. reflexivity.
Qed.

Lemma calculate_accuracy_same_normal_form_witness :
  calculate_accuracy (lit "Hello, World.") (lit "  hello   WORLD ")
  = Some [PFloat float_hundred; PStr (lit "hello world");
          PStr (lit "hello world"); PInt 0; PInt 11].
Proof.
  apply (calculate_accuracy_same_normal_form (lit "Hello, World.")
           (lit "  hello   WORLD ")).
  - vm_compute. reflexivity.
  - vm_compute. discriminate.
Defined.

(** X9. Exchanging the extracted text and the reference exchanges the two
    normalized strings of the result and changes nothing else: the score,
    the distance and the maximal length do not depend on the order. *)
Theorem calculate_accuracy_swap : forall e g,
  calculate_accuracy g e = option_map swap_texts (calculate_accuracy e g).
Proof.
  intros e g. unfold calculate_accuracy.
  rewrite (orb_comm (is_empty (normalize_text g))).
  destruct (is_empty (normalize_text e) || is_empty (normalize_text g));
    [reflexivity|].
  rewrite !levenshtein_distance_correct. cbn [obind option_map swap_texts].
  rewrite (lev_sym (normalize_text g)), (Nat.max_comm (length (normalize_text g))).
  reflexivity.
Qed.

(** ** The section segmenter, continued *)

Lemma od_keys_set : forall k v d,
  od_keys (od_set k v d)
  = if existsb (str_eqb k) (od_keys d) then od_keys d else od_keys d ++ [k].
Proof.
  intros k v d. induction d as [|[k' v'] d IH]; simpl; [reflexivity|].
  destruct (str_eqb k k'); simpl; [reflexivity|].
  rewrite IH. destruct (existsb (str_eqb k) (od_keys d)); reflexivity.
Qed.

Lemma existsb_str_eqb : forall k l, existsb (str_eqb k) l = true <-> In k l.
Proof.
  intros k l. rewrite existsb_exists. split.
  - intros (x & I & E). destruct (str_eqb_spec k x); congruence.
  - intros I. exists k. split; [exact I | apply str_eqb_refl].
Qed.

Lemma od_set_keys_ok : forall k v d,
  NoDup (od_keys d) -> In k section_labels ->
  Forall (fun x => In x section_labels) (od_keys d) ->
  NoDup (od_keys (od_set k v d))
  /\ Forall (fun x => In x section_labels) (od_keys (od_set k v d)).
Proof.
  intros k v d N I F. rewrite od_keys_set.
  destruct (existsb (str_eqb k) (od_keys d)) eqn:E; [split; assumption|].
  split.
  - apply NoDup_app; [exact N | repeat constructor; intros [] |].
    intros x Ix [<-|[]].
    apply existsb_str_eqb in Ix. congruence.
  - apply Forall_app. split; [exact F|].
    constructor; [exact I | constructor].
Qed.

Lemma find_header_in : forall line h,
  find_header line = Some h -> In h section_headers.
Proof. intros line h H. apply find_some in H as [I _]. exact I. Qed.

Lemma detect_step_keys : forall st raw st',
  keys_ok st -> detect_step st raw = Some st' -> keys_ok st'.
Proof.
  intros [s cur] raw st' (N & F & C) E. cbn [fst snd] in *.
  destruct (detect_step_cases s cur raw)
    as [[_ E'] | [(header & _ & H & E') | (_ & _ & E')]]; rewrite E' in E.
  - inversion E; subst. repeat split; assumption.
  - inversion E; subst. cbn [fst snd].
    assert (I : In (upper header) section_labels).
    { right. apply in_map, (find_header_in _ _ H). }
    destruct (od_set_keys_ok (upper header) [] s N I F) as [N' F'].
    repeat split; assumption.
  - destruct (od_get cur s) as [c|]; [|discriminate].
    inversion E; subst. cbn [fst snd].
    destruct (od_set_keys_ok cur (c ++ [strip raw]) s N C F) as [N' F'].
    repeat split; assumption.
Qed.

Lemma detect_loop_keys : forall lines st st',
  keys_ok st -> foldM detect_step lines st = Some st' -> keys_ok st'.
Proof.
  induction lines as [|raw lines IH]; intros st st' K E; simpl in E.
  - inversion E; subst. exact K.
  - destruct (detect_step st raw) as [st1|] eqn:S; [|discriminate].
    apply (IH st1 st' (detect_step_keys _ _ _ K S) E).
Qed.

Lemma keys_ok_init : keys_ok seg_init.
Proof.
  split; [|split]; simpl.
  - constructor; [intros [] | constructor].
  - constructor; [left; reflexivity | constructor].
  - left. reflexivity.
Qed.

(** X12. The keys of the map are distinct, and each is [HEADER] or a
    phrase of the vocabulary in upper case: there are eighteen sections at
    most, however long the text. *)
Theorem section_keys : forall lines,
  exists d,
    detect_lines lines = Some d
    /\ NoDup (od_keys d)
    /\ Forall (fun k => In k section_labels) (od_keys d)
    /\ length (od_keys d) <= 18.
Proof.
  intros lines.
  destruct (detect_loop_inv lines seg_init seg_inv_init) as (st & E & _).
  destruct (detect_loop_keys lines seg_init st keys_ok_init E)
    as (N & F & _).
  exists (fst st). unfold detect_lines. rewrite E.
  repeat split; try assumption.
  change 18 with (length section_labels).
  apply NoDup_incl_length; [exact N|].
  intros k I. exact (proj1 (Forall_forall _ _) F k I).
Qed.

Lemma od_get_in : forall k d v, od_get k d = Some v -> In (k, v) d.
Proof.
  intros k d v. induction d as [|[k' v'] d IH]; simpl; [discriminate|].
  destruct (str_eqb_spec k k') as [->|_].
  - intros E. inversion E. left. reflexivity.
  - intros E. right. apply IH, E.
Qed.

Lemma in_od_set : forall k v d k' v',
  In (k', v') (od_set k v d) -> In (k', v') d \/ v' = v.
Proof.
  intros k v d k' v'. induction d as [|[k2 v2] d IH]; simpl.
  - intros [E|[]]. inversion E. right. reflexivity.
  - destruct (str_eqb k k2); simpl.
    + intros [E|I]; [inversion E; right; reflexivity | left; right; exact I].
    + intros [E|I]; [left; left; exact E|].
      destruct (IH I) as [I'|E]; [left; right; exact I' | right; exact E].
Qed.

Lemma content_line_mono : forall lines raw line,
  content_line lines line -> content_line (lines ++ [raw]) line.
Proof.
  intros lines raw line (N & S & F & r & I & E).
  repeat split; try assumption.
  exists r. split; [apply in_or_app; left; exact I | exact E].
Qed.

Lemma detect_step_contents : forall lines s cur raw st',
  contents_ok lines s ->
  detect_step (s, cur) raw = Some st' ->
  contents_ok (lines ++ [raw]) (fst st').
Proof.
  intros lines s cur raw st' C E.
  assert (M : contents_ok (lines ++ [raw]) s).
  { intros k content line I L. apply content_line_mono, (C k content line I L). }
  destruct (detect_step_cases s cur raw)
    as [[_ E'] | [(header & _ & H & E') | (B & H & E')]]; rewrite E' in E.
  - inversion E; subst. exact M.
  - inversion E; subst. cbn [fst].
    intros k content line I L.
    apply in_od_set in I as [I| ->]; [apply (M k content line I L)|].
    destruct L.
  - destruct (od_get cur s) as [c|] eqn:G; [|discriminate].
    inversion E; subst. cbn [fst].
    intros k content line I L.
    apply in_od_set in I as [I| ->]; [apply (M k content line I L)|].
    apply in_app_or in L as [L|[<-|[]]].
    + apply (M cur c line (od_get_in _ _ _ G) L).
    + repeat split; [exact B | apply strip_idem | exact H|].
      exists raw. split; [apply in_or_app; right; left|]; reflexivity.
Qed.

Lemma detect_loop_contents : forall rest lines st st',
  contents_ok lines (fst st) ->
  foldM detect_step rest st = Some st' ->
  contents_ok (lines ++ rest) (fst st').
Proof.
  induction rest as [|raw rest IH]; intros lines st st' C E; simpl in E.
  - inversion E; subst. rewrite app_nil_r. exact C.
  - destruct (detect_step st raw) as [st1|] eqn:S; [|discriminate].
    destruct st as [s cur].
    pose proof (detect_step_contents lines s cur raw st1 C S) as C1.
    specialize (IH (lines ++ [raw]) st1 st' C1 E).
    rewrite <- app_assoc in IH. exact IH.
Qed.

(** X13. Every content line of the map is the strip of a line of the
    input, is not empty, carries no whitespace at its ends, and is not a
    header line: the segmenter invents no text, and header lines are never
    content. *)
Theorem section_contents : forall lines,
  exists d,
    detect_lines lines = Some d
    /\ forall k content line,
         In (k, content) d -> In line content ->
         line <> [] /\ strip line = line /\ find_header line = None
         /\ exists raw, In raw lines /\ line = strip raw.
Proof.
  intros lines.
  destruct (detect_loop_inv lines seg_init seg_inv_init) as (st & E & _).
  exists (fst st). unfold detect_lines. rewrite E. split; [reflexivity|].
  assert (C0 : contents_ok [] (fst seg_init)).
  { intros k content line [I|[]] L. inversion I; subst. destruct L. }
  exact (detect_loop_contents lines [] seg_init st C0 E).
Qed.

Lemma in_split : forall sep s l c, In l (split sep s) -> In c l -> In c s.
Proof.
  intros sep s. induction s as [|x s IH]; simpl; intros l c I L.
  - destruct I as [<-|[]]. destruct L.
  - destruct (Ascii.eqb x sep).
    + destruct I as [<-|I]; [destruct L | right; apply (IH l c I L)].
    + destruct (split sep s) as [|l0 ls] eqn:E.
      * destruct I as [<-|[]]. destruct L as [<-|[]]. left. reflexivity.
      * destruct I as [<-|I].
        -- destruct L as [<-|L]; [left; reflexivity|].
           right. apply (IH l0 c); [left; reflexivity | exact L].
        -- right. apply (IH l c); [right; exact I | exact L].
Qed.

Lemma strip_blank : forall s, forallb isspace s = true -> strip s = [].
Proof.
  intros s H. unfold strip, lstrip. rewrite (dropwhile_all _ _ _ H).
  reflexivity.
Qed.

Lemma nonblank_lines_blank : forall lines,
  Forall (fun l => strip l = []) lines -> nonblank_lines lines = [].
Proof.
  unfold nonblank_lines. induction 1 as [|l lines H _ IH]; simpl.
  - reflexivity.
  - rewrite H. simpl. exact IH.
Qed.

Lemma detect_sections_blank : forall text,
  forallb isspace text = true -> detect_sections text = Some [(HEADER, [])].
Proof.
  intros text H.
  assert (B : Forall (fun l => strip l = []) (split newline text)).
  { apply Forall_forall. intros l I. apply strip_blank, forallb_forall.
    intros c L. apply (proj1 (forallb_forall _ _) H c).
    apply (in_split newline text l c I L). }
  assert (NH : forallb (fun raw => negb (is_header_line raw))
                 (split newline text) = true).
  { apply forallb_forall. intros l I. unfold is_header_line.
    rewrite (proj1 (Forall_forall _ _) B l I), find_header_blank.
    reflexivity. }
  destruct (detect_loop_no_header (split newline text) [(HEADER, [])]
              HEADER [] NH eq_refl) as (s' & E & _ & One).
  assert (E2 : foldM detect_step (split newline text) seg_init
               = Some (s', HEADER)) by exact E.
  unfold detect_sections, detect_lines. rewrite E2. cbn [obind fst].
  rewrite (One [] eq_refl), (nonblank_lines_blank _ B). reflexivity.
Qed.

(** X14. A text made of whitespace only (the empty text too) segments
    into the single section [HEADER] with no content, and formats to the
    empty string. *)
Theorem blank_document : forall bullet text,
  forallb isspace text = true ->
  detect_sections text = Some [(HEADER, [])]
  /\ option_map (format_sections bullet) (detect_sections text) = Some [].
Proof.
  intros bullet text H.
  pose proof (detect_sections_blank text H) as D.
  split; [exact D|]. rewrite D. reflexivity.
Qed.

Lemma blank_document_witness :
  detect_sections (lit "   " ++ NL ++ NL ++ lit "  ") = Some [(HEADER, [])].
Proof.
  apply (blank_document (lit "*") (lit "   " ++ NL ++ NL ++ lit "  ")).
  reflexivity.
Defined.

(** *** Header lines *)

Lemma matches_eps_inv : forall s, matches Eps s -> s = [].
Proof. intros s H. inversion H. reflexivity. Qed.

Lemma matches_lit_ci : forall h x,
  matches (Lit_ci h) x <-> lower x = lower h.
Proof.
  induction h as [|c h IH]; intros x; simpl.
  - split.
    + intros H. apply matches_eps_inv in H. subst. reflexivity.
    + intros H. destruct x; [constructor | discriminate].
  - split.
    + intros H. inversion H as [| |r1 r2 s1 s2 M1 M2| | | |]; subst.
      apply matches_cls_inv in M1 as (a & -> & Ha).
      apply Ascii.eqb_eq in Ha. apply IH in M2.
      simpl. rewrite Ha, M2. reflexivity.
    + intros H. destruct x as [|a x]; [discriminate|].
      simpl in H. inversion H as [[Ha Hx]].
      change (a :: x) with ([a] ++ x). constructor.
      * constructor. rewrite Ha. apply Ascii.eqb_refl.
      * apply IH. exact Hx.
Qed.

Lemma matches_header_pattern : forall h s,
  matches (header_pattern h) s <-> HeaderShaped h s.
Proof.
  intros h s. unfold header_pattern, HeaderShaped. split.
  - intros H.
    inversion H as [| |r1 r2 w1 s1 M1 H1| | | |]; subst.
    inversion H1 as [| |r1 r2 x s2 Mx H2| | | |]; subst.
    inversion H2 as [| |r1 r2 w2 s3 M2 H3| | | |]; subst.
    inversion H3 as [| |r1 r2 c w3 Mc M3| | | |]; subst.
    apply matches_star_cls in M1, M2, M3. apply matches_lit_ci in Mx.
    exists w1, x, w2, c, w3. repeat split; auto.
    inversion Mc as [| | |r1 r2 s0 Me|r1 r2 s0 Mcol| |]; subst.
    + inversion Me. left. reflexivity.
    + apply matches_cls_inv in Mcol as (a & -> & Ha).
      apply Ascii.eqb_eq in Ha. subst a. right. reflexivity.
  - intros (w1 & x & w2 & c & w3 & -> & H1 & Hx & H2 & Hc & H3).
    constructor; [apply matches_star_cls; exact H1|].
    constructor; [apply matches_lit_ci; exact Hx|].
    constructor; [apply matches_star_cls; exact H2|].
    constructor; [|apply matches_star_cls; exact H3].
    destruct Hc as [->| ->].
    + apply m_alt_l. constructor.
    + apply m_alt_r. constructor. reflexivity.
Qed.

Lemma ends_with_newline_inv : forall s,
  ends_with_newline s = true -> s = removelast s ++ [newline].
Proof.
  intros s H. unfold ends_with_newline in H.
  destruct (rev s) as [|c r] eqn:E; [discriminate|].
  apply Ascii.eqb_eq in H. subst c.
  assert (S : s = rev r ++ [newline]).
  { rewrite <- (rev_involutive s), E. reflexivity. }
  rewrite S at 2. rewrite removelast_last. exact S.
Qed.

(** A line matches the pattern of a phrase when it is the phrase, in any
    case, between optional whitespace and with an optional colon after
    it. *)
Lemma is_header_shape : forall line h,
  is_header line h = true <-> HeaderShaped h line.
Proof.
  intros line h. unfold is_header, re_search_anchored.
  rewrite orb_true_iff, andb_true_iff, !matchb_matches,
    !matches_header_pattern.
  split.
  - intros [H|[N H]]; [exact H|].
    destruct H as (w1 & x & w2 & c & w3 & E & H1 & Hx & H2 & Hc & H3).
    exists w1, x, w2, c, (w3 ++ [newline]).
    repeat split; auto.
    + rewrite (ends_with_newline_inv line N), E.
      rewrite <- !app_assoc. reflexivity.
    + rewrite forallb_app, H3. reflexivity.
  - intros H. left. exact H.
Qed.

Lemma dropwhile_app_all : forall (A : Type) (p : A -> bool) a b,
  forallb p a = true -> dropwhile p (a ++ b) = dropwhile p b.
Proof.
  induction a as [|x a IH]; simpl; intros b H; [reflexivity|].
  apply andb_true_iff in H as [Hx Ha]. rewrite Hx. apply IH, Ha.
Qed.

Lemma rstrip_app_spaces : forall s w,
  forallb isspace w = true -> rstrip (s ++ w) = rstrip s.
Proof.
  intros s w H. unfold rstrip. rewrite rev_app_distr, dropwhile_app_all.
  - reflexivity.
  - rewrite forallb_rev. exact H.
Qed.

Lemma rstrip_snoc : forall s z,
  isspace z = false -> rstrip (s ++ [z]) = s ++ [z].
Proof.
  intros s z H. unfold rstrip. rewrite rev_unit. simpl. rewrite H.
  simpl. rewrite rev_involutive. reflexivity.
Qed.

Lemma drop_colon_snoc : forall s z,
  drop_colon (s ++ [z]) = if Ascii.eqb z ":"%char then s else s ++ [z].
Proof.
  intros s z. unfold drop_colon. rewrite rev_unit.
  destruct (Ascii.eqb z ":"%char); [apply rev_involutive | reflexivity].
Qed.

Lemma char_lower_colon : forall z,
  Ascii.eqb (char_lower z) ":"%char = Ascii.eqb z ":"%char.
Proof. intros [[] [] [] [] [] [] [] []]; reflexivity. Qed.

(** What a plain phrase tells about a text equal to it up to case. *)
Lemma plain_phrase_ends : forall h x,
  plain_phrase h = true -> lower x = lower h ->
  lower x = h
  /\ (exists x0 xt, x = x0 :: xt /\ isspace x0 = false)
  /\ (exists xi z, x = xi ++ [z] /\ isspace z = false
                   /\ Ascii.eqb z ":"%char = false).
Proof.
  intros h x P E. unfold plain_phrase in P.
  apply andb_true_iff in P as [P Pl]. apply andb_true_iff in P as [Pe Pf].
  destruct (str_eqb_spec (lower h) h) as [L|]; [|discriminate].
  rewrite L in E. split; [exact E|]. split.
  - destruct x as [|x0 xt]; [rewrite <- E in Pf; discriminate|].
    exists x0, xt. split; [reflexivity|].
    rewrite <- E in Pf. simpl in Pf. rewrite isspace_char_lower in Pf.
    destruct (isspace x0); [discriminate | reflexivity].
  - rewrite <- E in Pl. unfold lower in Pl. rewrite <- map_rev in Pl.
    destruct (rev x) as [|z r] eqn:R; [discriminate|].
    simpl in Pl. rewrite isspace_char_lower, char_lower_colon in Pl.
    exists (rev r), z. split.
    + rewrite <- (rev_involutive x), R. reflexivity.
    + destruct (isspace z), (Ascii.eqb z ":"%char); try discriminate.
      split; reflexivity.
Qed.

Lemma header_shape_key : forall h line,
  plain_phrase h = true -> HeaderShaped h line -> header_key line = h.
Proof.
  intros h line P (w1 & x & w2 & c & w3 & -> & H1 & Hx & H2 & Hc & H3).
  destruct (plain_phrase_ends h x P Hx)
    as (L & (x0 & xt & Ex & S0) & (xi & z & Ez & Sz & Cz)).
  unfold header_key, lstrip.
  rewrite (dropwhile_app_all _ _ w1 _ H1).
  assert (D : dropwhile isspace (x ++ w2 ++ c ++ w3) = x ++ w2 ++ c ++ w3).
  { rewrite Ex. simpl. rewrite S0. reflexivity. }
  rewrite D.
  assert (Rx : rstrip (x ++ w2) = x).
  { rewrite (rstrip_app_spaces _ _ H2), Ez. apply rstrip_snoc, Sz. }
  destruct Hc as [->| ->].
  - cbn [app]. rewrite app_assoc, (rstrip_app_spaces _ _ H3), Rx.
    assert (Dx : drop_colon x = x).
    { rewrite Ez, drop_colon_snoc, Cz. reflexivity. }
    rewrite Dx. rewrite <- (app_nil_r x) at 1.
    rewrite (rstrip_app_spaces x [] eq_refl), Ez, (rstrip_snoc _ _ Sz).
    rewrite <- Ez. exact L.
  - replace (x ++ w2 ++ lit ":" ++ w3)
      with (((x ++ w2) ++ [":"%char]) ++ w3)
      by (rewrite <- !app_assoc; reflexivity).
    rewrite (rstrip_app_spaces _ _ H3),
      (rstrip_snoc (x ++ w2) ":"%char eq_refl).
    rewrite drop_colon_snoc. cbn [Ascii.eqb Bool.eqb].
    rewrite Rx. exact L.
Qed.

Lemma lstrip_split : forall s,
  exists w, forallb isspace w = true /\ s = w ++ lstrip s.
Proof.
  unfold lstrip. induction s as [|c s (w & H & E)]; simpl.
  - exists []. split; reflexivity.
  - destruct (isspace c) eqn:Ec.
    + exists (c :: w). simpl. rewrite Ec, H. split; [reflexivity|].
      f_equal. exact E.
    + exists []. split; reflexivity.
Qed.

Lemma rstrip_split : forall s,
  exists w, forallb isspace w = true /\ s = rstrip s ++ w.
Proof.
  intros s. destruct (lstrip_split (rev s)) as (w & H & E).
  exists (rev w). split; [rewrite forallb_rev; exact H|].
  unfold rstrip. rewrite <- rev_app_distr. unfold lstrip in E.
  rewrite <- E. symmetry. apply rev_involutive.
Qed.

Lemma drop_colon_split : forall s,
  exists c, (c = [] \/ c = lit ":") /\ s = drop_colon s ++ c.
Proof.
  intros s. unfold drop_colon. destruct (rev s) as [|z r] eqn:R.
  - exists []. rewrite app_nil_r. auto.
  - destruct (Ascii.eqb_spec z ":"%char) as [->|_].
    + exists (lit ":"). split; [right; reflexivity|].
      rewrite <- (rev_involutive s), R. reflexivity.
    + exists []. rewrite app_nil_r. auto.
Qed.

Lemma header_key_shape : forall line, HeaderShaped (header_key line) line.
Proof.
  intros line. unfold header_key.
  destruct (lstrip_split line) as (w1 & H1 & E1).
  destruct (rstrip_split (lstrip line)) as (w3 & H3 & E3).
  destruct (drop_colon_split (rstrip (lstrip line))) as (c & Hc & Ec).
  destruct (rstrip_split (drop_colon (rstrip (lstrip line))))
    as (w2 & H2 & E2).
  exists w1, (rstrip (drop_colon (rstrip (lstrip line)))), w2, c, w3.
  repeat split; auto.
  - rewrite E1 at 1. f_equal. rewrite E3 at 1. rewrite Ec at 1.
    rewrite E2 at 1. rewrite <- !app_assoc. reflexivity.
  - symmetry. apply lower_lower.
Qed.

Lemma vocabulary_plain : forall h,
  In h section_headers -> plain_phrase h = true.
Proof.
  assert (H : forallb plain_phrase section_headers = true) by reflexivity.
  intros h I. exact (proj1 (forallb_forall _ _) H h I).
Qed.

(** X10. An ASCII line matches a phrase of the vocabulary exactly when the
    line, without the whitespace at its ends, without one colon at its end
    and the whitespace before that colon, and put in lower case, is the
    phrase. *)
Theorem header_match_exact : forall line h,
  is_ascii line = true ->
  In h section_headers ->
  (is_header line h = true <-> header_key line = h).
Proof.
  intros line h _ I. rewrite is_header_shape. split.
  - apply header_shape_key, vocabulary_plain, I.
  - intros <-. apply header_key_shape.
Qed.

Lemma header_match_exact_witness :
  is_header (lit "  Work Experience  : ") (lit "work experience") = true
  /\ is_header (lit "Work Experience::") (lit "work experience") = false.
Proof.
  split.
  - apply (header_match_exact (lit "  Work Experience  : ")
             (lit "work experience")).
    + reflexivity.
    + vm_compute. tauto.
    + reflexivity.
  - destruct (is_header (lit "Work Experience::") (lit "work experience"))
      eqn:E; [|reflexivity].
    apply (header_match_exact (lit "Work Experience::")
             (lit "work experience")) in E.
    + vm_compute in E. discriminate.
    + reflexivity.
    + vm_compute. tauto.
Defined.

(** X11. The phrase the inner loop stops at on an ASCII line is the one
    the line equals in the sense above, if the vocabulary has it: so no
    ASCII line matches two phrases, and the order in which the vocabulary
    lists them never decides. *)
Theorem find_header_order_free : forall line h,
  is_ascii line = true ->
  (find_header line = Some h <->
   In h section_headers /\ header_key line = h).
Proof.
  intros line h _. unfold find_header.
  assert (K : forall h', In h' section_headers ->
                         is_header line h' = true -> header_key line = h').
  { intros h' I M. apply is_header_shape in M.
    apply (header_shape_key h' line (vocabulary_plain h' I) M). }
  split.
  - intros F. apply find_some in F as [I M]. split; [exact I | auto].
  - intros [I <-].
    destruct (find (is_header line) section_headers) as [h'|] eqn:F.
    + apply find_some in F as [I' M']. rewrite (K h' I' M'). reflexivity.
    + pose proof (find_none _ _ F _ I) as N.
      pose proof (proj2 (is_header_shape line (header_key line))
                    (header_key_shape line)) as M.
      congruence.
Qed.

Lemma find_header_order_free_witness :
  find_header (lit "Technical Skills :") = Some (lit "technical skills").
Proof.
  apply (find_header_order_free (lit "Technical Skills :")
           (lit "technical skills")).
  - reflexivity.
  - split; [vm_compute; tauto | reflexivity].
Defined.

(** ** The section formatter, continued *)

(** X15. A section without content leaves no trace in the formatted
    document, not even its banner: formatting a map is formatting its
    sections that have content. *)
Theorem empty_sections_invisible : forall bullet sections,
  format_sections bullet sections
  = format_sections bullet (filter has_content sections).
Proof.
  intros bullet sections. unfold format_sections. f_equal. f_equal.
  induction sections as [|[k content] d IH]; [reflexivity|].
  cbn [flat_map filter]. rewrite IH.
  destruct content; reflexivity.
Qed.

Lemma head_ok_dropwhile : forall s, head_ok (dropwhile isspace s).
Proof.
  induction s as [|c s IH]; simpl; [exact I|].
  destruct (isspace c) eqn:E; [exact IH | exact E].
Qed.

Lemma head_ok_rstrip_rec : forall s, head_ok s -> head_ok (rstrip_rec s).
Proof.
  intros [|c s] H; simpl; [exact I|].
  simpl in H. rewrite H. exact H.
Qed.

Lemma trimmed_strip : forall s, trimmed (strip s).
Proof.
  intros s. split.
  - unfold strip. rewrite rstrip_rstrip_rec.
    apply head_ok_rstrip_rec, head_ok_dropwhile.
  - unfold strip, rstrip. rewrite rev_involutive. apply head_ok_dropwhile.
Qed.

Lemma isspace_char_upper : forall c, isspace (char_upper c) = isspace c.
Proof. intros [[] [] [] [] [] [] [] []]; reflexivity. Qed.

Lemma head_ok_app : forall a b, a <> [] -> head_ok a -> head_ok (a ++ b).
Proof. intros [|c a] b N H; [congruence | exact H]. Qed.

Lemma head_ok_upper : forall s, head_ok s -> head_ok (upper s).
Proof.
  intros [|c s] H; simpl; [exact I|].
  rewrite isspace_char_upper. exact H.
Qed.

Lemma trimmed_upper : forall s, trimmed s -> trimmed (upper s).
Proof.
  intros s [H1 H2]. split; [apply head_ok_upper, H1|].
  unfold upper. rewrite <- map_rev. apply head_ok_upper, H2.
Qed.

Lemma rev_not_nil : forall (A : Type) (l : list A), l <> [] -> rev l <> [].
Proof.
  intros A l N E. apply N. rewrite <- (rev_involutive l), E. reflexivity.
Qed.

(** Whitespace after a trimmed string is all that [strip] removes. *)
Lemma strip_trimmed_app : forall s w,
  trimmed s -> forallb isspace w = true -> strip (s ++ w) = s.
Proof.
  intros s w [H1 H2] W. unfold strip.
  destruct s as [|c s]; [simpl; apply strip_blank, W|].
  assert (L : lstrip ((c :: s) ++ w) = (c :: s) ++ w).
  { unfold lstrip. simpl in *. rewrite H1. reflexivity. }
  rewrite L, (rstrip_app_spaces _ _ W). unfold rstrip.
  destruct (rev (c :: s)) as [|z r] eqn:R.
  - exfalso. apply (rev_not_nil _ (c :: s)); [discriminate | exact R].
  - simpl in H2. simpl. rewrite H2. rewrite <- R. apply rev_involutive.
Qed.

Lemma trimmed_between : forall a m b,
  a <> [] -> b <> [] -> head_ok a -> head_ok (rev b) ->
  trimmed (a ++ m ++ b).
Proof.
  intros a m b Na Nb Ha Hb. split.
  - apply head_ok_app; assumption.
  - rewrite !rev_app_distr, <- app_assoc.
    apply head_ok_app; [apply rev_not_nil, Nb | exact Hb].
Qed.

Lemma join_lines_end : forall l lines,
  Forall (fun x => x <> [] /\ trimmed x) (l :: lines) ->
  join NL (l :: lines) <> [] /\ head_ok (rev (join NL (l :: lines))).
Proof.
  intros l lines. revert l.
  induction lines as [|l' lines IH]; intros l F.
  - inversion F as [|? ? [N [_ T]] _]; subst. simpl. auto.
  - inversion F as [|? ? [N _] F']; subst.
    destruct (IH l' F') as [N' T'].
    change (join NL (l :: l' :: lines))
      with (l ++ NL ++ join NL (l' :: lines)).
    split.
    + destruct l; [congruence | discriminate].
    + rewrite !rev_app_distr, <- app_assoc.
      apply head_ok_app; [apply rev_not_nil, N' | exact T'].
Qed.

Lemma nonblank_lines_trimmed : forall lines,
  Forall (fun x => x <> [] /\ trimmed x) (nonblank_lines lines).
Proof.
  intros lines. apply Forall_forall. intros l I.
  unfold nonblank_lines in I. apply filter_In in I as [I N].
  apply in_map_iff in I as (raw & <- & _). split.
  - destruct (strip raw); [discriminate | discriminate].
  - apply trimmed_strip.
Qed.

(** X16. A text without header lines formats to its first non-blank line
    in upper case and, when there are more, a blank line and the other
    non-blank lines, each stripped, one per row. *)
Theorem plain_document : forall bullet lines first rest,
  forallb (fun raw => negb (is_header_line raw)) lines = true ->
  nonblank_lines lines = first :: rest ->
  option_map (format_sections bullet) (detect_lines lines)
  = Some (upper first
          ++ match rest with
             | [] => []
             | _ :: _ => NL ++ NL ++ join NL rest
             end).
Proof.
  intros bullet lines first rest NH E.
  destruct (detect_loop_no_header lines [(HEADER, [])] HEADER [] NH eq_refl)
    as (s' & R & _ & One).
  assert (R2 : foldM detect_step lines seg_init = Some (s', HEADER))
    by exact R.
  unfold detect_lines. rewrite R2. cbn [obind fst option_map].
  rewrite (One [] eq_refl). cbn [app]. rewrite E. f_equal.
  pose proof (nonblank_lines_trimmed lines) as T. rewrite E in T.
  inversion T as [|? ? [Nf Tf] Tr]; subst.
  assert (Nu : upper first <> []) by (destruct first; [congruence | discriminate]).
  pose proof (trimmed_upper first Tf) as Tu.
  unfold format_sections. cbn [flat_map]. rewrite app_nil_r.
  unfold format_block. rewrite str_eqb_refl. cbn [negb].
  destruct rest as [|r rs].
  - cbn [length Nat.ltb Nat.leb concat]. rewrite !app_nil_r.
    apply (strip_trimmed_app (upper first) (NL ++ NL) Tu eq_refl).
  - cbn [length Nat.ltb Nat.leb concat]. rewrite app_nil_r.
    destruct (join_lines_end r rs Tr) as [Nj Tj].
    replace ((upper first ++ NL ++ NL) ++ join NL (r :: rs) ++ NL)
      with ((upper first ++ (NL ++ NL) ++ join NL (r :: rs)) ++ NL)
      by (rewrite <- !app_assoc; reflexivity).
    rewrite strip_trimmed_app.
    + rewrite <- !app_assoc. reflexivity.
    + apply trimmed_between; auto. apply Tu. 
    + reflexivity.
Qed.

Lemma plain_document_witness :
  option_map (format_sections (lit "*"))
    (detect_lines (map lit ["  Jane Roe "; ""; "jane@example.org";
                            " Berlin"]%string))
  = Some (lit "JANE ROE" ++ NL ++ NL ++ lit "jane@example.org" ++ NL
          ++ lit "Berlin").
Proof.
  apply (plain_document (lit "*")
           (map lit ["  Jane Roe "; ""; "jane@example.org"; " Berlin"]%string)
           (lit "Jane Roe") [lit "jane@example.org"; lit "Berlin"]);
    reflexivity.
Defined.

(** ** Extraction with the OCR fallback *)

Lemma structure_total : forall bullet text,
  exists sections,
    detect_sections text = Some sections
    /\ structure bullet text = inl (format_sections bullet sections).
Proof.
  intros bullet text.
  destruct (detect_loop_inv (split newline text) seg_init seg_inv_init)
    as (st & E & _).
  exists (fst st). unfold structure, detect_sections, detect_lines.
  rewrite E. split; reflexivity.
Qed.

Lemma ocr_pages_spec : forall (image : Type) (ocr : image -> str + str)
    images full_text notices,
  ocr_pages image ocr images full_text notices
  = (full_text ++ recognized ocr images,
     notices ++ page_warnings ocr images).
Proof.
  intros image ocr images.
  induction images as [|img images IH]; intros full_text notices; simpl.
  - rewrite !app_nil_r. reflexivity.
  - destruct (ocr img) as [text|e]; rewrite IH, <- app_assoc; reflexivity.
Qed.

Lemma ocr_attempt_value : forall (image : Type) bullet
    (convert_from_path : nat -> list image + str) ocr,
  ocr_attempt image bullet convert_from_path ocr
  = match convert_from_path 300 with
    | inl images =>
        (ocr_value bullet (recognized ocr images), page_warnings ocr images)
    | inr e1 =>
        match convert_from_path 200 with
        | inl images =>
            (ocr_value bullet (recognized ocr images),
             Warning (lit "PDF conversion warning: " ++ e1)
             :: page_warnings ocr images)
        | inr e2 =>
            (lit "Extraction failed",
             [Warning (lit "PDF conversion warning: " ++ e1);
              Error (lit "OCR failed: " ++ e2)])
        end
    end.
Proof.
  intros image bullet convert_from_path ocr. unfold ocr_attempt.
  assert (V : forall images notices,
            (let '(full_text, notices0) :=
               ocr_pages image ocr images [] notices in
             match full_text with
             | [] => (lit "OCR completed but no text extracted", notices0)
             | _ :: _ =>
                 match structure bullet (join NL full_text) with
                 | inl formatted => (formatted, notices0)
                 | inr e =>
                     (lit "Extraction failed",
                      notices0 ++ [Error (lit "OCR failed: " ++ e)])
                 end
             end)
            = (ocr_value bullet (recognized ocr images),
               notices ++ page_warnings ocr images)).
  { intros images notices. rewrite ocr_pages_spec. cbn [app].
    unfold ocr_value. destruct (recognized ocr images) as [|t ts];
      [reflexivity|].
    destruct (structure_total bullet (join NL (t :: ts))) as (s & D & S).
    rewrite S, D. reflexivity. }
  destruct (convert_from_path 300) as [images|e1].
  - apply (V images []).
  - destruct (convert_from_path 200) as [images|e2].
    + apply (V images).
    + reflexivity.
Qed.

Lemma page_warnings_no_error : forall (image : Type)
    (ocr : image -> str + str) images,
  existsb is_error (page_warnings ocr images) = false.
Proof.
  intros image ocr images. induction images as [|img images IH]; simpl.
  - reflexivity.
  - rewrite existsb_app, IH. destruct (ocr img); reflexivity.
Qed.

(** X17. The digital text decides by its number of words: with more than
    fifty it is segmented, formatted and returned, no notice is shown and
    the OCR collaborators play no part; with fifty or fewer it is
    discarded, and the result is that of the OCR attempt alone. *)
Theorem digital_text_gate : forall (image : Type) bullet text
    (convert_from_path : nat -> list image + str) ocr,
  (50 < length (words (strip text)) ->
   exists sections,
     detect_sections text = Some sections
     /\ extract_text_with_structure image bullet (inl text)
          convert_from_path ocr
        = (format_sections bullet sections, []))
  /\ (length (words (strip text)) <= 50 ->
      extract_text_with_structure image bullet (inl text)
        convert_from_path ocr
      = ocr_attempt image bullet convert_from_path ocr).
Proof.
  intros image bullet text convert_from_path ocr.
  unfold extract_text_with_structure. split; intros H.
  - apply Nat.ltb_lt in H. rewrite H.
    destruct (structure_total bullet text) as (s & D & S).
    exists s. rewrite S. split; [exact D | reflexivity].
  - apply Nat.ltb_ge in H. rewrite H. reflexivity.
Qed.

Lemma digital_text_gate_witness :
  extract_text_with_structure nat (lit "*")
    (inl (lit "Jane Roe" ++ NL ++ lit "Skills" ++ NL ++ lit "Rocq"))
    (fun _ => inr (lit "no poppler")) (fun _ => inl [])
  = (lit "Extraction failed",
     [Warning (lit "PDF conversion warning: no poppler");
      Error (lit "OCR failed: no poppler")]).
Proof.
  destruct (digital_text_gate nat (lit "*")
              (lit "Jane Roe" ++ NL ++ lit "Skills" ++ NL ++ lit "Rocq")
              (fun _ => inr (lit "no poppler")) (fun _ => inl []))
    as [_ H].
  refine (eq_trans (H _) _); [vm_compute; lia | reflexivity].
Defined.

(** X18. The OCR attempt: the pages whose recognition raises are skipped
    with one warning each, the texts of the others are joined by newlines,
    segmented and formatted; with no recognized page the value is the
    message "OCR completed but no text extracted".  The conversion at 200
    dpi is tried only when the one at 300 dpi raises, and only when both
    raise is the value "Extraction failed". *)
Theorem ocr_attempt_outcomes : forall (image : Type) bullet
    (convert_from_path : nat -> list image + str) ocr,
  exists value notices,
    ocr_attempt image bullet convert_from_path ocr = (value, notices)
    /\ match convert_from_path 300, convert_from_path 200 with
       | inl images, _ =>
           notices = page_warnings ocr images
           /\ match recognized ocr images with
              | [] => value = lit "OCR completed but no text extracted"
              | texts =>
                  option_map (format_sections bullet)
                    (detect_sections (join NL texts)) = Some value
              end
       | inr e1, inl images =>
           notices = Warning (lit "PDF conversion warning: " ++ e1)
                     :: page_warnings ocr images
           /\ match recognized ocr images with
              | [] => value = lit "OCR completed but no text extracted"
              | texts =>
                  option_map (format_sections bullet)
                    (detect_sections (join NL texts)) = Some value
              end
       | inr e1, inr e2 =>
           value = lit "Extraction failed"
           /\ notices = [Warning (lit "PDF conversion warning: " ++ e1);
                         Error (lit "OCR failed: " ++ e2)]
       end.
Proof.
  intros image bullet convert_from_path ocr.
  rewrite ocr_attempt_value.
  assert (V : forall texts,
            match texts with
            | [] => ocr_value bullet texts
                    = lit "OCR completed but no text extracted"
            | _ :: _ =>
                option_map (format_sections bullet)
                  (detect_sections (join NL texts))
                = Some (ocr_value bullet texts)
            end).
  { intros [|t ts]; [reflexivity|]. unfold ocr_value.
    destruct (structure_total bullet (join NL (t :: ts))) as (s & D & _).
    rewrite D. reflexivity. }
  destruct (convert_from_path 300) as [images|e1].
  - do 2 eexists. split; [reflexivity|]. split; [reflexivity|].
    pose proof (V (recognized ocr images)) as V'.
    destruct (recognized ocr images); exact V'.
  - destruct (convert_from_path 200) as [images|e2].
    + do 2 eexists. split; [reflexivity|]. split; [reflexivity|].
      pose proof (V (recognized ocr images)) as V'.
    destruct (recognized ocr images); exact V'.
    + do 2 eexists. split; [reflexivity|]. split; reflexivity.
Qed.

(** X19. An error notice is shown exactly when the digital text is not
    used and both conversions to images raise; the value returned is then
    "Extraction failed". *)
Theorem error_notice_iff : forall (image : Type) bullet extract_text
    (convert_from_path : nat -> list image + str) ocr,
  (existsb is_error
     (snd (extract_text_with_structure image bullet extract_text
             convert_from_path ocr)) = true
   <-> digital_unused extract_text
       /\ exists e1 e2,
            convert_from_path 300 = inr e1 /\ convert_from_path 200 = inr e2)
  /\ (existsb is_error
        (snd (extract_text_with_structure image bullet extract_text
                convert_from_path ocr)) = true ->
      fst (extract_text_with_structure image bullet extract_text
             convert_from_path ocr) = lit "Extraction failed").
Proof.
  intros image bullet extract_text convert_from_path ocr.
  assert (A : existsb is_error
                (snd (ocr_attempt image bullet convert_from_path ocr)) = true
              <-> exists e1 e2, convert_from_path 300 = inr e1
                                /\ convert_from_path 200 = inr e2).
  { rewrite ocr_attempt_value.
    destruct (convert_from_path 300) as [images|e1].
    - cbn [snd]. rewrite page_warnings_no_error. split; [discriminate|].
      intros (e1 & e2 & X & _). discriminate.
    - destruct (convert_from_path 200) as [images|e2]; cbn [snd].
      + cbn [existsb is_error orb]. rewrite page_warnings_no_error.
        split; [discriminate|]. intros (x & y & _ & Y). discriminate.
      + split; [eauto | reflexivity]. }
  assert (B : existsb is_error
                (snd (ocr_attempt image bullet convert_from_path ocr)) = true
              -> fst (ocr_attempt image bullet convert_from_path ocr)
                 = lit "Extraction failed").
  { intros H. apply A in H as (e1 & e2 & X & Y).
    rewrite ocr_attempt_value, X, Y. reflexivity. }
  unfold extract_text_with_structure, digital_unused.
  destruct extract_text as [text|e].
  - destruct (Nat.ltb_spec 50 (length (words (strip text)))) as [L|L].
    + destruct (structure_total bullet text) as (s & _ & S). rewrite S.
      cbn [snd existsb]. split.
      * split; [discriminate|]. intros [G _]. lia.
      * discriminate.
    + split; [|exact B]. rewrite A. split; [intros H; split; [lia | exact H]|].
      intros [_ H]. exact H.
  - destruct (ocr_attempt image bullet convert_from_path ocr)
      as [r notices] eqn:O.
    cbn [fst snd existsb is_error orb] in *. split; [|exact B].
    rewrite A. split; [intros H; split; [exact I | exact H]|].
    intros [_ H]. exact H.
Qed.

Lemma blank_join : forall texts,
  Forall (fun t => forallb isspace t = true) texts ->
  forallb isspace (join NL texts) = true.
Proof.
  induction 1 as [|t texts H F IH]; [reflexivity|].
  destruct texts as [|t' texts]; [exact H|].
  change (join NL (t :: t' :: texts)) with (t ++ NL ++ join NL (t' :: texts)).
  rewrite !forallb_app, H, IH. reflexivity.
Qed.

(** X20. Pages that are recognized but hold whitespace only give the empty
    string, not the message for a text that could not be extracted: it
    takes one recognized page, blank or not, to leave the message out. *)
Theorem blank_scan_empty : forall (image : Type) bullet
    (convert_from_path : nat -> list image + str) ocr images,
  convert_from_path 300 = inl images ->
  recognized ocr images <> [] ->
  Forall (fun t => forallb isspace t = true) (recognized ocr images) ->
  ocr_attempt image bullet convert_from_path ocr
  = ([], page_warnings ocr images).
Proof.
  intros image bullet convert_from_path ocr images C N B.
  rewrite ocr_attempt_value, C. f_equal.
  unfold ocr_value. destruct (recognized ocr images) as [|t ts];
    [congruence|].
  rewrite (detect_sections_blank _ (blank_join _ B)). reflexivity.
Qed.

Lemma blank_scan_empty_witness :
  ocr_attempt nat (lit "*") (fun _ => inl [1; 2; 3])
    (fun n => if n =? 2 then inr (lit "bad page") else inl (lit "  "))
  = ([], [Warning (lit "OCR processing warning: bad page")]).
Proof.
  apply (blank_scan_empty nat (lit "*") (fun _ => inl [1; 2; 3])
           (fun n => if n =? 2 then inr (lit "bad page") else inl (lit "  "))
           [1; 2; 3]).
  - reflexivity.
  - vm_compute. discriminate.
  - repeat constructor.
Defined.

(** ** The section segmenter: what each section holds *)

Lemma detect_step_strip : forall st raw,
  detect_step st (strip raw) = detect_step st raw.
Proof.
  intros [s cur] raw. unfold detect_step. rewrite strip_idem. reflexivity.
Qed.

(** X21. Blank lines and the whitespace around the lines never matter:
    the segmenter gives the same map on the lines and on the non-blank
    lines, stripped. *)
Theorem detect_lines_nonblank : forall lines,
  detect_lines (nonblank_lines lines) = detect_lines lines.
Proof.
  intros lines. unfold detect_lines. f_equal.
  generalize seg_init.
  induction lines as [|raw lines IH]; intros st; [reflexivity|].
  unfold nonblank_lines. cbn [map filter]. fold (nonblank_lines lines).
  destruct (strip raw) as [|c l] eqn:S; cbn [is_empty negb foldM].
  - destruct st as [s cur].
    destruct (detect_step_cases s cur raw)
      as [[_ E] | [(header & N & _) | (N & _)]]; try congruence.
    rewrite E. cbn [obind]. apply IH.
  - rewrite <- S, detect_step_strip.
    destruct (detect_step st raw); cbn [obind]; [apply IH | reflexivity].
Qed.

Lemma opens_false : forall label raw header,
  opens label raw = false -> find_header (strip raw) = Some header ->
  upper header <> label.
Proof.
  intros label raw header O F. unfold opens in O. rewrite F in O.
  destruct (str_eqb_spec (upper header) label); [discriminate | assumption].
Qed.

(** While no line opens [label] and another section is current, the
    content under [label] stays as it is. *)
Lemma detect_loop_frozen : forall label lines s cur,
  cur <> label ->
  (exists c, od_get cur s = Some c) ->
  forallb (fun raw => negb (opens label raw)) lines = true ->
  exists s' cur',
    foldM detect_step lines (s, cur) = Some (s', cur')
    /\ od_get label s' = od_get label s.
Proof.
  intros label lines.
  induction lines as [|raw lines IH]; intros s cur N (c & G) H.
  - exists s, cur. split; reflexivity.
  - simpl in H. apply andb_true_iff in H as [H1 H2].
    apply negb_true_iff in H1. cbn [foldM].
    destruct (detect_step_cases s cur raw)
      as [[_ E] | [(header & _ & F & E) | (_ & _ & E)]]; rewrite E.
    + cbn [obind]. apply IH; eauto.
    + cbn [obind]. pose proof (opens_false label raw header H1 F) as N'.
      destruct (IH (od_set (upper header) [] s) (upper header) N'
                  (ex_intro _ [] (od_get_set_same _ _ _)) H2)
        as (s' & cur' & R & K).
      exists s', cur'. split; [exact R|].
      rewrite K. apply od_get_set_other. congruence.
    + rewrite G. cbn [obind].
      destruct (IH (od_set cur (c ++ [strip raw]) s) cur N
                  (ex_intro _ _ (od_get_set_same _ _ _)) H2)
        as (s' & cur' & R & K).
      exists s', cur'. split; [exact R|].
      rewrite K. apply od_get_set_other. congruence.
Qed.

(** After a run of lines without headers that fills [label], lines that
    start with a header and never open [label] leave its content alone. *)
Lemma detect_loop_after : forall label rest s content,
  od_get label s = Some content ->
  starts_with_header rest = true ->
  forallb (fun raw => negb (opens label raw)) rest = true ->
  exists s' cur',
    foldM detect_step rest (s, label) = Some (s', cur')
    /\ od_get label s' = Some content.
Proof.
  intros label [|r rest] s content G S H.
  - exists s, label. split; [reflexivity | exact G].
  - simpl in S, H. apply andb_true_iff in H as [H1 H2].
    apply negb_true_iff in H1. unfold is_header_line in S.
    destruct (find_header (strip r)) as [header|] eqn:F; [|discriminate].
    pose proof (opens_false label r header H1 F) as N.
    cbn [foldM].
    destruct (detect_step_cases s label r)
      as [[B _] | [(header' & _ & F' & E) | (_ & F' & _)]].
    + rewrite B, find_header_blank in F. discriminate.
    + assert (header' = header) by congruence. subst header'.
      rewrite E. cbn [obind].
      destruct (detect_loop_frozen label rest
                  (od_set (upper header) [] s) (upper header) N
                  (ex_intro _ [] (od_get_set_same _ _ _)) H2)
        as (s' & cur' & R & K).
      exists s', cur'. split; [exact R|].
      rewrite K, od_get_set_other by congruence. exact G.
    + congruence.
Qed.

(** X22. The content of a section is the non-blank lines between the
    last line that opens it and the next header line: if a line matches a
    phrase, the lines after it up to the next header line are [mid], and
    no later line opens the same section, the map holds [mid] (non-blank,
    stripped) under the phrase's label. *)
Theorem section_between_headers : forall pre h mid rest header,
  find_header (strip h) = Some header ->
  forallb (fun raw => negb (is_header_line raw)) mid = true ->
  starts_with_header rest = true ->
  forallb (fun raw => negb (opens (upper header) raw)) rest = true ->
  exists d,
    detect_lines (pre ++ h :: mid ++ rest) = Some d
    /\ od_get (upper header) d = Some (nonblank_lines mid).
Proof.
  intros pre h mid rest header F NH S NO.
  destruct (detect_loop_inv pre seg_init seg_inv_init) as ([s1 c1] & E1 & _).
  assert (Step : detect_step (s1, c1) h
                 = Some (od_set (upper header) [] s1, upper header)).
  { destruct (detect_step_cases s1 c1 h)
      as [[B _] | [(header' & _ & F' & E) | (_ & F' & _)]].
    - rewrite B, find_header_blank in F. discriminate.
    - congruence.
    - congruence. }
  destruct (detect_loop_no_header mid (od_set (upper header) [] s1)
              (upper header) [] NH (od_get_set_same _ _ _))
    as (s2 & E2 & G2 & _).
  destruct (detect_loop_after (upper header) rest s2 _ G2 S NO)
    as (s3 & c3 & E3 & G3).
  exists s3. unfold detect_lines.
  rewrite foldM_app, E1. cbn [obind foldM]. rewrite Step. cbn [obind].
  rewrite foldM_app, E2. cbn [obind]. rewrite E3. cbn [obind fst].
  split; [reflexivity | exact G3].
Qed.

Lemma section_between_headers_witness :
  exists d,
    detect_lines (map lit ["Skills"; "C"; "Education"; "BSc"; "Skills";
                           "Rocq"; ""; "OCaml"; "References";
                           "on request"]%string) = Some d
    /\ od_get (lit "SKILLS") d = Some [lit "Rocq"; lit "OCaml"].
Proof.
  apply (section_between_headers
           (map lit ["Skills"; "C"; "Education"; "BSc"]%string)
           (lit "Skills") (map lit ["Rocq"; ""; "OCaml"]%string)
           (map lit ["References"; "on request"]%string) (lit "skills"));
    reflexivity.
Defined.

Lemma header_never_opened : forall raw, opens HEADER raw = false.
Proof.
  assert (V : forallb (fun h => negb (str_eqb (upper h) HEADER))
                section_headers = true) by reflexivity.
  intros raw. unfold opens.
  destruct (find_header (strip raw)) as [header|] eqn:F; [|reflexivity].
  apply find_some in F as [I _].
  apply negb_true_iff. exact (proj1 (forallb_forall _ _) V header I).
Qed.

(** X23. The [HEADER] section holds the non-blank lines that come before
    the first header line, whatever follows: no line opens it again. *)
Theorem header_section_content : forall pre rest,
  forallb (fun raw => negb (is_header_line raw)) pre = true ->
  starts_with_header rest = true ->
  exists d,
    detect_lines (pre ++ rest) = Some d
    /\ od_get HEADER d = Some (nonblank_lines pre).
Proof.
  intros pre rest NH S.
  destruct (detect_loop_no_header pre [(HEADER, [])] HEADER [] NH eq_refl)
    as (s1 & E1 & G1 & _).
  assert (E1' : foldM detect_step pre seg_init = Some (s1, HEADER))
    by exact E1.
  assert (NO : forallb (fun raw => negb (opens HEADER raw)) rest = true).
  { apply forallb_forall. intros raw _. rewrite header_never_opened.
    reflexivity. }
  destruct (detect_loop_after HEADER rest s1 _ G1 S NO)
    as (s2 & c2 & E2 & G2).
  exists s2. unfold detect_lines.
  rewrite foldM_app, E1'. cbn [obind]. rewrite E2. cbn [obind fst].
  split; [reflexivity | exact G2].
Qed.

Lemma header_section_content_witness :
  exists d,
    detect_lines (map lit ["Jane Roe"; " Berlin "; "Skills"; "Rocq";
                           "Contact"; "jane@example.org"]%string) = Some d
    /\ od_get HEADER d = Some [lit "Jane Roe"; lit "Berlin"].
Proof.
  apply (header_section_content
           (map lit ["Jane Roe"; " Berlin "]%string)
           (map lit ["Skills"; "Rocq"; "Contact";
                     "jane@example.org"]%string));
    reflexivity.
Defined.

(** ** The accuracy scorer: full marks

    The same from below: a value that is at least [L * 2^eK] rounds to a
    float that is at least [L * 2^eK]. *)

Local Open Scope Z_scope.

Lemma Zdigits2_mono : forall a b, 0 <= a <= b -> Zdigits2 a <= Zdigits2 b.
Proof.
  intros [|a|a] [|b|b] H; simpl; try lia.
  destruct (digits2_pos_bounds a) as [La _].
  destruct (digits2_pos_bounds b) as [_ Ub].
  assert (X : 2 ^ (Zpos (digits2_pos a) - 1) < 2 ^ Zpos (digits2_pos b))
    by lia.
  apply Z.pow_lt_mono_r_iff in X; lia.
Qed.

Section Within.

Variables L K eK : Z.
Hypothesis L_pos : 0 < L.
Hypothesis K_range : 0 < K < 2 ^ prec.
Hypothesis eK_range : emin prec emax <= eK <= emax - prec.

Lemma shr_fexp_above : forall m e l,
  0 <= m -> e <= eK -> m <= K * 2 ^ (eK - e) -> L * 2 ^ (eK - e) <= m ->
  forall mrs' e', shr_fexp prec emax m e l = (mrs', e') ->
  L * 2 ^ (eK - e') <= shr_m mrs'.
Proof.
  intros m e l M E B A mrs' e' S. unfold shr_fexp, shr in S.
  pose proof (fexp_below K eK K_range eK_range m e M E B) as F.
  assert (X : shr_m (shr_record_of_loc m l) = m)
    by (destruct l as [|[| |]]; reflexivity).
  destruct (fexp prec emax (Zdigits2 m + e) - e) as [|p|p] eqn:N;
    inversion S; subst; clear S.
  - rewrite X. exact A.
  - rewrite iter_pos_nat.
    destruct (shr_iter (Pos.to_nat p) (shr_record_of_loc m l)
                ltac:(rewrite X; exact M)) as [Em _].
    rewrite positive_nat_Z, X in Em. rewrite Em.
    assert (P2 : 0 < 2 ^ Zpos p) by (apply Z.pow_pos_nonneg; lia).
    apply Z.div_le_lower_bound; [exact P2|].
    replace (eK - e) with (eK - (e + Zpos p) + Zpos p) in A by lia.
    rewrite Z.pow_add_r in A by lia. lia.
  - rewrite X. exact A.
Qed.

Lemma binary_round_aux_within : forall mx ex lx,
  0 <= mx -> ex <= eK -> mx <= K * 2 ^ (eK - ex) ->
  (lx <> loc_Exact -> mx + 1 <= K * 2 ^ (eK - ex)) ->
  L * 2 ^ (eK - ex) <= mx ->
  within L K eK (binary_round_aux prec emax false mx ex lx).
Proof.
  intros mx ex lx M E B BI A. unfold binary_round_aux.
  destruct (shr_fexp prec emax mx ex lx) as [mrs' e'] eqn:S1.
  destruct (shr_fexp_below K eK K_range eK_range mx ex lx M E B BI
              mrs' e' S1) as (E1 & M1 & R1).
  pose proof (shr_fexp_above mx ex lx M E B A mrs' e' S1) as A1.
  set (R := round_nearest_even (shr_m mrs') (loc_of_shr_record mrs')) in *.
  assert (RL : shr_m mrs' <= R).
  { destruct (round_nearest_even_range (shr_m mrs')
                (loc_of_shr_record mrs')) as [[X _] _]. exact X. }
  assert (R0 : 0 <= R) by lia.
  destruct (shr_fexp prec emax R e' loc_Exact) as [mrs'' e''] eqn:S2.
  destruct (shr_fexp_below K eK K_range eK_range R e' loc_Exact R0 E1 R1
              ltac:(intros X; congruence) mrs'' e'' S2) as (E2 & M2 & R2).
  pose proof (shr_fexp_above R e' loc_Exact R0 E1 R1 ltac:(lia)
                mrs'' e'' S2) as A2.
  destruct (round_nearest_even_range (shr_m mrs'')
              (loc_of_shr_record mrs'')) as [[L2 _] _].
  assert (P : 0 < 2 ^ (eK - e'')) by (apply Z.pow_pos_nonneg; lia).
  destruct (shr_m mrs'') as [|m|m] eqn:Em; cbv beta iota.
  - nia.
  - assert (Le : (e'' <=? emax - prec) = true) by (apply Z.leb_le; lia).
    rewrite Le. split; [exact E2 | lia].
  - lia.
Qed.

Lemma binary_round_within : forall m e,
  e <= eK -> L * 2 ^ (eK - e) <= Zpos m <= K * 2 ^ (eK - e) ->
  within L K eK (binary_round prec emax false m e).
Proof.
  intros m e E [A B]. unfold binary_round.
  destruct (shl_align m e (fexp prec emax (Zpos (digits2_pos m) + e)))
    as [mz ez] eqn:S.
  destruct (shl_align_spec _ _ _ _ _ S) as (Ez & Mz & _).
  assert (P : 0 < 2 ^ (e - ez)) by (apply Z.pow_pos_nonneg; lia).
  assert (X : 2 ^ (eK - ez) = 2 ^ (eK - e) * 2 ^ (e - ez)).
  { rewrite <- Z.pow_add_r by lia. f_equal. lia. }
  apply binary_round_aux_within.
  - lia.
  - lia.
  - rewrite Mz, X. nia.
  - intros N. congruence.
  - rewrite Mz, X. nia.
Qed.

End Within.

(** A quotient of at most [2^-15]. *)
Lemma int_truediv_small : forall d m,
  0 <= d -> 0 < m -> d * 2 ^ 15 <= m -> below 1 (-15) (int_truediv d m).
Proof.
  intros d m D0 M DM. unfold int_truediv.
  destruct m as [|pm|pm]; try lia.
  destruct d as [|pd|pd]; try lia; [exact I|].
  cbn [Z2SF SFdiv xorb]. unfold SFdiv_core_binary.
  set (e' := Z.min (fexp prec emax (Zdigits2 (Zpos pd) + 0
                                    - (Zdigits2 (Zpos pm) + 0))) (0 - 0)).
  assert (E : e' <= -15).
  { pose proof (Zdigits2_mono (Zpos pd) (Zpos pm) ltac:(lia)) as G.
    unfold e', fexp, emin, prec, emax. lia. }
  assert (S : 0 - 0 - e' = - e') by lia. rewrite S.
  set (m' := match - e' with
             | 0 => Zpos pd
             | Zpos _ => Z.shiftl (Zpos pd) (- e')
             | Zneg _ => 0
             end).
  assert (Em : m' = Zpos pd * 2 ^ (- e')).
  { unfold m'. destruct (- e') as [|p|p] eqn:N; try lia.
    apply Z.shiftl_mul_pow2. lia. }
  pose proof (Z_div_mod m' (Zpos pm) ltac:(lia)) as DM'.
  destruct (Z.div_eucl m' (Zpos pm)) as [q r]. destruct DM' as [Eq Rr].
  assert (P : 0 < 2 ^ (-15 - e')) by (apply Z.pow_pos_nonneg; lia).
  assert (X : 2 ^ (- e') = 2 ^ 15 * 2 ^ (-15 - e')).
  { rewrite <- Z.pow_add_r by lia. f_equal. lia. }
  assert (Q0 : 0 <= q) by nia.
  assert (m15 : -15 - e' = -15 - e') by reflexivity.
  apply (binary_round_aux_below 1 (-15) one_range ltac:(split; discriminate)).
  - exact Q0.
  - exact E.
  - rewrite Z.mul_1_l. rewrite Em, X in Eq. nia.
  - intros N. rewrite Z.mul_1_l.
    assert (R : r <> 0) by (intros ->; apply N, new_location_zero).
    rewrite Em, X in Eq. nia.
Qed.

Lemma K15_range : 0 < 2 ^ 15 < 2 ^ prec.
Proof. split; reflexivity. Qed.

Lemma e15_range : emin prec emax <= -15 <= emax - prec.
Proof. split; discriminate. Qed.

(** [1 - q] is at least [1 - 2^-15] when [q] is at most [2^-15]. *)
Lemma sub_one_within : forall q,
  below 1 (-15) q ->
  within (2 ^ 15 - 1) (2 ^ 15) (-15) (SFsub prec emax float_one q).
Proof.
  intros q H. rewrite float_one_eq.
  destruct q as [[|]|[|]| |[|] mq eq]; try contradiction.
  - split; [lia | split; vm_compute; discriminate].
  - destruct H as [E B]. rewrite Z.mul_1_l in B.
    cbn [SFsub cond_Zopp].
    set (ez := Z.min (-52) eq).
    destruct (shl_align 4503599627370496 (-52) ez) as [ma ea] eqn:Sa.
    destruct (shl_align mq eq ez) as [mb eb] eqn:Sb.
    destruct (shl_align_spec _ _ _ _ _ Sa) as (_ & Ma & Ea).
    destruct (shl_align_spec _ _ _ _ _ Sb) as (_ & Mb & Eb).
    rewrite (Ea ltac:(unfold ez; lia)) in Ma.
    rewrite (Eb ltac:(unfold ez; lia)) in Mb.
    cbn [fst].
    assert (Z52 : ez <= -52) by (unfold ez; lia).
    assert (Zq : ez <= eq) by (unfold ez; lia).
    assert (P : 0 < 2 ^ (-15 - ez)) by (apply Z.pow_pos_nonneg; lia).
    assert (A : Zpos ma = 2 ^ 15 * 2 ^ (-15 - ez)).
    { rewrite Ma. change 4503599627370496 with (2 ^ 52).
      rewrite <- !Z.pow_add_r by lia. f_equal. lia. }
    assert (Bq : 0 < Zpos mb <= 2 ^ (-15 - ez)).
    { split; [lia|]. rewrite Mb.
      replace (-15 - ez) with (-15 - eq + (eq - ez)) by lia.
      rewrite Z.pow_add_r by lia.
      assert (0 < 2 ^ (eq - ez)) by (apply Z.pow_pos_nonneg; lia). nia. }
    unfold binary_normalize.
    destruct (Zpos ma - Zpos mb) as [|pD|pD] eqn:D.
    + exfalso. change (2 ^ 15) with 32768 in A. lia.
    + apply (binary_round_within (2 ^ 15 - 1) (2 ^ 15) (-15)
               ltac:(reflexivity) K15_range e15_range).
      * lia.
      * change (2 ^ 15) with 32768 in *. lia.
    + exfalso. change (2 ^ 15) with 32768 in A. lia.
Qed.

Lemma K13_range : 0 < 25 * 2 ^ 15 < 2 ^ prec.
Proof. split; reflexivity. Qed.

Lemma e13_range : emin prec emax <= -13 <= emax - prec.
Proof. split; discriminate. Qed.

Lemma mul_hundred_within : forall s,
  within (2 ^ 15 - 1) (2 ^ 15) (-15) s ->
  within (25 * (2 ^ 15 - 1)) (25 * 2 ^ 15) (-13)
    (SFmul prec emax s float_hundred).
Proof.
  intros s H. rewrite float_hundred_eq.
  destruct s as [[|]|[|]| |[|] ms es]; try contradiction.
  destruct H as [E [A B]]. cbn [SFmul xorb].
  assert (P : 0 < 2 ^ (-15 - es)) by (apply Z.pow_pos_nonneg; lia).
  assert (X : 2 ^ (-13 - (es + -46)) = 2 ^ 48 * 2 ^ (-15 - es)).
  { rewrite <- Z.pow_add_r by lia. f_equal. lia. }
  apply (binary_round_aux_within (25 * (2 ^ 15 - 1)) (25 * 2 ^ 15) (-13)
           ltac:(reflexivity) K13_range e13_range).
  - lia.
  - lia.
  - rewrite Pos2Z.inj_mul, X.
    change (2 ^ 48) with 281474976710656. change (2 ^ 15) with 32768 in *.
    lia.
  - intros N. congruence.
  - rewrite Pos2Z.inj_mul, X.
    change (2 ^ 48) with 281474976710656. change (2 ^ 15) with 32768 in *.
    lia.
Qed.

Lemma round_half_even_near : forall (x : Q) (k : Z),
  (inject_Z k - (1 # 2) < x)%Q -> (x <= inject_Z k)%Q ->
  round_half_even x = k.
Proof.
  intros [n d] k L U. unfold Qlt, Qle, Qminus, Qplus, Qopp in L, U.
  cbn [Qnum Qden inject_Z] in L, U.
  assert (L' : ((2 * k - 1) * Zpos d < 2 * n)%Z) by lia.
  assert (U' : (n <= k * Zpos d)%Z) by lia.
  clear L U. unfold round_half_even. cbn [Qnum Qden].
  pose proof (Z.div_mod n (Zpos d) ltac:(lia)) as DM.
  pose proof (Z.mod_pos_bound n (Zpos d) ltac:(lia)) as MB.
  set (f := (n / Zpos d)%Z) in *. set (r := (n mod Zpos d)%Z) in *.
  assert (F1 : (f <= k)%Z) by nia.
  assert (F2 : (k - 1 <= f)%Z) by nia.
  assert (C : ((f = k /\ r = 0) \/ (f = k - 1 /\ Zpos d < 2 * r))%Z).
  { destruct (Z.eq_dec f k) as [->|N]; [left | right]; split; nia. }
  destruct (Z.compare_spec (2 * r) (Zpos d)); [destruct (Z.even f)| |];
    lia.
Qed.

Lemma round2_full_marks : forall x,
  within (25 * (2 ^ 15 - 1)) (25 * 2 ^ 15) (-13) x ->
  round2 x = float_hundred.
Proof.
  intros x H. destruct x as [[|]|[|]| |[|] m e]; try contradiction.
  destruct H as [E [A B]]. unfold round2.
  rewrite (round_half_even_near _ 10000).
  - vm_compute. reflexivity.
  - unfold SF2Q. destruct e as [|p|n]; try lia.
    assert (P : 0 < 2 ^ (-13 - Zneg n)) by (apply Z.pow_pos_nonneg; lia).
    assert (X : 2 ^ Zpos n = 2 ^ 13 * 2 ^ (-13 - Zneg n)).
    { rewrite <- Z.pow_add_r by lia. f_equal. lia. }
    unfold Qlt, Qminus, Qplus, Qopp, Qmult, inject_Z. cbn [Qnum Qden].
    rewrite !Pos2Z.inj_mul, Pos2Z.inj_pow, X.
    change (2 ^ 13) with 8192. change (2 ^ 15) with 32768 in *. nia.
  - unfold SF2Q. destruct e as [|p|n]; try lia.
    assert (P : 0 < 2 ^ (-13 - Zneg n)) by (apply Z.pow_pos_nonneg; lia).
    assert (X : 2 ^ Zpos n = 2 ^ 13 * 2 ^ (-13 - Zneg n)).
    { rewrite <- Z.pow_add_r by lia. f_equal. lia. }
    unfold Qle, Qmult, inject_Z. cbn [Qnum Qden].
    rewrite !Pos2Z.inj_mul, Pos2Z.inj_pow, X.
    change (2 ^ 13) with 8192. change (2 ^ 15) with 32768 in *. nia.
Qed.

(** The score is 100.0 as soon as the distance is at most [m / 32768]. *)
Lemma percentage_full_marks : forall d m : nat,
  (0 < m)%nat -> Z.of_nat d * 2 ^ 15 <= Z.of_nat m ->
  round2 (percentage d m) = float_hundred.
Proof.
  intros d m M DM. unfold percentage.
  apply round2_full_marks, mul_hundred_within, sub_one_within,
    int_truediv_small; lia.
Qed.

Local Close Scope Z_scope.

Lemma edits_refl : forall a, edits a a 0.
Proof. induction a; constructor; assumption. Qed.

(** X24. A score of 100.0 does not tell that the normalized texts are
    equal: when they are [n] edits apart and the longer one has at least
    [32768 * n] characters, the float [(1 - d/m) * 100] rounds to 100.0;
    the distance returned beside it is 0 only for equal normalized
    texts. *)
Theorem full_marks_despite_edits : forall e g n,
  normalize_text e <> [] -> normalize_text g <> [] ->
  edits (normalize_text e) (normalize_text g) n ->
  (32768 * Z.of_nat n
   <= Z.of_nat (Nat.max (length (normalize_text e))
                  (length (normalize_text g))))%Z ->
  exists d,
    calculate_accuracy e g
    = Some [PFloat float_hundred; PStr (normalize_text e);
            PStr (normalize_text g); PInt d;
            PInt (Nat.max (length (normalize_text e))
                    (length (normalize_text g)))]
    /\ d <= n
    /\ (d = 0 <-> normalize_text e = normalize_text g).
Proof.
  intros e g n He Hg Ed Hn.
  set (en := normalize_text e) in *. set (gn := normalize_text g) in *.
  set (m := Nat.max (length en) (length gn)) in *.
  pose proof (lev_minimal en gn n Ed) as Dn.
  exists (lev en gn). split; [|split; [exact Dn|]].
  - unfold calculate_accuracy. fold en gn.
    destruct en as [|c1 en'] eqn:Een; [congruence|].
    destruct gn as [|c2 gn'] eqn:Egn; [congruence|].
    cbn [is_empty orb]. rewrite levenshtein_distance_correct. cbn [obind].
    fold m. assert (M : 0 < m) by (unfold m; cbn [length]; lia).
    pose proof (proj2 (Nat.ltb_lt 0 m) M) as Mb. rewrite Mb.
    set (d := lev (c1 :: en') (c2 :: gn')) in *.
    pose proof (percentage_full_marks d m M) as P.
    unfold percentage in P. rewrite P; [reflexivity|].
    change (2 ^ 15)%Z with 32768%Z. lia.
  - split.
    + intros Z. apply lev_zero_eq. exact Z.
    + intros ->. apply lev_refl.
Qed.

Lemma char_lower_islower : forall c, islower c = true -> char_lower c = c.
Proof. intros [[] [] [] [] [] [] [] []]; vm_compute; congruence. Qed.

Lemma islower_class : forall c,
  islower c = true -> isspace c = false /\ isword c = true.
Proof. intros [[] [] [] [] [] [] [] []]; vm_compute; split; congruence. Qed.

Lemma rstrip_rec_no_space : forall s,
  forallb (fun c => negb (isspace c)) s = true -> rstrip_rec s = s.
Proof.
  induction s as [|c s IH]; simpl; intros H; [reflexivity|].
  apply andb_true_iff in H as [Hc Hs]. apply negb_true_iff in Hc.
  rewrite Hc, (IH Hs). reflexivity.
Qed.

Lemma sub_spaces_no_space : forall s,
  forallb (fun c => negb (isspace c)) s = true ->
  sub_spaces_from false s = s.
Proof.
  induction s as [|c s IH]; simpl; intros H; [reflexivity|].
  apply andb_true_iff in H as [Hc Hs]. apply negb_true_iff in Hc.
  rewrite Hc, (IH Hs). reflexivity.
Qed.

(** A text of lower-case letters is its own normal form. *)
Lemma normalize_text_lowercase : forall s,
  forallb islower s = true -> normalize_text s = s.
Proof.
  intros s H.
  assert (L : lower s = s).
  { induction s as [|c s IH]; simpl in *; [reflexivity|].
    apply andb_true_iff in H as [Hc Hs].
    rewrite (char_lower_islower c Hc), (IH Hs). reflexivity. }
  assert (N : forallb (fun c => negb (isspace c)) s = true).
  { apply forallb_forall. intros c I.
    destruct (islower_class c (proj1 (forallb_forall _ _) H c I)) as [S _].
    rewrite S. reflexivity. }
  assert (P : punctuation_free s = true).
  { apply forallb_forall. intros c I.
    destruct (islower_class c (proj1 (forallb_forall _ _) H c I)) as [_ W].
    rewrite W. reflexivity. }
  unfold normalize_text. rewrite L.
  assert (S : strip s = s).
  { unfold strip. rewrite rstrip_rstrip_rec. unfold lstrip.
    destruct s as [|c s]; [reflexivity|].
    pose proof N as N'. simpl in N'. apply andb_true_iff in N' as [Hc _].
    apply negb_true_iff in Hc. simpl dropwhile. rewrite Hc.
    apply rstrip_rec_no_space, N. }
  rewrite S. unfold sub_spaces. rewrite (sub_spaces_no_space s N).
  apply sub_punct_free, P.
Qed.

Lemma forallb_repeat : forall (A : Type) (p : A -> bool) x n,
  p x = true -> forallb p (repeat x n) = true.
Proof.
  intros A p x n H. induction n as [|n IH]; simpl; [reflexivity|].
  rewrite H, IH. reflexivity.
Qed.

Lemma forallb_cons : forall (A : Type) (p : A -> bool) x l,
  forallb p (x :: l) = p x && forallb p l.
Proof. reflexivity. Qed.

Lemma length_cons_S : forall (A : Type) (x : A) l,
  length (x :: l) = S (length l).
Proof. reflexivity. Qed.

Lemma long_run_lower : forallb islower long_run = true.
Proof. apply forallb_repeat. reflexivity. Qed.

Lemma long_text_normal : forall c,
  islower c = true -> normalize_text (c :: long_run) = c :: long_run.
Proof.
  intros c H. apply normalize_text_lowercase.
  rewrite forallb_cons, H, long_run_lower. reflexivity.
Qed.

Lemma long_text_length : forall c, length (c :: long_run) = S (N.to_nat 32767).
Proof.
  intros c. rewrite length_cons_S. unfold long_run.
  rewrite repeat_length. reflexivity.
Qed.

Lemma full_marks_despite_edits_witness :
  calculate_accuracy long_extracted long_reference
  = Some [PFloat float_hundred; PStr long_extracted; PStr long_reference;
          PInt 1; PInt (S (N.to_nat 32767))].
Proof.
  assert (Ne : normalize_text long_extracted = long_extracted)
    by (apply long_text_normal; reflexivity).
  assert (Ng : normalize_text long_reference = long_reference)
    by (apply long_text_normal; reflexivity).
  assert (M : Nat.max (length long_extracted) (length long_reference)
              = S (N.to_nat 32767)).
  { unfold long_extracted, long_reference.
    rewrite !long_text_length. apply Nat.max_id. }
  destruct (full_marks_despite_edits long_extracted long_reference 1)
    as (d & E & Dn & Z).
  - rewrite Ne. unfold long_extracted. discriminate.
  - rewrite Ng. unfold long_reference. discriminate.
  - rewrite Ne, Ng. apply ed_subst, edits_refl.
  - rewrite Ne, Ng, M. change (Z.of_nat 1) with 1%Z.
    rewrite Nat2Z.inj_succ, N_nat_Z. reflexivity.
  - rewrite Ne, Ng, M in E. rewrite Ne, Ng in Z.
    assert (D : d = 1).
    { destruct d as [|[|d]]; [|reflexivity | lia].
      destruct Z as [Z _]. specialize (Z eq_refl).
      unfold long_extracted, long_reference in Z. discriminate. }
    rewrite E, D. reflexivity.
Defined.
